(** * StrangerChat: the matchmaking and session-relay server

    A shallow embedding of [server/storage.ts] (class [MemStorage]) and of
    the WebSocket handlers of [server/routes.ts], with the properties of
    the specification stated and proved over it.

    Conventions of the embedding.
    - Socket identifiers are strings.  Room, audit-log and chat-message
      identifiers are the results of [randomUUID()]; the n-th identifier
      drawn by the process is modelled as the natural number n, so two
      draws never collide and a drawn identifier is never the empty
      (falsy) string.
    - [new Date()] is read from the environment of the running handler as
      a number of milliseconds ([Z]); [toISOString()] is kept as that
      number.
    - The set [wss.clients] is part of the environment of a handler: the
      handlers only read it.
    - The handlers are [async] functions.  Code between two [await]s
      runs without interruption; at an [await] the handler is suspended
      and other handlers may run before it is resumed.  [ws.send] and
      [setTimeout] are recorded, in order, as effects.  Of
      [console.log] and [console.error] only the conversion to a string
      of a value received from the client is modelled, because it can
      raise. *)

From Stdlib Require Import ZArith Lia Permutation Sorted Ascii.
From stdpp Require Import gmap strings list fin_maps sorting.

#[local] Set Warnings "-register-all".

(** ** Values received from the client *)

(** A JavaScript string is a sequence of UTF-16 code units. *)
Definition CodeUnit := N.
Definition JsString := list CodeUnit.

Definition lit (s : string) : JsString :=
  map N_of_ascii (String.list_ascii_of_string s).

(** The result of [JSON.parse], plus [undefined] for a property that is
    absent.  Numbers are restricted to integer literals, for which
    truthiness is being different from zero. *)
Inductive jsval :=
| JUndefined
| JNull
| JBool (b : bool)
| JNum (n : Z)
| JStr (s : JsString)
| JArr (l : list jsval)
| JObj (fields : list (JsString * jsval)).

Definition truthy (v : jsval) : bool :=
  match v with
  | JUndefined | JNull => false
  | JBool b => b
  | JNum n => negb (n =? 0)%Z
  | JStr s => negb (bool_decide (s = []))
  | JArr _ | JObj _ => true
  end.

(** [if (id)] on a string identifier: only the empty string is falsy. *)
Definition truthy_id (s : string) : bool := negb (String.eqb s "").

(** Own property of a parsed object; a repeated key keeps its last
    value. *)
Fixpoint lookup_field (k : JsString) (fields : list (JsString * jsval)) : option jsval :=
  match fields with
  | [] => None
  | (k', v) :: rest =>
      match lookup_field k rest with
      | Some v' => Some v'
      | None => if bool_decide (k' = k) then Some v else None
      end
  end.

(** [v.key] for the keys the server reads ([type], [content],
    [videoMode], [signal]): [None] is the TypeError raised on [null] and
    [undefined]; primitives and arrays have no such property. *)
Definition get_prop (v : jsval) (key : string) : option jsval :=
  match v with
  | JUndefined | JNull => None
  | JObj fields => Some (default JUndefined (lookup_field (lit key) fields))
  | _ => Some JUndefined
  end.

(** [v === 'literal'] *)
Definition strict_eq_lit (v : jsval) (s : string) : bool :=
  match v with
  | JStr t => bool_decide (t = lit s)
  | _ => false
  end.

(** The conversion of a parsed value to a string, as a template literal
    does it, raises a TypeError exactly when it meets an object with an
    own property [toString]: a parsed value is never callable, and
    [valueOf], own or inherited, yields no primitive.  An array is
    joined, which converts its elements other than [null] and
    [undefined]. *)
Fixpoint toStringThrows (v : jsval) : bool :=
  match v with
  | JObj fields => bool_decide (is_Some (lookup_field (lit "toString") fields))
  | JArr l =>
      existsb (fun x => match x with
                        | JUndefined | JNull => false
                        | _ => toStringThrows x
                        end) l
  | _ => false
  end.

(** ** shared/schema.ts *)

Record SocketUser := mkSocketUser {
  socketId : string;
  joinedAt : Z;
  ipAddress : string;
  userAgent : string
}.

Record ChatRoom := mkChatRoom {
  id : nat;
  users : string * string;
  createdAt : Z;
  isVideoCall : option bool
}.

Record ChatMessage := mkChatMessage {
  msg_id : nat;
  content : JsString;
  msg_timestamp : Z;
  isOwn : bool
}.

(** The [details] column: a fixed text, or a template literal kept with
    the value it interpolates. *)
Inductive Details :=
| Text (s : string)
| PairedWith (partner : string)
| VideoPairedWith (partner : string)
| ReportedPartner (partner : string)
| SignalType (ty : jsval).

Record InsertAuditLog := mkInsertAuditLog {
  ins_socketId : string;
  ins_partnerSocketId : option string;
  ins_action : string;
  ins_ipAddress : option string;
  ins_userAgent : option string;
  ins_details : option Details
}.

Record AuditLog := mkAuditLog {
  log_id : nat;
  log_socketId : string;
  log_partnerSocketId : option string;
  log_action : string;
  log_ipAddress : option string;
  log_userAgent : option string;
  timestamp : Z;
  details : option Details
}.

(** ** server/storage.ts *)

(** A JavaScript [Map] keeps its keys in insertion order; [set] on a key
    that is present replaces the value in place. *)
Fixpoint map_set {V} (k : nat) (v : V) (m : list (nat * V)) : list (nat * V) :=
  match m with
  | [] => [(k, v)]
  | (k', v') :: rest =>
      if bool_decide (k' = k) then (k, v) :: rest else (k', v') :: map_set k v rest
  end.

Definition map_values {V} (m : list (nat * V)) : list V := map snd m.

Record MemStorage := mkMemStorage {
  auditLogs : list (nat * AuditLog);
  waitingQueue : list SocketUser;
  videoWaitingQueue : list SocketUser;
  chatRooms : gmap nat ChatRoom;
  userRoomMap : gmap string nat;
  webrtcState : gmap nat jsval
}.

(** The constructor of [MemStorage]. *)
Definition newMemStorage : MemStorage :=
  mkMemStorage [] [] [] ∅ ∅ ∅.

Definition set_auditLogs (f : list (nat * AuditLog) -> list (nat * AuditLog)) (st : MemStorage) :=
  mkMemStorage (f (auditLogs st)) (waitingQueue st) (videoWaitingQueue st)
    (chatRooms st) (userRoomMap st) (webrtcState st).
Definition set_waitingQueue (f : list SocketUser -> list SocketUser) (st : MemStorage) :=
  mkMemStorage (auditLogs st) (f (waitingQueue st)) (videoWaitingQueue st)
    (chatRooms st) (userRoomMap st) (webrtcState st).
Definition set_videoWaitingQueue (f : list SocketUser -> list SocketUser) (st : MemStorage) :=
  mkMemStorage (auditLogs st) (waitingQueue st) (f (videoWaitingQueue st))
    (chatRooms st) (userRoomMap st) (webrtcState st).
Definition set_chatRooms (f : gmap nat ChatRoom -> gmap nat ChatRoom) (st : MemStorage) :=
  mkMemStorage (auditLogs st) (waitingQueue st) (videoWaitingQueue st)
    (f (chatRooms st)) (userRoomMap st) (webrtcState st).
Definition set_userRoomMap (f : gmap string nat -> gmap string nat) (st : MemStorage) :=
  mkMemStorage (auditLogs st) (waitingQueue st) (videoWaitingQueue st)
    (chatRooms st) (f (userRoomMap st)) (webrtcState st).
Definition set_webrtcState (f : gmap nat jsval -> gmap nat jsval) (st : MemStorage) :=
  mkMemStorage (auditLogs st) (waitingQueue st) (videoWaitingQueue st)
    (chatRooms st) (userRoomMap st) (f (webrtcState st)).

(** [createAuditLog]: the identifier and the time are drawn by the
    caller's monad (see [createAuditLogM]). *)
Definition createAuditLog (uuid : nat) (time : Z) (insertLog : InsertAuditLog)
    (st : MemStorage) : AuditLog * MemStorage :=
  let log := {| log_id := uuid;
                log_socketId := ins_socketId insertLog;
                log_partnerSocketId := ins_partnerSocketId insertLog;
                log_action := ins_action insertLog;
                log_ipAddress := ins_ipAddress insertLog;
                log_userAgent := ins_userAgent insertLog;
                timestamp := time;
                details := ins_details insertLog |} in
  (log, set_auditLogs (map_set uuid log) st).

(** [Array.prototype.sort] is stable; with the comparator
    [(a, b) => b.timestamp.getTime() - a.timestamp.getTime()] an element
    goes before the first one whose timestamp is not newer than its
    own. *)
Definition compareLogs (a b : AuditLog) : Z := (timestamp b - timestamp a)%Z.

Fixpoint sort_insert (a : AuditLog) (l : list AuditLog) : list AuditLog :=
  match l with
  | [] => [a]
  | b :: rest => if (compareLogs a b <=? 0)%Z then a :: b :: rest
                 else b :: sort_insert a rest
  end.

Definition sortLogs (l : list AuditLog) : list AuditLog := foldr sort_insert [] l.

(** [arr.slice(0, end)] for an integer [end]: a negative [end] counts
    from the end of the array. *)
Definition slice0 {A} (l : list A) (e : Z) : list A :=
  if (e <? 0)%Z then take (Z.to_nat (Z.max (Z.of_nat (length l) + e) 0)) l
  else take (Z.to_nat e) l.

(** [getAuditLogs(limit = 100)] *)
Definition getAuditLogs (limit : option Z) (st : MemStorage) : list AuditLog :=
  slice0 (sortLogs (map_values (auditLogs st))) (default 100%Z limit).

Definition removeUserFromQueue (sid : string) (st : MemStorage) : MemStorage :=
  set_waitingQueue (filter (fun user => socketId user ≠ sid)) st.

Definition addUserToQueue (user : SocketUser) (st : MemStorage) : MemStorage :=
  set_waitingQueue (fun q => q ++ [user]) (removeUserFromQueue (socketId user) st).

Definition getWaitingUsers (st : MemStorage) : list SocketUser := waitingQueue st.

Definition removeUserFromVideoQueue (sid : string) (st : MemStorage) : MemStorage :=
  set_videoWaitingQueue (filter (fun user => socketId user ≠ sid)) st.

Definition addUserToVideoQueue (user : SocketUser) (st : MemStorage) : MemStorage :=
  set_videoWaitingQueue (fun q => q ++ [user]) (removeUserFromVideoQueue (socketId user) st).

Definition getWaitingVideoUsers (st : MemStorage) : list SocketUser := videoWaitingQueue st.

(** [createRoom]: [roomId] and [time] are drawn by the caller's monad. *)
Definition createRoom (roomId : nat) (time : Z) (user1 user2 : SocketUser)
    (st : MemStorage) : ChatRoom * MemStorage :=
  let room := {| id := roomId;
                 users := (socketId user1, socketId user2);
                 createdAt := time;
                 isVideoCall := None |} in
  let st := set_chatRooms (insert roomId room) st in
  let st := set_userRoomMap (insert (socketId user1) roomId) st in
  let st := set_userRoomMap (insert (socketId user2) roomId) st in
  let st := removeUserFromQueue (socketId user1) st in
  let st := removeUserFromQueue (socketId user2) st in
  let st := removeUserFromVideoQueue (socketId user1) st in
  let st := removeUserFromVideoQueue (socketId user2) st in
  (room, st).

Definition getRoomByUser (sid : string) (st : MemStorage) : option ChatRoom :=
  match userRoomMap st !! sid with
  | Some roomId => chatRooms st !! roomId
  | None => None
  end.

Definition clearWebRTCState (roomId : nat) (st : MemStorage) : MemStorage :=
  set_webrtcState (delete roomId) st.

Definition removeRoom (roomId : nat) (st : MemStorage) : MemStorage :=
  match chatRooms st !! roomId with
  | Some room =>
      let st := set_userRoomMap (delete (fst (users room))) st in
      let st := set_userRoomMap (delete (snd (users room))) st in
      let st := set_chatRooms (delete roomId) st in
      clearWebRTCState roomId st
  | None => st
  end.

Definition removeUserFromRoom (sid : string) (st : MemStorage) : MemStorage :=
  let st :=
    match userRoomMap st !! sid with
    | Some roomId =>
        match chatRooms st !! roomId with
        | Some _ => removeRoom roomId st
        | None => st
        end
    | None => st
    end in
  removeUserFromVideoQueue sid (removeUserFromQueue sid st).

(** [room.users.find(id => id !== socketId)] *)
Definition findPartner (room : ChatRoom) (sid : string) : option string :=
  if bool_decide (fst (users room) ≠ sid) then Some (fst (users room))
  else if bool_decide (snd (users room) ≠ sid) then Some (snd (users room))
  else None.

(** ** server/routes.ts: the environment and the handler monad *)

Inductive ReadyState := CONNECTING | OPEN | CLOSING | CLOSED.

#[global] Instance ReadyState_eq_dec : EqDecision ReadyState.
Proof. solve_decision. Defined.

(** An element of [wss.clients]. *)
Record ExtendedWebSocket := mkWs {
  ws_socketId : option string;
  readyState : ReadyState
}.

(** Messages sent to clients ([JSON.stringify] of an object with a
    [type] tag). *)
Inductive ServerMessage :=
| MWaiting (message : string)
| MVideoWaiting (message : string)
| MPaired (roomId : nat) (message : string)
| MVideoPaired (roomId : nat) (isInitiator : bool) (message : string)
| MMessage (message : ChatMessage)
| MMessageSent (message : ChatMessage)
| MPartnerDisconnected (message : string)
| MReportSubmitted (message : string)
| MError (message : string)
| MWebrtcSignal (signal : jsval) (from to : string).

(** The closures handed to [setTimeout]. *)
Inductive Callback :=
| CbTryMatchText (avoidPairing : list string)
| CbTryMatchVideo (avoidPairing : list string)
| CbVideoReady (roomId : nat).

Inductive Effect :=
| Send (to : string) (m : ServerMessage)
| SetTimeout (cb : Callback) (ms : nat).

Record Env := mkEnv {
  clients : list ExtendedWebSocket;
  now : Z
}.

Record World := mkWorld {
  storage : MemStorage;
  uuids : nat;
  effects : list Effect
}.

(** A handler either returns or raises a TypeError; what it did to the
    world before raising stays done. *)
Inductive Outcome (A : Type) :=
| Ok (a : A)
| Throw.
Arguments Ok {A} a.
Arguments Throw {A}.

Definition M (A : Type) : Type := Env -> World -> Outcome A * World.

#[global] Instance M_ret : MRet M := fun A a _ w => (Ok a, w).
#[global] Instance M_bind : MBind M := fun A B f m e w =>
  match m e w with
  | (Ok a, w') => f a e w'
  | (Throw, w') => (Throw, w')
  end.

Definition throw {A} : M A := fun _ w => (Throw, w).

Definition try_catch (body handler : M unit) : M unit := fun e w =>
  match body e w with
  | (Ok a, w') => (Ok a, w')
  | (Throw, w') => handler e w'
  end.

Definition clock : M Z := fun e w => (Ok (now e), w).

Definition randomUUID : M nat := fun _ w =>
  (Ok (uuids w), mkWorld (storage w) (S (uuids w)) (effects w)).

Definition read {A} (f : MemStorage -> A) : M A := fun _ w => (Ok (f (storage w)), w).

Definition update (f : MemStorage -> MemStorage) : M unit := fun _ w =>
  (Ok tt, mkWorld (f (storage w)) (uuids w) (effects w)).

Definition emit (x : Effect) : M unit := fun _ w =>
  (Ok tt, mkWorld (storage w) (uuids w) (effects w ++ [x])).

Definition send (to : string) (m : ServerMessage) : M unit := emit (Send to m).
Definition setTimeout (cb : Callback) (ms : nat) : M unit := emit (SetTimeout cb ms).

Definition createAuditLogM (insertLog : InsertAuditLog) : M AuditLog :=
  uuid ← randomUUID;
  time ← clock;
  st ← read (fun st => st);
  let '(log, st') := createAuditLog uuid time insertLog st in
  update (fun _ => st');;
  mret log.

Definition createRoomM (user1 user2 : SocketUser) : M ChatRoom :=
  roomId ← randomUUID;
  time ← clock;
  st ← read (fun st => st);
  let '(room, st') := createRoom roomId time user1 user2 st in
  update (fun _ => st');;
  mret room.

(** [room.isVideoCall = true]: the room returned by [createRoom] is the
    object stored in [chatRooms], so the assignment is seen there. *)
Definition markVideoCall (room : ChatRoom) : ChatRoom :=
  mkChatRoom (id room) (users room) (createdAt room) (Some true).

Definition findOpen (sid : string) (clients : list ExtendedWebSocket)
    : option ExtendedWebSocket :=
  find (fun client =>
          bool_decide (ws_socketId client = Some sid)
          && bool_decide (readyState client = OPEN)) clients.

Definition findWebSocketBySocketId (sid : string) : M (option ExtendedWebSocket) :=
  fun e w => (Ok (findOpen sid (clients e)), w).

(** [!partnerWs || partnerWs.readyState !== WebSocket.OPEN] *)
Definition unreachable (partnerWs : option ExtendedWebSocket) : bool :=
  match partnerWs with
  | None => true
  | Some ws => negb (bool_decide (readyState ws = OPEN))
  end.

(** ** Asynchronous functions

    An [async] function runs synchronously up to its first [await] and
    is then suspended; what remains of it runs later, in a world that
    other handlers may have changed in between, and in the environment
    of that later moment.  [Res A] is the outcome of one such stretch:
    the function has returned, it has raised, or it is suspended with
    its continuation. *)

Inductive Res (A : Type) : Type :=
| Finished (a : A) (w : World)
| Raised (w : World)
| Suspended (w : World) (k : Env -> World -> Res A).
Arguments Finished {A} a w.
Arguments Raised {A} w.
Arguments Suspended {A} w k.

Definition Co (A : Type) : Type := Env -> World -> Res A.

Fixpoint res_bind {A B} (r : Res A) (f : A -> Co B) (e : Env) : Res B :=
  match r with
  | Finished a w => f a e w
  | Raised w => Raised w
  | Suspended w k => Suspended w (fun e' w' => res_bind (k e' w') f e')
  end.

#[global] Instance Co_ret : MRet Co := fun A a _ w => Finished a w.
#[global] Instance Co_bind : MBind Co := fun A B f c e w => res_bind (c e w) f e.

(** Code without [await]. *)
Definition sync {A} (m : M A) : Co A := fun e w =>
  match m e w with
  | (Ok a, w') => Finished a w'
  | (Throw, w') => Raised w'
  end.

Definition raise {A} : Co A := fun _ w => Raised w.

(** [await c], for the call [c] of an [async] function: the callee runs
    up to its own first [await]; when it has returned or raised, the
    caller is resumed with the result one turn of the microtask queue
    later. *)
Fixpoint res_await {A} (r : Res A) : Res A :=
  match r with
  | Finished a w => Suspended w (fun _ w' => Finished a w')
  | Raised w => Suspended w (fun _ w' => Raised w')
  | Suspended w k => Suspended w (fun e w' => res_await (k e w'))
  end.

Definition await {A} (c : Co A) : Co A := fun e w => res_await (c e w).

(** [try { body } catch { handler }] *)
Fixpoint res_catch (r : Res unit) (handler : Co unit) (e : Env) : Res unit :=
  match r with
  | Finished a w => Finished a w
  | Raised w => handler e w
  | Suspended w k => Suspended w (fun e' w' => res_catch (k e' w') handler e')
  end.

Definition catch (body handler : Co unit) : Co unit := fun e w =>
  res_catch (body e w) handler e.

(** [storage.createAuditLog] is [async] and has no [await] of its
    own. *)
Definition createAuditLogA (insertLog : InsertAuditLog) : Co AuditLog :=
  sync (createAuditLogM insertLog).

(** The function run with nothing else in between: every suspension is
    resumed at once, in the same environment. *)
Fixpoint res_run {A} (r : Res A) (e : Env) : Outcome A * World :=
  match r with
  | Finished a w => (Ok a, w)
  | Raised w => (Throw, w)
  | Suspended w k => res_run (k e w) e
  end.

Definition atomically {A} (c : Co A) : M A := fun e w => res_run (c e w) e.

(** ** The matchmaker *)

(** The choice of [user1] and [user2], the same text in
    [tryMatchTextUsersWithPreference] and
    [tryMatchVideoUsersWithPreference].  [None]: fewer than two users
    wait.  A second component [None] is [user2] being [undefined] (the
    [find] under the non-null assertion found nothing). *)
Definition selectPair (waitingUsers : list SocketUser) (avoidPairing : list string)
    : option (SocketUser * option SocketUser) :=
  match waitingUsers with
  | w0 :: w1 :: _ =>
      if bool_decide (2 < length waitingUsers) && bool_decide (length avoidPairing = 2) then
        let availableUsers :=
          filter (fun user => socketId user ∉ avoidPairing) waitingUsers in
        match availableUsers with
        | a0 :: a1 :: _ => Some (a0, Some a1)
        | [a0] =>
            Some (a0, find (fun user => bool_decide (socketId user ∈ avoidPairing)) waitingUsers)
        | [] => Some (w0, Some w1)
        end
      else Some (w0, Some w1)
  | _ => None
  end.

Definition pairedLog (action : string) (d : string -> Details) (u partner : SocketUser) :=
  {| ins_socketId := socketId u;
     ins_partnerSocketId := Some (socketId partner);
     ins_action := action;
     ins_ipAddress := Some (ipAddress u);
     ins_userAgent := Some (userAgent u);
     ins_details := Some (d (socketId partner)) |}.

Definition tryMatchTextUsersWithPreference (avoidPairing : list string) : Co unit :=
  waitingUsers ← sync (read getWaitingUsers);
  match selectPair waitingUsers avoidPairing with
  | None => mret tt
  | Some (user1, None) => sync randomUUID;; raise
  | Some (user1, Some user2) =>
      room ← sync (createRoomM user1 user2);
      ws1 ← sync (findWebSocketBySocketId (socketId user1));
      ws2 ← sync (findWebSocketBySocketId (socketId user2));
      if bool_decide (is_Some ws1) && bool_decide (is_Some ws2) then
        sync (send (socketId user1)
                (MPaired (id room) "You have been connected to a stranger!"));;
        sync (send (socketId user2)
                (MPaired (id room) "You have been connected to a stranger!"));;
        await (createAuditLogA (pairedLog "paired" PairedWith user1 user2));;
        await (createAuditLogA (pairedLog "paired" PairedWith user2 user1));;
        mret tt
      else mret tt
  end.

Definition tryMatchVideoUsersWithPreference (avoidPairing : list string) : Co unit :=
  waitingUsers ← sync (read getWaitingVideoUsers);
  match selectPair waitingUsers avoidPairing with
  | None => mret tt
  | Some (user1, None) => sync randomUUID;; raise
  | Some (user1, Some user2) =>
      room ← sync (createRoomM user1 user2);
      sync (update (set_chatRooms (alter markVideoCall (id room))));;
      ws1 ← sync (findWebSocketBySocketId (socketId user1));
      ws2 ← sync (findWebSocketBySocketId (socketId user2));
      if bool_decide (is_Some ws1) && bool_decide (is_Some ws2) then
        sync (send (socketId user1)
                (MVideoPaired (id room) true "Connected for video chat! Preparing video..."));;
        sync (send (socketId user2)
                (MVideoPaired (id room) false "Connected for video chat! Preparing video..."));;
        await (createAuditLogA (pairedLog "video_paired" VideoPairedWith user1 user2));;
        await (createAuditLogA (pairedLog "video_paired" VideoPairedWith user2 user1));;
        sync (setTimeout (CbVideoReady (id room)) 100)
      else mret tt
  end.

(** ** The handlers *)

Definition handleJoinQueue (sid ip ua : string) : Co unit :=
  time ← sync clock;
  let user := mkSocketUser sid time ip ua in
  sync (update (removeUserFromRoom sid));;
  sync (update (addUserToQueue user));;
  await (createAuditLogA {| ins_socketId := sid; ins_partnerSocketId := None;
                            ins_action := "join_queue";
                            ins_ipAddress := Some ip; ins_userAgent := Some ua;
                            ins_details := Some (Text "User joined waiting queue") |});;
  await (tryMatchTextUsersWithPreference []);;
  userRoom ← sync (read (getRoomByUser sid));
  match userRoom with
  | None => sync (send sid (MWaiting "Looking for someone to chat with..."))
  | Some _ => mret tt
  end.

Definition handleStartVideo (sid ip ua : string) : Co unit :=
  time ← sync clock;
  let user := mkSocketUser sid time ip ua in
  sync (update (removeUserFromRoom sid));;
  sync (update (addUserToVideoQueue user));;
  await (createAuditLogA {| ins_socketId := sid; ins_partnerSocketId := None;
                            ins_action := "join_video_queue";
                            ins_ipAddress := Some ip; ins_userAgent := Some ua;
                            ins_details :=
                              Some (Text "User joined video chat waiting queue") |});;
  await (tryMatchVideoUsersWithPreference []);;
  userRoom ← sync (read (getRoomByUser sid));
  match userRoom with
  | None => sync (send sid (MVideoWaiting "Looking for someone to video chat with..."))
  | Some _ => mret tt
  end.

(** The partner as the guards [if (partnerId)] and [if (!partnerId)] see
    it: found and not the empty string. *)
Definition partnerOf (room : ChatRoom) (sid : string) : option string :=
  match findPartner room sid with
  | Some p => if truthy_id p then Some p else None
  | None => None
  end.

(** [content.substring(0, 1000)]; a TypeError when [content] is not a
    string. *)
Definition substring_0_1000 (content : jsval) : M JsString :=
  match content with
  | JStr s => mret (take 1000 s)
  | _ => throw
  end.

Definition handleSendMessage (sid : string) (content : jsval) : Co unit :=
  room ← sync (read (getRoomByUser sid));
  match room with
  | None => sync (send sid (MError "You are not in a chat room"))
  | Some room =>
      match partnerOf room sid with
      | None => sync (send sid (MError "No partner found"))
      | Some partnerId =>
          partnerWs ← sync (findWebSocketBySocketId partnerId);
          if unreachable partnerWs then
            sync (send sid (MPartnerDisconnected "Your partner has disconnected"));;
            sync (update (removeUserFromRoom sid))
          else
            mid ← sync randomUUID;
            text ← sync (substring_0_1000 content);
            time ← sync clock;
            let messageData := mkChatMessage mid text time false in
            sync (send partnerId (MMessage messageData));;
            sync (send sid (MMessageSent (mkChatMessage mid text time true)));;
            await (createAuditLogA {| ins_socketId := sid;
                                      ins_partnerSocketId := Some partnerId;
                                      ins_action := "message";
                                      ins_ipAddress := None; ins_userAgent := None;
                                      ins_details := Some (Text "Message sent") |});;
            mret tt
      end
  end.

(** [!room || !room.isVideoCall] fails *)
Definition videoRoom (room : option ChatRoom) : option ChatRoom :=
  match room with
  | Some room => if bool_decide (isVideoCall room = Some true) then Some room else None
  | None => None
  end.

Definition inQueue (sid : string) (q : list SocketUser) : bool :=
  existsb (fun user => bool_decide (socketId user = sid)) q.

(** [videoMode] is [message.videoMode] as received, or [undefined] when
    the caller passes nothing. *)
Definition handleNextUser (sid ip ua : string) (videoMode : jsval) : Co unit :=
  room ← sync (read (getRoomByUser sid));
  match room with
  | None =>
      isInTextQueue ← sync (read (fun st => inQueue sid (getWaitingUsers st)));
      isInVideoQueue ← sync (read (fun st => inQueue sid (getWaitingVideoUsers st)));
      if isInTextQueue || isInVideoQueue then
        if truthy videoMode || isInVideoQueue then
          sync (send sid (MVideoWaiting "Still looking for someone to video chat with..."))
        else
          sync (send sid (MWaiting "Still looking for someone to chat with..."))
      else if truthy videoMode then await (handleStartVideo sid ip ua)
      else await (handleJoinQueue sid ip ua)
  | Some room =>
      let wasVideoCall :=
        match videoMode with
        | JUndefined => default false (isVideoCall room)
        | _ => truthy videoMode
        end in
      let partnerId := partnerOf room sid in
      await (createAuditLogA {| ins_socketId := sid;
                                ins_partnerSocketId := findPartner room sid;
                                ins_action := "next_user";
                                ins_ipAddress := Some ip; ins_userAgent := Some ua;
                                ins_details :=
                                  Some (Text "User clicked next to find new partner") |});;
      (if wasVideoCall && bool_decide (is_Some partnerId)
       then sync (update (clearWebRTCState (id room))) else mret tt);;
      sync (update (removeUserFromRoom sid));;
      match partnerId with
      | Some partnerId =>
          sync (update (removeUserFromRoom partnerId));;
          partnerWs ← sync (findWebSocketBySocketId partnerId);
          time ← sync clock;
          let currentUser := mkSocketUser sid time ip ua in
          let partnerUser := mkSocketUser partnerId time "" "" in
          if wasVideoCall then
            sync (update (addUserToVideoQueue currentUser));;
            sync (update (addUserToVideoQueue partnerUser));;
            sync (send sid (MVideoWaiting "Looking for someone new to video chat with..."));;
            (if unreachable partnerWs then mret tt
             else sync (send partnerId
                          (MVideoWaiting "Looking for someone new to video chat with...")));;
            sync (setTimeout (CbTryMatchVideo [sid; partnerId]) 1000)
          else
            sync (update (addUserToQueue currentUser));;
            sync (update (addUserToQueue partnerUser));;
            sync (send sid (MWaiting "Looking for someone new to chat with..."));;
            (if unreachable partnerWs then mret tt
             else sync (send partnerId (MWaiting "Looking for someone new to chat with...")));;
            sync (setTimeout (CbTryMatchText [sid; partnerId]) 1000)
      | None =>
          if wasVideoCall then await (handleStartVideo sid ip ua)
          else await (handleJoinQueue sid ip ua)
      end
  end.

(** The template literal with [signal.type] is evaluated, and may
    raise, after the signal has been forwarded. *)
Definition handleWebRTCSignal (sid : string) (signal : jsval) : Co unit :=
  room ← sync (read (getRoomByUser sid));
  match videoRoom room with
  | None => sync (send sid (MError "Not in a video chat room"))
  | Some room =>
      match partnerOf room sid with
      | None => sync (send sid (MError "No video partner found"))
      | Some partnerId =>
          partnerWs ← sync (findWebSocketBySocketId partnerId);
          if unreachable partnerWs then
            sync (send sid (MPartnerDisconnected "Your video partner has disconnected"));;
            sync (update (removeUserFromRoom sid))
          else
            sync (send partnerId (MWebrtcSignal signal sid partnerId));;
            match get_prop signal "type" with
            | None => raise
            | Some ty =>
                if toStringThrows ty then raise
                else
                  await (createAuditLogA {| ins_socketId := sid;
                                            ins_partnerSocketId := Some partnerId;
                                            ins_action := "webrtc_signal";
                                            ins_ipAddress := None; ins_userAgent := None;
                                            ins_details := Some (SignalType ty) |});;
                  mret tt
            end
      end
  end.

Definition handleReportUser (sid ip ua : string) : Co unit :=
  room ← sync (read (getRoomByUser sid));
  match room with
  | None => sync (send sid (MError "No active chat to report"))
  | Some room =>
      match partnerOf room sid with
      | Some partnerId =>
          await (createAuditLogA {| ins_socketId := sid;
                                    ins_partnerSocketId := Some partnerId;
                                    ins_action := "report";
                                    ins_ipAddress := Some ip; ins_userAgent := Some ua;
                                    ins_details := Some (ReportedPartner partnerId) |});;
          mret tt
      | None => mret tt
      end;;
      sync (send sid (MReportSubmitted "Report submitted successfully"));;
      await (handleNextUser sid ip ua JUndefined)
  end.

Definition handleDisconnect (sid ip ua : string) : Co unit :=
  room ← sync (read (getRoomByUser sid));
  match room with
  | Some room =>
      let video := bool_decide (isVideoCall room = Some true) in
      (if video then sync (update (clearWebRTCState (id room))) else mret tt);;
      match partnerOf room sid with
      | Some partnerId =>
          partnerWs ← sync (findWebSocketBySocketId partnerId);
          (if unreachable partnerWs then mret tt
           else
             time ← sync clock;
             let partnerUser := mkSocketUser partnerId time "" "" in
             if video then
               sync (send partnerId
                       (MPartnerDisconnected "Your video partner has disconnected"));;
               sync (update (addUserToVideoQueue partnerUser));;
               sync (send partnerId
                       (MVideoWaiting "Looking for someone to video chat with..."));;
               sync (setTimeout (CbTryMatchVideo []) 500)
             else
               sync (send partnerId (MPartnerDisconnected "Your partner has disconnected"));;
               sync (update (addUserToQueue partnerUser));;
               sync (send partnerId (MWaiting "Looking for someone to chat with..."));;
               sync (setTimeout (CbTryMatchText []) 500));;
          await (createAuditLogA {| ins_socketId := sid;
                                    ins_partnerSocketId := Some partnerId;
                                    ins_action := "disconnect";
                                    ins_ipAddress := Some ip; ins_userAgent := Some ua;
                                    ins_details := Some (Text "User disconnected from chat") |});;
          mret tt
      | None => mret tt
      end
  | None => mret tt
  end;;
  sync (update (removeUserFromRoom sid)).

(** ** The events of the server *)

(** The [connection] handler draws the identifier of the socket, sends
    [connected] and installs the handlers below; it does not touch the
    store.  The heartbeat only terminates sockets, which ends in their
    close event. *)

(** A connection: the identifier drawn for it and the request headers
    kept in the closure of its handlers. *)
Record Connection := mkConnection {
  conn_socketId : string;
  conn_ipAddress : string;
  conn_userAgent : string
}.

(** [ws.on('message')]: [data] is the outcome of [JSON.parse], [None]
    when it raises.  The [default] branch builds its log line with
    [message.type] in a template literal. *)
Definition onMessage (c : Connection) (data : option jsval) : Co unit :=
  let sid := conn_socketId c in
  let ip := conn_ipAddress c in
  let ua := conn_userAgent c in
  catch
    (match data with
     | None => raise
     | Some message =>
         match get_prop message "type" with
         | None => raise
         | Some ty =>
             if strict_eq_lit ty "join_queue" then await (handleJoinQueue sid ip ua)
             else if strict_eq_lit ty "send_message" then
               await (handleSendMessage sid (default JUndefined (get_prop message "content")))
             else if strict_eq_lit ty "next_user" then
               await (handleNextUser sid ip ua
                        (default JUndefined (get_prop message "videoMode")))
             else if strict_eq_lit ty "report_user" then await (handleReportUser sid ip ua)
             else if strict_eq_lit ty "start_video" then await (handleStartVideo sid ip ua)
             else if strict_eq_lit ty "webrtc_signal" then
               await (handleWebRTCSignal sid (default JUndefined (get_prop message "signal")))
             else if toStringThrows ty then raise
             else mret tt
         end
     end)
    (sync (send (conn_socketId c) (MError "Failed to process message"))).

(** [ws.on('close')] *)
Definition onClose (c : Connection) : Co unit :=
  await (handleDisconnect (conn_socketId c) (conn_ipAddress c) (conn_userAgent c)).

(** A timer firing. *)
Definition onTimeout (cb : Callback) : Co unit :=
  match cb with
  | CbTryMatchText avoidPairing => await (tryMatchTextUsersWithPreference avoidPairing)
  | CbTryMatchVideo avoidPairing => await (tryMatchVideoUsersWithPreference avoidPairing)
  | CbVideoReady _ => mret tt
  end.

(** [GET /api/audit-logs] *)
Definition apiAuditLogs (st : MemStorage) : list AuditLog := getAuditLogs (Some 50%Z) st.

Inductive Event :=
| EvMessage (c : Connection) (data : option jsval)
| EvClose (c : Connection)
| EvTimeout (cb : Callback).

Definition handle (ev : Event) : Co unit :=
  match ev with
  | EvMessage c data => onMessage c data
  | EvClose c => onClose c
  | EvTimeout cb => onTimeout cb
  end.

(** ** The event loop

    The server holds the world and the handlers that are suspended at
    an [await].  One turn of the loop starts the handler of an event,
    which runs up to its first [await], or resumes a suspended handler,
    which runs up to its next one.  Every turn has its own environment.
    Nothing is assumed about the order of the turns: a trace may resume
    the suspended handlers in any order and start new ones in
    between. *)

Record Task := mkTask {
  origin : Event;
  continuation : Env -> World -> Res unit
}.

Record Server := mkServer {
  world : World;
  tasks : list Task
}.

Inductive Turn :=
| Start (ev : Event)
| Resume (i : nat).

(** After a stretch of the handler of [ev]: a handler that is suspended
    again goes to the end of the list. *)
Definition settle (ev : Event) (r : Res unit) (others : list Task) : Server :=
  match r with
  | Finished _ w => mkServer w others
  | Raised w => mkServer w others
  | Suspended w k => mkServer w (others ++ [mkTask ev k])
  end.

Definition step (s : Server) (x : Env * Turn) : Server :=
  match snd x with
  | Start ev => settle ev (handle ev (fst x) (world s)) (tasks s)
  | Resume i =>
      match tasks s !! i with
      | Some t => settle (origin t) (continuation t (fst x) (world s)) (delete i (tasks s))
      | None => s
      end
  end.

Definition run (s : Server) (trace : list (Env * Turn)) : Server := foldl step s trace.

Definition initWorld : World := mkWorld newMemStorage 0 [].

Definition initServer : Server := mkServer initWorld [].

(** ** The handlers read without their awaits

    The same functions with every [await] erased, in the monad of
    synchronous code: what a handler does when nothing else runs
    between its start and its end.  They are not a second translation
    of the source: each one is proved below to be the handler of the
    previous sections run by [atomically]. *)

Definition tryMatchTextUsersWithPreferenceSeq (avoidPairing : list string) : M unit :=
  waitingUsers ← read getWaitingUsers;
  match selectPair waitingUsers avoidPairing with
  | None => mret tt
  | Some (user1, None) => randomUUID;; throw
  | Some (user1, Some user2) =>
      room ← createRoomM user1 user2;
      ws1 ← findWebSocketBySocketId (socketId user1);
      ws2 ← findWebSocketBySocketId (socketId user2);
      if bool_decide (is_Some ws1) && bool_decide (is_Some ws2) then
        send (socketId user1) (MPaired (id room) "You have been connected to a stranger!");;
        send (socketId user2) (MPaired (id room) "You have been connected to a stranger!");;
        createAuditLogM (pairedLog "paired" PairedWith user1 user2);;
        createAuditLogM (pairedLog "paired" PairedWith user2 user1);;
        mret tt
      else mret tt
  end.

Definition tryMatchVideoUsersWithPreferenceSeq (avoidPairing : list string) : M unit :=
  waitingUsers ← read getWaitingVideoUsers;
  match selectPair waitingUsers avoidPairing with
  | None => mret tt
  | Some (user1, None) => randomUUID;; throw
  | Some (user1, Some user2) =>
      room ← createRoomM user1 user2;
      update (set_chatRooms (alter markVideoCall (id room)));;
      ws1 ← findWebSocketBySocketId (socketId user1);
      ws2 ← findWebSocketBySocketId (socketId user2);
      if bool_decide (is_Some ws1) && bool_decide (is_Some ws2) then
        send (socketId user1)
          (MVideoPaired (id room) true "Connected for video chat! Preparing video...");;
        send (socketId user2)
          (MVideoPaired (id room) false "Connected for video chat! Preparing video...");;
        createAuditLogM (pairedLog "video_paired" VideoPairedWith user1 user2);;
        createAuditLogM (pairedLog "video_paired" VideoPairedWith user2 user1);;
        setTimeout (CbVideoReady (id room)) 100
      else mret tt
  end.

Definition handleJoinQueueSeq (sid ip ua : string) : M unit :=
  time ← clock;
  let user := mkSocketUser sid time ip ua in
  update (removeUserFromRoom sid);;
  update (addUserToQueue user);;
  createAuditLogM {| ins_socketId := sid; ins_partnerSocketId := None;
                     ins_action := "join_queue";
                     ins_ipAddress := Some ip; ins_userAgent := Some ua;
                     ins_details := Some (Text "User joined waiting queue") |};;
  tryMatchTextUsersWithPreferenceSeq [];;
  userRoom ← read (getRoomByUser sid);
  match userRoom with
  | None => send sid (MWaiting "Looking for someone to chat with...")
  | Some _ => mret tt
  end.

Definition handleStartVideoSeq (sid ip ua : string) : M unit :=
  time ← clock;
  let user := mkSocketUser sid time ip ua in
  update (removeUserFromRoom sid);;
  update (addUserToVideoQueue user);;
  createAuditLogM {| ins_socketId := sid; ins_partnerSocketId := None;
                     ins_action := "join_video_queue";
                     ins_ipAddress := Some ip; ins_userAgent := Some ua;
                     ins_details := Some (Text "User joined video chat waiting queue") |};;
  tryMatchVideoUsersWithPreferenceSeq [];;
  userRoom ← read (getRoomByUser sid);
  match userRoom with
  | None => send sid (MVideoWaiting "Looking for someone to video chat with...")
  | Some _ => mret tt
  end.

Definition handleSendMessageSeq (sid : string) (content : jsval) : M unit :=
  room ← read (getRoomByUser sid);
  match room with
  | None => send sid (MError "You are not in a chat room")
  | Some room =>
      match partnerOf room sid with
      | None => send sid (MError "No partner found")
      | Some partnerId =>
          partnerWs ← findWebSocketBySocketId partnerId;
          if unreachable partnerWs then
            send sid (MPartnerDisconnected "Your partner has disconnected");;
            update (removeUserFromRoom sid)
          else
            mid ← randomUUID;
            text ← substring_0_1000 content;
            time ← clock;
            let messageData := mkChatMessage mid text time false in
            send partnerId (MMessage messageData);;
            send sid (MMessageSent (mkChatMessage mid text time true));;
            createAuditLogM {| ins_socketId := sid; ins_partnerSocketId := Some partnerId;
                               ins_action := "message";
                               ins_ipAddress := None; ins_userAgent := None;
                               ins_details := Some (Text "Message sent") |};;
            mret tt
      end
  end.

Definition handleNextUserSeq (sid ip ua : string) (videoMode : jsval) : M unit :=
  room ← read (getRoomByUser sid);
  match room with
  | None =>
      isInTextQueue ← read (fun st => inQueue sid (getWaitingUsers st));
      isInVideoQueue ← read (fun st => inQueue sid (getWaitingVideoUsers st));
      if isInTextQueue || isInVideoQueue then
        if truthy videoMode || isInVideoQueue then
          send sid (MVideoWaiting "Still looking for someone to video chat with...")
        else
          send sid (MWaiting "Still looking for someone to chat with...")
      else if truthy videoMode then handleStartVideoSeq sid ip ua
      else handleJoinQueueSeq sid ip ua
  | Some room =>
      let wasVideoCall :=
        match videoMode with
        | JUndefined => default false (isVideoCall room)
        | _ => truthy videoMode
        end in
      let partnerId := partnerOf room sid in
      createAuditLogM {| ins_socketId := sid; ins_partnerSocketId := findPartner room sid;
                         ins_action := "next_user";
                         ins_ipAddress := Some ip; ins_userAgent := Some ua;
                         ins_details := Some (Text "User clicked next to find new partner") |};;
      (if wasVideoCall && bool_decide (is_Some partnerId)
       then update (clearWebRTCState (id room)) else mret tt);;
      update (removeUserFromRoom sid);;
      match partnerId with
      | Some partnerId =>
          update (removeUserFromRoom partnerId);;
          partnerWs ← findWebSocketBySocketId partnerId;
          time ← clock;
          let currentUser := mkSocketUser sid time ip ua in
          let partnerUser := mkSocketUser partnerId time "" "" in
          if wasVideoCall then
            update (addUserToVideoQueue currentUser);;
            update (addUserToVideoQueue partnerUser);;
            send sid (MVideoWaiting "Looking for someone new to video chat with...");;
            (if unreachable partnerWs then mret tt
             else send partnerId
                    (MVideoWaiting "Looking for someone new to video chat with..."));;
            setTimeout (CbTryMatchVideo [sid; partnerId]) 1000
          else
            update (addUserToQueue currentUser);;
            update (addUserToQueue partnerUser);;
            send sid (MWaiting "Looking for someone new to chat with...");;
            (if unreachable partnerWs then mret tt
             else send partnerId (MWaiting "Looking for someone new to chat with..."));;
            setTimeout (CbTryMatchText [sid; partnerId]) 1000
      | None =>
          if wasVideoCall then handleStartVideoSeq sid ip ua
          else handleJoinQueueSeq sid ip ua
      end
  end.

Definition handleWebRTCSignalSeq (sid : string) (signal : jsval) : M unit :=
  room ← read (getRoomByUser sid);
  match videoRoom room with
  | None => send sid (MError "Not in a video chat room")
  | Some room =>
      match partnerOf room sid with
      | None => send sid (MError "No video partner found")
      | Some partnerId =>
          partnerWs ← findWebSocketBySocketId partnerId;
          if unreachable partnerWs then
            send sid (MPartnerDisconnected "Your video partner has disconnected");;
            update (removeUserFromRoom sid)
          else
            send partnerId (MWebrtcSignal signal sid partnerId);;
            match get_prop signal "type" with
            | None => throw
            | Some ty =>
                if toStringThrows ty then throw else
                createAuditLogM {| ins_socketId := sid;
                                   ins_partnerSocketId := Some partnerId;
                                   ins_action := "webrtc_signal";
                                   ins_ipAddress := None; ins_userAgent := None;
                                   ins_details := Some (SignalType ty) |};;
                mret tt
            end
      end
  end.

Definition handleReportUserSeq (sid ip ua : string) : M unit :=
  room ← read (getRoomByUser sid);
  match room with
  | None => send sid (MError "No active chat to report")
  | Some room =>
      match partnerOf room sid with
      | Some partnerId =>
          createAuditLogM {| ins_socketId := sid; ins_partnerSocketId := Some partnerId;
                             ins_action := "report";
                             ins_ipAddress := Some ip; ins_userAgent := Some ua;
                             ins_details := Some (ReportedPartner partnerId) |};;
          mret tt
      | None => mret tt
      end;;
      send sid (MReportSubmitted "Report submitted successfully");;
      handleNextUserSeq sid ip ua JUndefined
  end.

Definition handleDisconnectSeq (sid ip ua : string) : M unit :=
  room ← read (getRoomByUser sid);
  match room with
  | Some room =>
      let video := bool_decide (isVideoCall room = Some true) in
      (if video then update (clearWebRTCState (id room)) else mret tt);;
      match partnerOf room sid with
      | Some partnerId =>
          partnerWs ← findWebSocketBySocketId partnerId;
          (if unreachable partnerWs then mret tt
           else
             time ← clock;
             let partnerUser := mkSocketUser partnerId time "" "" in
             if video then
               send partnerId (MPartnerDisconnected "Your video partner has disconnected");;
               update (addUserToVideoQueue partnerUser);;
               send partnerId (MVideoWaiting "Looking for someone to video chat with...");;
               setTimeout (CbTryMatchVideo []) 500
             else
               send partnerId (MPartnerDisconnected "Your partner has disconnected");;
               update (addUserToQueue partnerUser);;
               send partnerId (MWaiting "Looking for someone to chat with...");;
               setTimeout (CbTryMatchText []) 500);;
          createAuditLogM {| ins_socketId := sid; ins_partnerSocketId := Some partnerId;
                             ins_action := "disconnect";
                             ins_ipAddress := Some ip; ins_userAgent := Some ua;
                             ins_details := Some (Text "User disconnected from chat") |};;
          mret tt
      | None => mret tt
      end
  | None => mret tt
  end;;
  update (removeUserFromRoom sid).

Definition onMessageSeq (c : Connection) (data : option jsval) : M unit :=
  let sid := conn_socketId c in
  let ip := conn_ipAddress c in
  let ua := conn_userAgent c in
  try_catch
    (match data with
     | None => throw
     | Some message =>
         match get_prop message "type" with
         | None => throw
         | Some ty =>
             if strict_eq_lit ty "join_queue" then handleJoinQueueSeq sid ip ua
             else if strict_eq_lit ty "send_message" then
               handleSendMessageSeq sid (default JUndefined (get_prop message "content"))
             else if strict_eq_lit ty "next_user" then
               handleNextUserSeq sid ip ua (default JUndefined (get_prop message "videoMode"))
             else if strict_eq_lit ty "report_user" then handleReportUserSeq sid ip ua
             else if strict_eq_lit ty "start_video" then handleStartVideoSeq sid ip ua
             else if strict_eq_lit ty "webrtc_signal" then
               handleWebRTCSignalSeq sid (default JUndefined (get_prop message "signal"))
             else if toStringThrows ty then throw
             else mret tt
         end
     end)
    (send (conn_socketId c) (MError "Failed to process message")).

Definition onCloseSeq (c : Connection) : M unit :=
  handleDisconnectSeq (conn_socketId c) (conn_ipAddress c) (conn_userAgent c).

Definition onTimeoutSeq (cb : Callback) : M unit :=
  match cb with
  | CbTryMatchText avoidPairing => tryMatchTextUsersWithPreferenceSeq avoidPairing
  | CbTryMatchVideo avoidPairing => tryMatchVideoUsersWithPreferenceSeq avoidPairing
  | CbVideoReady _ => mret tt
  end.

Definition handleSeq (ev : Event) : M unit :=
  match ev with
  | EvMessage c data => onMessageSeq c data
  | EvClose c => onCloseSeq c
  | EvTimeout cb => onTimeoutSeq cb
  end.

(** * The vocabulary of the properties *)

(** The identifiers waiting in a queue. *)
Definition ids (q : list SocketUser) : list string := socketId <$> q.

(** Both sockets are found by [findWebSocketBySocketId]: the guard
    [if (ws1 && ws2)]. *)
Definition bothOpen (e : Env) (user1 user2 : SocketUser) : bool :=
  bool_decide (is_Some (findOpen (socketId user1) (clients e)))
  && bool_decide (is_Some (findOpen (socketId user2) (clients e))).

Definition pairedText : string := "You have been connected to a stranger!".
Definition pairedVideo : string := "Connected for video chat! Preparing video...".

Ltac run_monad :=
  unfold mbind, M_bind, mret, M_ret, read, update, send, setTimeout, emit, clock,
    randomUUID, findWebSocketBySocketId, throw; simpl.

(** ** Traces of the event loop *)

(** The world that a trace of turns leaves. *)
Definition reached (trace : list (Env * Turn)) : World := world (run initServer trace).

(** The events of [events], each one handled with nothing in between:
    its handler is started and then resumed until it has returned.
    Twelve resumptions are more than any handler needs; a resumption
    that finds nothing suspended does nothing. *)
Definition alone (events : list (Env * Event)) : list (Env * Turn) :=
  flat_map (fun x => (fst x, Start (snd x)) :: replicate 12 (fst x, Resume 0)) events.

(** A suspended close handler. *)
Definition closing (t : Task) : bool :=
  match origin t with
  | EvClose _ => true
  | _ => false
  end.

Fixpoint firstClosing (l : list Task) : option nat :=
  match l with
  | [] => None
  | t :: rest => if closing t then Some 0 else S <$> firstClosing rest
  end.

(** While a close handler is suspended, the only turn that [allowed]
    admits is its resumption. *)
Definition allowed (s : Server) (t : Turn) : bool :=
  match firstClosing (tasks s) with
  | Some i =>
      match t with
      | Resume j => bool_decide (j = i)
      | Start _ => false
      end
  | None => true
  end.

(** No turn of the trace is taken between the start and the end of a
    close handler, except by that handler.  The other handlers may be
    interleaved in any way. *)
Fixpoint closeUninterrupted (s : Server) (trace : list (Env * Turn)) : bool :=
  match trace with
  | [] => true
  | x :: rest => allowed s (snd x) && closeUninterrupted (step s x) rest
  end.

(** No close handler is suspended. *)
Definition quiet (s : Server) : bool := forallb (fun t => negb (closing t)) (tasks s).

(** A trace in which close handlers run uninterrupted and at whose end
    none is suspended. *)
Definition settled (trace : list (Env * Turn)) : bool :=
  closeUninterrupted initServer trace && quiet (run initServer trace).

(** ** Running a handler alone, and properties kept at every await *)

(** The synchronous code [m] is what the handler [c] does when it runs
    alone. *)
Definition reads {A} (c : Co A) (m : M A) : Prop := ∀ e w, atomically c e w = m e w.

(** [P] holds whenever the function stops (at an [await], when it
    returns, when it raises), provided [P] holds whenever it is
    resumed. *)
Inductive preserves {A} (P : World -> Prop) : Res A -> Prop :=
| preserves_finished a w : P w → preserves P (Finished a w)
| preserves_raised w : P w → preserves P (Raised w)
| preserves_suspended w k :
    P w → (∀ e w', P w' → preserves P (k e w')) → preserves P (Suspended w k).

Definition keepsCo {A} (P : World -> Prop) (c : Co A) : Prop :=
  ∀ e w, P w → preserves P (c e w).

(** If [H] held when the function was started, [P] holds when it
    stops; and whenever it is resumed in a world in which [P] holds,
    [P] holds when it stops again.  Unlike [preserves], this says
    something of a function that was started in a world in which [P]
    did not hold yet. *)
Inductive carries {A} (P : World -> Prop) : Prop -> Res A -> Prop :=
| carries_finished (H : Prop) a w : (H → P w) → carries P H (Finished a w)
| carries_raised (H : Prop) w : (H → P w) → carries P H (Raised w)
| carries_suspended (H : Prop) w k :
    (H → P w) → (∀ e w', carries P (P w') (k e w')) → carries P H (Suspended w k).

Definition carriesCo {A} (P : World -> Prop) (c : Co A) : Prop :=
  ∀ e w, carries P (P w) (c e w).

(** Every suspended handler of the list carries [P]. *)
Definition tasksCarry (P : World -> Prop) (l : list Task) : Prop :=
  Forall (fun t => ∀ e w, carries P (P w) (continuation t e w)) l.

(** [P] holds when the function has returned or raised; if it is
    suspended, [P] holds again whenever it stops after being resumed in
    the world in which it was suspended. *)
Definition windowed (P : World -> Prop) (r : Res unit) : Prop :=
  match r with
  | Finished _ w => P w
  | Raised w => P w
  | Suspended w k => ∀ e, preserves P (k e w)
  end.

(** The function never raises, however it is resumed. *)
Inductive neverRaises {A} : Res A -> Prop :=
| neverRaises_finished a w : neverRaises (Finished a w)
| neverRaises_suspended w k :
    (∀ e w', neverRaises (k e w')) → neverRaises (Suspended w k).

Definition neverRaisesCo {A} (c : Co A) : Prop := ∀ e w, neverRaises (c e w).

(** The synchronous code [m] always returns. *)
Definition total {A} (m : M A) : Prop := ∀ e w, ∃ a w', m e w = (Ok a, w').

(** [user1] and [user2] are mapped to one room, stored under its
    identifier, whose participants they are, in this order. *)
Definition pairs (st : MemStorage) (user1 user2 : SocketUser) : Prop :=
  ∃ roomId room,
    userRoomMap st !! socketId user1 = Some roomId
    ∧ userRoomMap st !! socketId user2 = Some roomId
    ∧ chatRooms st !! roomId = Some room
    ∧ users room = (socketId user1, socketId user2).

(** The two matchmakers, by queue kind. *)
Definition attemptMatch (video : bool) (avoidPairing : list string) : Co unit :=
  if video then tryMatchVideoUsersWithPreference avoidPairing
  else tryMatchTextUsersWithPreference avoidPairing.

Definition attemptMatchSeq (video : bool) (avoidPairing : list string) : M unit :=
  if video then tryMatchVideoUsersWithPreferenceSeq avoidPairing
  else tryMatchTextUsersWithPreferenceSeq avoidPairing.

Definition queueOf (video : bool) (st : MemStorage) : list SocketUser :=
  if video then getWaitingVideoUsers st else getWaitingUsers st.

(** [a] is at least as recent as [b]. *)
Definition notOlder (a b : AuditLog) : Prop := (timestamp b <= timestamp a)%Z.

(** [result] holds the [n] newest of [logs] (all of them when there are
    fewer), newest first: together with the records left out it is a
    rearrangement of [logs], it is sorted by timestamp, descending, and
    no record left out is newer than a returned one. *)
Definition newestFirstUpTo (n : nat) (logs result : list AuditLog) : Prop :=
  length result = min n (length logs)
  ∧ StronglySorted notOlder result
  ∧ ∃ older, result ++ older ≡ₚ logs
             ∧ ∀ a b, a ∈ result → b ∈ older → notOlder a b.

(** [n] is the number of identifiers drawn so far. *)
Record Inv (st : MemStorage) (n : nat) : Prop := mkInv {
  inv_text_nodup : NoDup (ids (waitingQueue st));
  inv_video_nodup : NoDup (ids (videoWaitingQueue st));
  inv_disjoint : ∀ x, x ∈ ids (waitingQueue st) → x ∉ ids (videoWaitingQueue st);
  inv_queued : ∀ x,
    x ∈ ids (waitingQueue st) ∨ x ∈ ids (videoWaitingQueue st) →
    userRoomMap st !! x = None;
  inv_mapped : ∀ x r,
    userRoomMap st !! x = Some r →
    ∃ room, chatRooms st !! r = Some room
            ∧ (x = fst (users room) ∨ x = snd (users room));
  inv_rooms : ∀ r room,
    chatRooms st !! r = Some room →
    userRoomMap st !! fst (users room) = Some r
    ∧ userRoomMap st !! snd (users room) = Some r;
  inv_rooms_fresh : ∀ r, is_Some (chatRooms st !! r) → r < n;
  inv_logs_fresh : ∀ k, k ∈ (auditLogs st).*1 → k < n
}.

Definition InvW (w : World) : Prop := Inv (storage w) (uuids w).

(** The state of the event loop along a trace whose close handlers run
    uninterrupted: the suspended handlers of messages and timers keep
    the invariant at every await; either it holds, or the last
    suspended handler is a close handler that restores it when it is
    resumed in the present world. *)
Definition calm (l : list Task) : Prop :=
  Forall (fun t => closing t = false
                   ∧ ∀ e w, InvW w → preserves InvW (continuation t e w)) l.

Inductive Orderly : Server -> Prop :=
| Orderly_quiet w l : InvW w → calm l → Orderly (mkServer w l)
| Orderly_closing w l t :
    calm l → closing t = true → (∀ e, preserves InvW (continuation t e w)) →
    Orderly (mkServer w (l ++ [t])).

(** [x] is in a room: it is mapped to a room, or it is one of the two
    participants of a stored room. *)
Definition inRoom (st : MemStorage) (x : string) : Prop :=
  is_Some (userRoomMap st !! x)
  ∨ ∃ r room, chatRooms st !! r = Some room
              ∧ (x = fst (users room) ∨ x = snd (users room)).

Definition inTextQueue (st : MemStorage) (x : string) : Prop := x ∈ ids (waitingQueue st).
Definition inVideoQueue (st : MemStorage) (x : string) : Prop :=
  x ∈ ids (videoWaitingQueue st).

(** The payload [{type: 'send_message', content: text}]. *)
Definition sendMessagePayload (text : JsString) : jsval :=
  JObj [(lit "type", JStr (lit "send_message")); (lit "content", JStr text)].

(** The payload [{type: 'join_queue'}]. *)
Definition joinQueuePayload : jsval := JObj [(lit "type", JStr (lit "join_queue"))].

(** "A" and "B" join the text queue, one after the other. *)
Definition joinAB : list (Env * Event) :=
  [(mkEnv [mkWs (Some "A") OPEN] 1,
    EvMessage (mkConnection "A" "10.0.0.1" "ua") (Some joinQueuePayload));
   (mkEnv [mkWs (Some "A") OPEN; mkWs (Some "B") OPEN] 2,
    EvMessage (mkConnection "B" "10.0.0.2" "ua") (Some joinQueuePayload))].

(** After [joinAB], each handled alone, "A" and "B" are paired. *)
Definition pairedAB : World := reached (alone joinAB).

(** Then "A" sends a message while the socket of "B" is closing. *)
Definition sentToLostPartner : World :=
  reached
    (alone (joinAB
            ++ [(mkEnv [mkWs (Some "A") OPEN; mkWs (Some "B") CLOSING] 3,
                 EvMessage (mkConnection "A" "10.0.0.1" "ua")
                   (Some (sendMessagePayload (lit "hi"))))])).

(** The six [case] labels of the dispatcher. *)
Definition knownType (ty : jsval) : bool :=
  strict_eq_lit ty "join_queue" || strict_eq_lit ty "send_message"
  || strict_eq_lit ty "next_user" || strict_eq_lit ty "report_user"
  || strict_eq_lit ty "start_video" || strict_eq_lit ty "webrtc_signal".

Definition genericError : ServerMessage := MError "Failed to process message".

(** The handler answers the sender with an error event and leaves the
    store as it was. *)
Definition answersErrorOnly (c : Connection) (w w' : World) : Prop :=
  (∃ message, Send (conn_socketId c) (MError message) ∈ effects w')
  ∧ storage w' = storage w.




(** Two identifiers share a room. *)
Definition roomMates (st : MemStorage) (x y : string) : Prop :=
  ∃ room, getRoomByUser x st = Some room ∧ getRoomByUser y st = Some room.

(** What C3 asks of the store after the match: [c] shares a room with
    [a] or with [b], and [a] and [b] do not share one. *)
Definition avoidanceHolds (st : MemStorage) (a b c : string) : Prop :=
  (roomMates st c a ∨ roomMates st c b) ∧ ¬ roomMates st a b.

(** The payload [{type: 'next_user'}]. *)
Definition nextUserPayload : jsval := JObj [(lit "type", JStr (lit "next_user"))].

(** A trace after which "A", "B" and "C" wait on the text queue while
    the re-match scheduled by the next action of "A" is pending: "C"
    was paired with "D", who disconnected after "A" and "B" split. *)
Definition splitThenThird : list (Env * Event) :=
  let conn := fun sid => mkConnection sid "10.0.0.1" "ua" in
  let open := fun sid => mkWs (Some sid) OPEN in
  let join := fun sid => EvMessage (conn sid) (Some joinQueuePayload) in
  let everyone := [open "A"; open "B"; open "C"; open "D"] in
  [(mkEnv everyone 1, join "A");
   (mkEnv everyone 2, join "B");
   (mkEnv everyone 3, join "C");
   (mkEnv everyone 4, join "D");
   (mkEnv everyone 5, EvMessage (conn "A") (Some nextUserPayload));
   (mkEnv [open "A"; open "B"; open "C"] 6, EvClose (conn "D"))].

(** ** Vocabulary of the further properties *)

(** The handler [m] keeps the property [P] of worlds, whether it
    returns or raises. *)
Definition keeps {A} (P : World -> Prop) (m : M A) : Prop :=
  ∀ e w, P w → P (snd (m e w)).

(** Every stored room is stored under its own identifier and has two
    different participants. *)
Definition roomsWellFormed (st : MemStorage) : Prop :=
  ∀ r room, chatRooms st !! r = Some room →
            id room = r ∧ fst (users room) ≠ snd (users room).

(** No queue holds an identifier twice, and the rooms are well
    formed. *)
Definition shapeOk (w : World) : Prop :=
  NoDup (ids (waitingQueue (storage w)))
  ∧ NoDup (ids (videoWaitingQueue (storage w)))
  ∧ roomsWellFormed (storage w)
  ∧ ∀ r, is_Some (chatRooms (storage w) !! r) → r < uuids w.

(** The audit log extends [logs], and its identifiers have all been
    drawn. *)
Definition logsExtend (logs : list (nat * AuditLog)) (w : World) : Prop :=
  logs `prefix_of` auditLogs (storage w)
  ∧ ∀ k, k ∈ (auditLogs (storage w)).*1 → k < uuids w.

Definition noSignalingState (w : World) : Prop := webrtcState (storage w) = ∅.

(** The world [w] after one more effect. *)
Definition sent (w : World) (x : Effect) : World :=
  mkWorld (storage w) (uuids w) (effects w ++ [x]).

(** The payload [{type: 'send_message', content: content}] for any
    [content]. *)
Definition sendMessageWith (content : jsval) : jsval :=
  JObj [(lit "type", JStr (lit "send_message")); (lit "content", content)].

(** The payload [{type: 'webrtc_signal', signal: signal}]. *)
Definition signalPayload (signal : jsval) : jsval :=
  JObj [(lit "type", JStr (lit "webrtc_signal")); (lit "signal", signal)].

(** The audit record of a relayed signal. *)
Definition signalLog (sid partnerId : string) (ty : jsval) : InsertAuditLog :=
  {| ins_socketId := sid; ins_partnerSocketId := Some partnerId;
     ins_action := "webrtc_signal"; ins_ipAddress := None; ins_userAgent := None;
     ins_details := Some (SignalType ty) |}.

(** The payload [{type: 'start_video'}]. *)
Definition startVideoPayload : jsval := JObj [(lit "type", JStr (lit "start_video"))].

(** "A" and "B" ask for a video chat, one after the other, and are
    paired in a video room. *)
Definition startVideoAB : list (Env * Event) :=
  [(mkEnv [mkWs (Some "A") OPEN] 1,
    EvMessage (mkConnection "A" "10.0.0.1" "ua") (Some startVideoPayload));
   (mkEnv [mkWs (Some "A") OPEN; mkWs (Some "B") OPEN] 2,
    EvMessage (mkConnection "B" "10.0.0.2" "ua") (Some startVideoPayload))].

Definition pairedVideoAB : World := reached (alone startVideoAB).

(** The notice that [handleNextUser] sends to a socket it queued
    again. *)
Definition requeuedNotice (video : bool) : ServerMessage :=
  if video then MVideoWaiting "Looking for someone new to video chat with..."
  else MWaiting "Looking for someone new to chat with...".

(** The re-match that [handleNextUser] schedules. *)
Definition rematch (video : bool) (avoidPairing : list string) : Callback :=
  if video then CbTryMatchVideo avoidPairing else CbTryMatchText avoidPairing.

(** The mode [handleNextUser] works in: the [videoMode] of the request
    when it has one, the flag of the room otherwise. *)
Definition nextMode (videoMode : jsval) (room : ChatRoom) : bool :=
  match videoMode with
  | JUndefined => default false (isVideoCall room)
  | _ => truthy videoMode
  end.

(** The two notices and the timer of [handleDisconnect] for a partner
    whose socket is open. *)
Definition partnerLeftEffects (video : bool) (partnerId : string) : list Effect :=
  if video then
    [Send partnerId (MPartnerDisconnected "Your video partner has disconnected");
     Send partnerId (MVideoWaiting "Looking for someone to video chat with...");
     SetTimeout (CbTryMatchVideo []) 500]
  else
    [Send partnerId (MPartnerDisconnected "Your partner has disconnected");
     Send partnerId (MWaiting "Looking for someone to chat with...");
     SetTimeout (CbTryMatchText []) 500].

(** What [handleNextUser] emits when it splits a room: the notice to
    the requester, the notice to the partner when its socket is open,
    and the timer of the re-match that avoids the two. *)
Definition requeuedEffects (video : bool) (sid partnerId : string) (partnerOpen : bool)
    : list Effect :=
  [Send sid (requeuedNotice video)]
  ++ (if partnerOpen then [Send partnerId (requeuedNotice video)] else [])
  ++ [SetTimeout (rematch video [sid; partnerId]) 1000].

(** Both participants of a split room wait at the tail of the queue
    [video], the requester before the partner; the other queue is as it
    was and neither has a room. *)
Definition requeuedTogether (video : bool) (st st' : MemStorage)
    (current partner : SocketUser) : Prop :=
  queueOf video st' = queueOf video st ++ [current; partner]
  ∧ queueOf (negb video) st' = queueOf (negb video) st
  ∧ getRoomByUser (socketId current) st' = None
  ∧ getRoomByUser (socketId partner) st' = None.

(** The handler of a request to wait: [handleStartVideo] for the video
    queue, [handleJoinQueue] for the text queue. *)
Definition joinHandler (video : bool) (sid ip ua : string) : Co unit :=
  if video then handleStartVideo sid ip ua else handleJoinQueue sid ip ua.

Definition joinHandlerSeq (video : bool) (sid ip ua : string) : M unit :=
  if video then handleStartVideoSeq sid ip ua else handleJoinQueueSeq sid ip ua.

(** The notice that [handleJoinQueue], [handleStartVideo] and
    [handleDisconnect] send to a socket that waits. *)
Definition waitingNotice (video : bool) : ServerMessage :=
  if video then MVideoWaiting "Looking for someone to video chat with..."
  else MWaiting "Looking for someone to chat with...".

(** What a matchmaker emits for the room [roomId] of [user1] and
    [user2]: nothing unless both sockets are found open; for a video
    room the first participant is the initiator and a timer follows. *)
Definition pairingEffects (video : bool) (e : Env) (roomId : nat)
    (user1 user2 : SocketUser) : list Effect :=
  if bothOpen e user1 user2 then
    if video then
      [Send (socketId user1) (MVideoPaired roomId true pairedVideo);
       Send (socketId user2) (MVideoPaired roomId false pairedVideo);
       SetTimeout (CbVideoReady roomId) 100]
    else
      [Send (socketId user1) (MPaired roomId pairedText);
       Send (socketId user2) (MPaired roomId pairedText)]
  else [].

(** [getRoomByUser] finds for [user1] and for [user2] the room
    [roomId], whose participants they are in this order; the room is
    flagged as a video call exactly when [video]. *)
Definition pairedIn (video : bool) (st : MemStorage) (roomId : nat)
    (user1 user2 : string) : Prop :=
  ∃ room,
    getRoomByUser user1 st = Some room
    ∧ getRoomByUser user2 st = Some room
    ∧ id room = roomId
    ∧ users room = (user1, user2)
    ∧ isVideoCall room = (if video then Some true else None).



(** * Properties *)

(** ** Queues *)

Section queues.
Implicit Types (q : list SocketUser) (sid x : string) (user : SocketUser).

Lemma ids_filter_out q sid :
  sid ∉ ids (filter (fun user => socketId user ≠ sid) q).
Proof.
  unfold ids. intros [u [-> Hu]]%list_elem_of_fmap.
  apply list_elem_of_filter in Hu as [Hne _]. by apply Hne.
Qed.

Lemma ids_filter q sid x :
  x ∈ ids (filter (fun user => socketId user ≠ sid) q) ↔ x ≠ sid ∧ x ∈ ids q.
Proof.
  unfold ids. rewrite !list_elem_of_fmap. split.
  - intros [u [-> [Hne Hu]%list_elem_of_filter]]. eauto.
  - intros [Hne [u [-> Hu]]]. exists u. split; [done|].
    by apply list_elem_of_filter.
Qed.

Lemma ids_snoc q user x : x ∈ ids (q ++ [user]) ↔ x ∈ ids q ∨ x = socketId user.
Proof.
  unfold ids. rewrite fmap_app, elem_of_app. simpl.
  rewrite list_elem_of_singleton. tauto.
Qed.

Lemma filter_out_absent q sid :
  sid ∉ ids q → filter (fun user => socketId user ≠ sid) q = q.
Proof.
  induction q as [|u q IH]; [done|]. unfold ids. simpl.
  rewrite not_elem_of_cons. intros [Hne Hq].
  rewrite filter_cons_True by congruence. f_equal. by apply IH.
Qed.

Lemma filter_out_twice q sid :
  filter (fun user => socketId user ≠ sid) (filter (fun user => socketId user ≠ sid) q)
  = filter (fun user => socketId user ≠ sid) q.
Proof. apply filter_out_absent, ids_filter_out. Qed.

Lemma filter_out_comm q sid x :
  filter (fun user => socketId user ≠ sid) (filter (fun user => socketId user ≠ x) q)
  = filter (fun user => socketId user ≠ x) (filter (fun user => socketId user ≠ sid) q).
Proof.
  induction q as [|u q IH]; [done|].
  destruct (decide (socketId u = x)) as [Hx|Hx];
    destruct (decide (socketId u = sid)) as [Hs|Hs];
    repeat first [ rewrite (filter_cons_True _ _ _) by congruence
                 | rewrite (filter_cons_False _ _ _) by (intros ?; congruence) ];
    rewrite ?IH; done.
Qed.

Lemma NoDup_ids_filter q sid :
  NoDup (ids q) → NoDup (ids (filter (fun user => socketId user ≠ sid) q)).
Proof.
  unfold ids. induction q as [|u q IH]; [done|]. simpl.
  rewrite NoDup_cons. intros [Hu Hq].
  destruct (decide (socketId u = sid)) as [Hs|Hs].
  - rewrite filter_cons_False by (intros ?; congruence). by apply IH.
  - rewrite filter_cons_True by done. simpl. apply NoDup_cons. split; [|by apply IH].
    intros Hin. apply Hu. fold (ids (filter (fun user => socketId user ≠ sid) q)) in Hin.
    by apply ids_filter in Hin as [_ ?].
Qed.

Lemma inQueue_spec sid q : inQueue sid q = true ↔ sid ∈ ids q.
Proof.
  unfold inQueue, ids. rewrite existsb_exists, list_elem_of_fmap. split.
  - intros [u [Hu ?%bool_decide_eq_true]]. exists u.
    split; [done|]. by apply list_elem_of_In.
  - intros [u [-> Hu]]. exists u. split; [by apply list_elem_of_In|].
    by apply bool_decide_eq_true.
Qed.
End queues.

(** ** Room creation *)

(** The store that [createRoom] leaves. *)
Lemma createRoom_post (roomId : nat) (time : Z) (user1 user2 : SocketUser)
    (st : MemStorage) :
  let room := fst (createRoom roomId time user1 user2 st) in
  let st' := snd (createRoom roomId time user1 user2 st) in
  id room = roomId
  ∧ users room = (socketId user1, socketId user2)
  ∧ (socketId user1 ∉ ids (waitingQueue st'))
  ∧ (socketId user2 ∉ ids (waitingQueue st'))
  ∧ (socketId user1 ∉ ids (videoWaitingQueue st'))
  ∧ (socketId user2 ∉ ids (videoWaitingQueue st'))
  ∧ userRoomMap st' !! socketId user1 = Some roomId
  ∧ userRoomMap st' !! socketId user2 = Some roomId
  ∧ chatRooms st' !! roomId = Some room.
Proof.
  simpl.
  assert (Hm1 : <[socketId user2:=roomId]>
                  (<[socketId user1:=roomId]> (userRoomMap st))
                !! socketId user1 = Some roomId).
  { destruct (decide (socketId user2 = socketId user1)) as [->|Hne].
    - apply lookup_insert_eq.
    - rewrite lookup_insert_ne by done. apply lookup_insert_eq. }
  repeat split; try done.
  - rewrite ids_filter. intros [_ H]. by apply ids_filter_out in H.
  - apply ids_filter_out.
  - rewrite ids_filter. intros [_ H]. by apply ids_filter_out in H.
  - apply ids_filter_out.
  - apply lookup_insert_eq.
  - apply lookup_insert_eq.
Qed.

(** C2. One call of [createRoom] returns the new room, sends nothing and
    schedules nothing, and leaves a store in which both participants are
    absent from the text queue and from the video queue and both are
    mapped to the identifier of the new room, under which the room is
    stored. *)
Theorem createRoom_atomic (e : Env) (w : World) (user1 user2 : SocketUser) :
  ∃ room w',
    createRoomM user1 user2 e w = (Ok room, w')
    ∧ effects w' = effects w
    ∧ id room = uuids w
    ∧ users room = (socketId user1, socketId user2)
    ∧ (socketId user1 ∉ ids (waitingQueue (storage w')))
    ∧ (socketId user2 ∉ ids (waitingQueue (storage w')))
    ∧ (socketId user1 ∉ ids (videoWaitingQueue (storage w')))
    ∧ (socketId user2 ∉ ids (videoWaitingQueue (storage w')))
    ∧ userRoomMap (storage w') !! socketId user1 = Some (id room)
    ∧ userRoomMap (storage w') !! socketId user2 = Some (id room)
    ∧ chatRooms (storage w') !! id room = Some room
    ∧ getRoomByUser (socketId user1) (storage w') = Some room
    ∧ getRoomByUser (socketId user2) (storage w') = Some room.
Proof.
  pose proof (createRoom_post (uuids w) (now e) user1 user2 (storage w)) as H.
  cbv zeta in H. destruct H as (Hid & Hu & Hq1 & Hq2 & Hv1 & Hv2 & Hm1 & Hm2 & Hr).
  exists (fst (createRoom (uuids w) (now e) user1 user2 (storage w))),
    (mkWorld (snd (createRoom (uuids w) (now e) user1 user2 (storage w)))
       (S (uuids w)) (effects w)).
  split; [reflexivity|]. cbn [storage effects].
  unfold getRoomByUser. rewrite Hm1, Hm2, Hid. repeat split; done.
Qed.

(** ** Leaving a room *)

Lemma removeUserFromRoom_queues (sid : string) (st : MemStorage) :
  waitingQueue (removeUserFromRoom sid st)
  = filter (fun user => socketId user ≠ sid) (waitingQueue st)
  ∧ videoWaitingQueue (removeUserFromRoom sid st)
    = filter (fun user => socketId user ≠ sid) (videoWaitingQueue st)
  ∧ auditLogs (removeUserFromRoom sid st) = auditLogs st.
Proof.
  unfold removeUserFromRoom, removeRoom.
  destruct (userRoomMap st !! sid) as [r|]; [|done].
  destruct (chatRooms st !! r) as [room|]; done.
Qed.

(** What [removeUserFromRoom] does when [getRoomByUser] finds no room. *)
Lemma removeUserFromRoom_no_room (sid : string) (st : MemStorage) :
  getRoomByUser sid st = None →
  removeUserFromRoom sid st
  = removeUserFromVideoQueue sid (removeUserFromQueue sid st).
Proof.
  unfold getRoomByUser, removeUserFromRoom.
  destruct (userRoomMap st !! sid) as [r|]; [|done].
  by intros ->.
Qed.

Lemma getRoomByUser_removeUserFromRoom (sid : string) (st : MemStorage) :
  getRoomByUser sid (removeUserFromRoom sid st) = None.
Proof.
  unfold getRoomByUser, removeUserFromRoom, removeRoom.
  destruct (userRoomMap st !! sid) as [r|] eqn:Hm; simpl; [|by rewrite Hm].
  destruct (chatRooms st !! r) as [room|] eqn:Hr; simpl; [|by rewrite Hm, Hr].
  destruct (delete (snd (users room)) (delete (fst (users room)) (userRoomMap st)) !! sid)
    as [r'|] eqn:Hm'; [|done].
  apply lookup_delete_Some in Hm' as [_ [_ Hm']%lookup_delete_Some].
  rewrite Hm in Hm'. injection Hm' as <-. apply lookup_delete_eq.
Qed.

Lemma remove_queues_fixed (sid : string) (st : MemStorage) :
  sid ∉ ids (waitingQueue st) → sid ∉ ids (videoWaitingQueue st) →
  removeUserFromVideoQueue sid (removeUserFromQueue sid st) = st.
Proof.
  destruct st as [logs q v rooms m rtc]. simpl. intros Hq Hv.
  unfold removeUserFromVideoQueue, removeUserFromQueue, set_waitingQueue,
    set_videoWaitingQueue. simpl.
  by rewrite !filter_out_absent.
Qed.

(** C10. [removeUserFromRoom] is idempotent on every store, whatever its
    shape; and for an identifier for which [getRoomByUser] finds no room
    it filters the identifier out of both queues and leaves the audit
    log, the rooms, the user-to-room mapping and the WebRTC state as
    they were. *)
Theorem removeUserFromRoom_idempotent (sid : string) (st : MemStorage) :
  removeUserFromRoom sid (removeUserFromRoom sid st) = removeUserFromRoom sid st
  ∧ (getRoomByUser sid st = None →
     removeUserFromRoom sid st
     = mkMemStorage (auditLogs st)
         (filter (fun user => socketId user ≠ sid) (waitingQueue st))
         (filter (fun user => socketId user ≠ sid) (videoWaitingQueue st))
         (chatRooms st) (userRoomMap st) (webrtcState st)).
Proof.
  split.
  - rewrite (removeUserFromRoom_no_room sid (removeUserFromRoom sid st))
      by apply getRoomByUser_removeUserFromRoom.
    destruct (removeUserFromRoom_queues sid st) as (Hq & Hv & _).
    apply remove_queues_fixed; rewrite ?Hq, ?Hv; apply ids_filter_out.
  - intros Hnone. by rewrite removeUserFromRoom_no_room.
Qed.

(** A store in which "zed" waits in both queues and is in no room:
    leaving takes "zed" off both queues. *)
Lemma removeUserFromRoom_idempotent_witness :
  let zed := mkSocketUser "zed" 0 "" "" in
  let st := mkMemStorage [] [zed] [zed] ∅ ∅ ∅ in
  getRoomByUser "zed" st = None
  ∧ removeUserFromRoom "zed" st = mkMemStorage [] [] [] ∅ ∅ ∅.
Proof.
  split; [reflexivity|].
  exact (proj2 (removeUserFromRoom_idempotent "zed"
                  (mkMemStorage [] [mkSocketUser "zed" 0 "" ""]
                     [mkSocketUser "zed" 0 "" ""] ∅ ∅ ∅)) eq_refl).
Defined.

(** ** The matchmaker's choice *)

Section selection.
Implicit Types (waitingUsers : list SocketUser) (avoidPairing : list string).

Lemma selectPair_few waitingUsers avoidPairing :
  length waitingUsers < 2 → selectPair waitingUsers avoidPairing = None.
Proof. destruct waitingUsers as [|w0 [|w1 rest]]; simpl; [done|done|lia]. Qed.

Lemma selectPair_standard w0 w1 rest avoidPairing :
  length avoidPairing ≠ 2 ∨ rest = [] →
  selectPair (w0 :: w1 :: rest) avoidPairing = Some (w0, Some w1).
Proof.
  intros H. unfold selectPair.
  destruct (bool_decide (2 < length (w0 :: w1 :: rest))) eqn:Hl;
    destruct (bool_decide (length avoidPairing = 2)) eqn:Ha; simpl; try done.
  apply bool_decide_eq_true in Hl, Ha. destruct H as [H| ->]; [done|].
  simpl in Hl. lia.
Qed.

Lemma selectPair_avoiding w0 w1 w2 rest avoidPairing :
  length avoidPairing = 2 →
  let waitingUsers := w0 :: w1 :: w2 :: rest in
  selectPair waitingUsers avoidPairing =
    match filter (fun user => socketId user ∉ avoidPairing) waitingUsers with
    | a0 :: a1 :: _ => Some (a0, Some a1)
    | [a0] =>
        Some (a0, find (fun user => bool_decide (socketId user ∈ avoidPairing)) waitingUsers)
    | [] => Some (w0, Some w1)
    end.
Proof.
  intros Ha. unfold selectPair.
  rewrite (bool_decide_eq_true_2 (2 < _)) by (simpl; lia).
  by rewrite (bool_decide_eq_true_2 (length avoidPairing = 2)) by done.
Qed.

(** When a single user is outside the avoid list and more than two
    wait, the [find] under the non-null assertion succeeds. *)
Lemma find_avoided waitingUsers avoidPairing a0 :
  2 < length waitingUsers →
  filter (fun user => socketId user ∉ avoidPairing) waitingUsers = [a0] →
  ∃ u2, find (fun user => bool_decide (socketId user ∈ avoidPairing)) waitingUsers = Some u2
        ∧ socketId u2 ∈ avoidPairing ∧ u2 ∈ waitingUsers.
Proof.
  intros Hlen Hf.
  destruct (find (fun user => bool_decide (socketId user ∈ avoidPairing)) waitingUsers)
    as [u2|] eqn:Hfind.
  - apply find_some in Hfind as [Hin Hav]. exists u2.
    split; [done|]. split; [by apply bool_decide_eq_true in Hav|by apply list_elem_of_In].
  - exfalso.
    assert (Hall : filter (fun user => socketId user ∉ avoidPairing) waitingUsers
                   = waitingUsers).
    { clear Hf Hlen. induction waitingUsers as [|u l IH]; [done|].
      simpl in Hfind.
      destruct (bool_decide (socketId u ∈ avoidPairing)) eqn:Hu; [done|].
      apply bool_decide_eq_false in Hu.
      rewrite filter_cons_True by done. f_equal. by apply IH. }
    rewrite Hall in Hf. rewrite Hf in Hlen. simpl in Hlen. lia.
Qed.

(** [user2] is never [undefined]. *)
Lemma selectPair_defined waitingUsers avoidPairing user1 :
  selectPair waitingUsers avoidPairing ≠ Some (user1, None).
Proof.
  destruct waitingUsers as [|w0 [|w1 [|w2 rest]]]; try done.
  destruct (decide (length avoidPairing = 2)) as [Ha|Ha].
  - rewrite selectPair_avoiding by done.
    destruct (filter _ _) as [|a0 [|a1 l]] eqn:Hf; try done.
    assert (Hlen : 2 < length (w0 :: w1 :: w2 :: rest)) by (simpl; lia).
    destruct (find_avoided _ _ _ Hlen Hf) as (u2 & -> & _). done.
  - rewrite selectPair_standard by auto. done.
Qed.

Lemma selectPair_members waitingUsers avoidPairing user1 user2 :
  selectPair waitingUsers avoidPairing = Some (user1, Some user2) →
  user1 ∈ waitingUsers ∧ user2 ∈ waitingUsers.
Proof.
  destruct waitingUsers as [|w0 [|w1 [|w2 rest]]]; try done.
  - rewrite selectPair_standard by auto. intros [= <- <-]. set_solver.
  - destruct (decide (length avoidPairing = 2)) as [Ha|Ha].
    + rewrite selectPair_avoiding by done.
      destruct (filter _ _) as [|a0 [|a1 l]] eqn:Hf.
      * intros [= <- <-]. set_solver.
      * assert (Hlen : 2 < length (w0 :: w1 :: w2 :: rest)) by (simpl; lia).
        destruct (find_avoided _ _ _ Hlen Hf) as (u2 & -> & _ & Hin).
        intros [= <- <-]. split; [|done].
        assert (a0 ∈ [a0]) as Hin0 by constructor. rewrite <- Hf in Hin0.
        by apply list_elem_of_filter in Hin0 as [_ ?].
      * intros [= <- <-].
        assert (a0 ∈ a0 :: a1 :: l ∧ a1 ∈ a0 :: a1 :: l) as [H0 H1]
          by (split; repeat constructor).
        rewrite <- Hf in H0, H1.
        apply list_elem_of_filter in H0 as [_ ?], H1 as [_ ?]. done.
    + rewrite selectPair_standard by auto. intros [= <- <-]. set_solver.
Qed.
End selection.

(** ** Running the matchmaker *)

Lemma tryMatchText_none e w avoidPairing :
  selectPair (waitingQueue (storage w)) avoidPairing = None →
  tryMatchTextUsersWithPreferenceSeq avoidPairing e w = (Ok tt, w).
Proof.
  intros H. unfold tryMatchTextUsersWithPreferenceSeq. run_monad.
  unfold getWaitingUsers. by rewrite H.
Qed.

Lemma tryMatchVideo_none e w avoidPairing :
  selectPair (videoWaitingQueue (storage w)) avoidPairing = None →
  tryMatchVideoUsersWithPreferenceSeq avoidPairing e w = (Ok tt, w).
Proof.
  intros H. unfold tryMatchVideoUsersWithPreferenceSeq. run_monad.
  unfold getWaitingVideoUsers. by rewrite H.
Qed.

Lemma tryMatchText_eval e w avoidPairing user1 user2 :
  selectPair (waitingQueue (storage w)) avoidPairing = Some (user1, Some user2) →
  tryMatchTextUsersWithPreferenceSeq avoidPairing e w =
  (Ok tt,
   let st := snd (createRoom (uuids w) (now e) user1 user2 (storage w)) in
   if bothOpen e user1 user2 then
     mkWorld
       (snd (createAuditLog (S (S (uuids w))) (now e)
               (pairedLog "paired" PairedWith user2 user1)
               (snd (createAuditLog (S (uuids w)) (now e)
                       (pairedLog "paired" PairedWith user1 user2) st))))
       (S (S (S (uuids w))))
       (effects w ++ [Send (socketId user1) (MPaired (uuids w) pairedText);
                      Send (socketId user2) (MPaired (uuids w) pairedText)])
   else mkWorld st (S (uuids w)) (effects w)).
Proof.
  intros H. unfold tryMatchTextUsersWithPreferenceSeq, bothOpen. run_monad.
  unfold getWaitingUsers. rewrite H. unfold createRoomM, createAuditLogM. run_monad.
  destruct (bool_decide (is_Some (findOpen (socketId user1) (clients e)))); simpl; [|done].
  destruct (bool_decide (is_Some (findOpen (socketId user2) (clients e)))); simpl; [|done].
  by rewrite <- app_assoc.
Qed.

Lemma tryMatchVideo_eval e w avoidPairing user1 user2 :
  selectPair (videoWaitingQueue (storage w)) avoidPairing = Some (user1, Some user2) →
  tryMatchVideoUsersWithPreferenceSeq avoidPairing e w =
  (Ok tt,
   let st := set_chatRooms (alter markVideoCall (uuids w))
               (snd (createRoom (uuids w) (now e) user1 user2 (storage w))) in
   if bothOpen e user1 user2 then
     mkWorld
       (snd (createAuditLog (S (S (uuids w))) (now e)
               (pairedLog "video_paired" VideoPairedWith user2 user1)
               (snd (createAuditLog (S (uuids w)) (now e)
                       (pairedLog "video_paired" VideoPairedWith user1 user2) st))))
       (S (S (S (uuids w))))
       (effects w ++ [Send (socketId user1) (MVideoPaired (uuids w) true pairedVideo);
                      Send (socketId user2) (MVideoPaired (uuids w) false pairedVideo);
                      SetTimeout (CbVideoReady (uuids w)) 100])
   else mkWorld st (S (uuids w)) (effects w)).
Proof.
  intros H. unfold tryMatchVideoUsersWithPreferenceSeq, bothOpen. run_monad.
  unfold getWaitingVideoUsers. rewrite H. unfold createRoomM, createAuditLogM. run_monad.
  destruct (bool_decide (is_Some (findOpen (socketId user1) (clients e)))); simpl; [|done].
  destruct (bool_decide (is_Some (findOpen (socketId user2) (clients e)))); simpl; [|done].
  by rewrite <- !app_assoc.
Qed.

Lemma pairs_getRoomByUser st user1 user2 :
  pairs st user1 user2 →
  ∃ room, getRoomByUser (socketId user1) st = Some room
          ∧ getRoomByUser (socketId user2) st = Some room
          ∧ users room = (socketId user1, socketId user2).
Proof.
  intros (r & room & H1 & H2 & Hr & Hu). exists room.
  unfold getRoomByUser. by rewrite H1, H2.
Qed.

Lemma pairs_createRoom roomId time user1 user2 st :
  pairs (snd (createRoom roomId time user1 user2 st)) user1 user2.
Proof.
  pose proof (createRoom_post roomId time user1 user2 st) as H.
  cbv zeta in H. destruct H as (_ & Hu & _ & _ & _ & _ & H1 & H2 & Hr).
  by eexists _, _.
Qed.

Lemma pairs_createAuditLog uuid time insertLog st user1 user2 :
  pairs st user1 user2 → pairs (snd (createAuditLog uuid time insertLog st)) user1 user2.
Proof. done. Qed.

Lemma pairs_markVideoCall roomId st user1 user2 :
  pairs st user1 user2 →
  pairs (set_chatRooms (alter markVideoCall roomId) st) user1 user2.
Proof.
  intros (r & room & H1 & H2 & Hr & Hu). unfold pairs. simpl.
  destruct (decide (roomId = r)) as [->|Hne].
  - exists r, (markVideoCall room). by rewrite lookup_alter_eq, Hr.
  - exists r, room. by rewrite lookup_alter_ne.
Qed.

Lemma tryMatchText_pairs e w avoidPairing user1 user2 :
  selectPair (waitingQueue (storage w)) avoidPairing = Some (user1, Some user2) →
  pairs (storage (snd (tryMatchTextUsersWithPreferenceSeq avoidPairing e w))) user1 user2.
Proof.
  intros H. rewrite (tryMatchText_eval _ _ _ _ _ H). cbv zeta. cbn [snd].
  destruct (bothOpen e user1 user2); cbn [storage];
    repeat apply pairs_createAuditLog; apply pairs_createRoom.
Qed.

Lemma tryMatchVideo_pairs e w avoidPairing user1 user2 :
  selectPair (videoWaitingQueue (storage w)) avoidPairing = Some (user1, Some user2) →
  pairs (storage (snd (tryMatchVideoUsersWithPreferenceSeq avoidPairing e w))) user1 user2.
Proof.
  intros H. rewrite (tryMatchVideo_eval _ _ _ _ _ H). cbv zeta. cbn [snd].
  destruct (bothOpen e user1 user2); cbn [storage];
    repeat apply pairs_createAuditLog; apply pairs_markVideoCall, pairs_createRoom.
Qed.

Lemma attemptMatch_pairs video e w avoidPairing user1 user2 :
  selectPair (queueOf video (storage w)) avoidPairing = Some (user1, Some user2) →
  pairs (storage (snd (attemptMatchSeq video avoidPairing e w))) user1 user2.
Proof.
  destruct video; [apply tryMatchVideo_pairs|apply tryMatchText_pairs].
Qed.

(** ** The audit query *)

Section audit_query.
Implicit Types (a b : AuditLog) (l : list AuditLog).

Lemma sort_insert_perm a l : sort_insert a l ≡ₚ a :: l.
Proof.
  induction l as [|b l IH]; simpl; [done|].
  destruct (compareLogs a b <=? 0)%Z; [done|].
  rewrite IH. apply Permutation_swap.
Qed.

Lemma sortLogs_perm l : sortLogs l ≡ₚ l.
Proof.
  induction l as [|a l IH]; simpl; [done|].
  rewrite sort_insert_perm. by f_equiv.
Qed.

Lemma sort_insert_sorted a l :
  StronglySorted notOlder l → StronglySorted notOlder (sort_insert a l).
Proof.
  induction 1 as [|b l Hl IH Hb]; simpl.
  - repeat constructor.
  - destruct (compareLogs a b <=? 0)%Z eqn:Hc.
    + apply Z.leb_le in Hc. unfold compareLogs in Hc.
      constructor; [by constructor|]. constructor.
      * unfold notOlder. lia.
      * eapply Forall_impl; [exact Hb|]. unfold notOlder. intros c Hbc. lia.
    + apply Z.leb_gt in Hc. unfold compareLogs in Hc. constructor; [done|].
      rewrite sort_insert_perm. constructor; [|done]. unfold notOlder. lia.
Qed.

Lemma sortLogs_sorted l : StronglySorted notOlder (sortLogs l).
Proof.
  induction l as [|a l IH]; simpl; [constructor|]. by apply sort_insert_sorted.
Qed.
End audit_query.

Lemma getAuditLogs_newest (limit : option Z) (st : MemStorage) :
  (0 <= default 100 limit)%Z →
  newestFirstUpTo (Z.to_nat (default 100%Z limit)) (map_values (auditLogs st))
    (getAuditLogs limit st).
Proof.
  intros Hpos. unfold getAuditLogs, slice0.
  destruct (default 100 limit <? 0)%Z eqn:Hneg; [apply Z.ltb_lt in Hneg; lia|].
  set (n := Z.to_nat (default 100%Z limit)).
  set (logs := map_values (auditLogs st)).
  pose proof (sortLogs_sorted logs) as Hsorted.
  rewrite <- (take_drop n (sortLogs logs)) in Hsorted.
  split; [|split].
  - rewrite length_take. by rewrite (Permutation_length (sortLogs_perm logs)).
  - by apply StronglySorted_app_1_l in Hsorted.
  - exists (drop n (sortLogs logs)). split.
    + rewrite take_drop. apply sortLogs_perm.
    + intros a b Ha Hb. by eapply StronglySorted_app_1_elem_of.
Qed.

(** C9. For every store, [getAuditLogs()] with its default limit returns
    the 100 newest audit records (all of them when there are fewer), and
    the endpoint [GET /api/audit-logs] the 50 newest, both sorted by
    timestamp with the most recent first. *)
Theorem audit_query_newest_first (st : MemStorage) :
  newestFirstUpTo 100 (map_values (auditLogs st)) (getAuditLogs None st)
  ∧ newestFirstUpTo 50 (map_values (auditLogs st)) (apiAuditLogs st)
  ∧ length (getAuditLogs None st) ≤ 100
  ∧ length (apiAuditLogs st) ≤ 50.
Proof.
  pose proof (getAuditLogs_newest None st ltac:(simpl; lia)) as H100.
  pose proof (getAuditLogs_newest (Some 50%Z) st ltac:(simpl; lia)) as H50.
  change (Z.to_nat (default 100%Z None)) with 100 in H100.
  change (Z.to_nat (default 100%Z (Some 50%Z))) with 50 in H50.
  repeat split; try apply H100; try apply H50.
  - destruct H100 as [-> _]. lia.
  - unfold apiAuditLogs. destruct H50 as [-> _]. lia.
Qed.

(** ** The invariant of the store *)

Section invariant.
Implicit Types (st : MemStorage) (n : nat) (sid x : string) (user : SocketUser).

Lemma Inv_new : Inv newMemStorage 0.
Proof.
  split; simpl; try by constructor.
  - intros x Hx. by apply elem_of_nil in Hx.
  - intros x r Hx. by rewrite lookup_empty in Hx.
  - intros r [room Hr]. by rewrite lookup_empty in Hr.
  - intros k Hk. by apply elem_of_nil in Hk.
Qed.

Lemma Inv_mono st n m : Inv st n → n ≤ m → Inv st m.
Proof.
  intros [] Hle. split; try done.
  - intros r Hr. specialize (inv_rooms_fresh0 r Hr). lia.
  - intros k Hk. specialize (inv_logs_fresh0 k Hk). lia.
Qed.

(** A room is always found for a mapped identifier. *)
Lemma Inv_getRoomByUser st n sid r :
  Inv st n → userRoomMap st !! sid = Some r →
  ∃ room, chatRooms st !! r = Some room ∧ getRoomByUser sid st = Some room
          ∧ (sid = fst (users room) ∨ sid = snd (users room)).
Proof.
  intros HI Hm. destruct (inv_mapped _ _ HI _ _ Hm) as (room & Hr & Hin).
  exists room. unfold getRoomByUser. by rewrite Hm.
Qed.

Lemma Inv_no_room st n sid :
  Inv st n → getRoomByUser sid st = None → userRoomMap st !! sid = None.
Proof.
  intros HI Hg. destruct (userRoomMap st !! sid) as [r|] eqn:Hm; [|done].
  destruct (Inv_getRoomByUser _ _ _ _ HI Hm) as (room & _ & Hg' & _). congruence.
Qed.

Lemma Inv_remove_queues st n sid :
  Inv st n → Inv (removeUserFromVideoQueue sid (removeUserFromQueue sid st)) n.
Proof.
  intros []. split; simpl; try done.
  - by apply NoDup_ids_filter.
  - by apply NoDup_ids_filter.
  - intros x [_ Hx]%ids_filter [_ Hv]%ids_filter. by eapply inv_disjoint0.
  - intros x [[_ Hx]%ids_filter|[_ Hx]%ids_filter]; apply inv_queued0; auto.
Qed.

Lemma Inv_removeRoom st n r : Inv st n → Inv (removeRoom r st) n.
Proof.
  intros HI. unfold removeRoom.
  destruct (chatRooms st !! r) as [room|] eqn:Hr; [|done].
  pose proof HI as [].
  destruct (inv_rooms0 _ _ Hr) as [Hu1 Hu2].
  split; simpl; try done.
  - intros x Hx. rewrite !lookup_delete_None. right. right. by apply inv_queued0.
  - intros x r' [Hx2 [Hx1 Hm]%lookup_delete_Some]%lookup_delete_Some.
    destruct (inv_mapped0 _ _ Hm) as (room' & Hr' & Hin).
    exists room'. split; [|done]. rewrite lookup_delete_ne; [done|].
    intros ->. rewrite Hr in Hr'. injection Hr' as <-. destruct Hin; congruence.
  - intros r' room' [Hne Hr']%lookup_delete_Some.
    destruct (inv_rooms0 _ _ Hr') as [Hv1 Hv2].
    rewrite !lookup_delete_Some. repeat split; try done; intros Heq; apply Hne; congruence.
  - intros r' [room' [_ Hr']%lookup_delete_Some]. apply inv_rooms_fresh0. eauto.
Qed.

Lemma Inv_removeUserFromRoom st n sid :
  Inv st n →
  Inv (removeUserFromRoom sid st) n
  ∧ (sid ∉ ids (waitingQueue (removeUserFromRoom sid st)))
  ∧ (sid ∉ ids (videoWaitingQueue (removeUserFromRoom sid st)))
  ∧ userRoomMap (removeUserFromRoom sid st) !! sid = None.
Proof.
  intros HI.
  destruct (removeUserFromRoom_queues sid st) as (Hq & Hv & _).
  split; [|split; [|split]].
  - unfold removeUserFromRoom.
    destruct (userRoomMap st !! sid) as [r|]; [|by apply Inv_remove_queues].
    destruct (chatRooms st !! r); apply Inv_remove_queues; [|done].
    by apply Inv_removeRoom.
  - rewrite Hq. apply ids_filter_out.
  - rewrite Hv. apply ids_filter_out.
  - unfold removeUserFromRoom.
    destruct (userRoomMap st !! sid) as [r|] eqn:Hm; [|done].
    destruct (Inv_getRoomByUser _ _ _ _ HI Hm) as (room & Hr & _ & Hin).
    rewrite Hr. unfold removeRoom. rewrite Hr. simpl.
    rewrite !lookup_delete_None. destruct Hin; auto.
Qed.

Lemma Inv_addUserToQueue st n user :
  Inv st n →
  userRoomMap st !! socketId user = None →
  socketId user ∉ ids (videoWaitingQueue st) →
  Inv (addUserToQueue user st) n.
Proof.
  intros [] Hm Hv. split; simpl; try done.
  - unfold ids. rewrite fmap_app. apply NoDup_app. split; [by apply NoDup_ids_filter|].
    split; [|apply NoDup_singleton].
    intros x Hx ->%list_elem_of_singleton. by eapply ids_filter_out.
  - intros x [[_ Hx]%ids_filter| ->]%ids_snoc; [by apply inv_disjoint0|done].
  - intros x [[[_ Hx]%ids_filter| ->]%ids_snoc|Hx]; auto.
Qed.

Lemma Inv_addUserToVideoQueue st n user :
  Inv st n →
  userRoomMap st !! socketId user = None →
  socketId user ∉ ids (waitingQueue st) →
  Inv (addUserToVideoQueue user st) n.
Proof.
  intros [] Hm Hq. split; simpl; try done.
  - unfold ids. rewrite fmap_app. apply NoDup_app. split; [by apply NoDup_ids_filter|].
    split; [|apply NoDup_singleton].
    intros x Hx ->%list_elem_of_singleton. by eapply ids_filter_out.
  - intros x Hx [[_ Hv]%ids_filter| ->]%ids_snoc; [by eapply inv_disjoint0|done].
  - intros x [Hx|[[_ Hx]%ids_filter| ->]%ids_snoc]; auto.
Qed.

Lemma map_set_keys {V} (k : nat) (v : V) (m : list (nat * V)) (k' : nat) :
  k' ∈ (map_set k v m).*1 → k' = k ∨ k' ∈ m.*1.
Proof.
  induction m as [|[k0 v0] m IH]; simpl.
  - intros ->%list_elem_of_singleton. by left.
  - destruct (bool_decide (k0 = k)) eqn:Hk; simpl.
    + apply bool_decide_eq_true in Hk as ->. rewrite !elem_of_cons. tauto.
    + rewrite !elem_of_cons. intros [->|H]; [by right; left|].
      destruct (IH H); auto.
Qed.

Lemma Inv_createAuditLog st n time insertLog :
  Inv st n → Inv (snd (createAuditLog n time insertLog st)) (S n).
Proof.
  intros HI. apply (Inv_mono _ _ (S n)) in HI as []; [|lia].
  split; simpl; try done.
  intros k [->|Hk]%map_set_keys; [lia|by apply inv_logs_fresh0].
Qed.

Lemma Inv_clearWebRTCState st n r : Inv st n → Inv (clearWebRTCState r st) n.
Proof. by intros []. Qed.

Lemma Inv_markVideoCall st n r :
  Inv st n → Inv (set_chatRooms (alter markVideoCall r) st) n.
Proof.
  intros []. split; simpl; try done.
  - intros x r' Hm. destruct (inv_mapped0 _ _ Hm) as (room & Hr & Hin).
    destruct (decide (r = r')) as [->|Hne].
    + exists (markVideoCall room). by rewrite lookup_alter_eq, Hr.
    + exists room. by rewrite lookup_alter_ne.
  - intros r' room'. destruct (decide (r = r')) as [->|Hne].
    + rewrite lookup_alter_eq. destruct (chatRooms st !! r') as [room|] eqn:Hr; [|done].
      intros [= <-]. simpl. by apply inv_rooms0.
    + rewrite lookup_alter_ne by done. apply inv_rooms0.
  - intros r' Hr'. apply inv_rooms_fresh0.
    destruct (decide (r = r')) as [->|Hne].
    + rewrite lookup_alter_eq in Hr'. by apply fmap_is_Some in Hr'.
    + by rewrite lookup_alter_ne in Hr'.
Qed.

(** Two users taken from the queues get a room. *)
Lemma Inv_createRoom st n time user1 user2 :
  Inv st n →
  userRoomMap st !! socketId user1 = None →
  userRoomMap st !! socketId user2 = None →
  Inv (snd (createRoom n time user1 user2 st)) (S n).
Proof.
  intros HI Hm1 Hm2. pose proof HI as [].
  split; simpl.
  - by do 2 apply NoDup_ids_filter.
  - by do 2 apply NoDup_ids_filter.
  - intros x [_ [_ Hx]%ids_filter]%ids_filter [_ [_ Hv]%ids_filter]%ids_filter.
    by eapply inv_disjoint0.
  - intros x Hx.
    assert (x ≠ socketId user1 ∧ x ≠ socketId user2
            ∧ (x ∈ ids (waitingQueue st) ∨ x ∈ ids (videoWaitingQueue st)))
      as (Hn1 & Hn2 & Hin).
    { destruct Hx as [[? [? ?]%ids_filter]%ids_filter|[? [? ?]%ids_filter]%ids_filter];
        auto. }
    rewrite !lookup_insert_ne by done. by apply inv_queued0.
  - intros x r Hm.
    destruct (decide (socketId user2 = x)) as [<-|Hn2].
    { rewrite lookup_insert_eq in Hm. injection Hm as <-.
      eexists. rewrite lookup_insert_eq. split; [done|]. simpl. by right. }
    rewrite lookup_insert_ne in Hm by done.
    destruct (decide (socketId user1 = x)) as [<-|Hn1].
    { rewrite lookup_insert_eq in Hm. injection Hm as <-.
      eexists. rewrite lookup_insert_eq. split; [done|]. simpl. by left. }
    rewrite lookup_insert_ne in Hm by done.
    destruct (inv_mapped0 _ _ Hm) as (room & Hr & Hin).
    exists room. split; [|done]. rewrite lookup_insert_ne; [done|].
    intros <-. assert (n < n) by (apply inv_rooms_fresh0; eauto). lia.
  - intros r room. destruct (decide (n = r)) as [<-|Hne].
    + rewrite lookup_insert_eq. intros [= <-]. simpl. split.
      * destruct (decide (socketId user2 = socketId user1)) as [->|Hd].
        -- apply lookup_insert_eq.
        -- rewrite lookup_insert_ne by done. apply lookup_insert_eq.
      * apply lookup_insert_eq.
    + rewrite lookup_insert_ne by done. intros Hr.
      destruct (inv_rooms0 _ _ Hr) as [H1 H2].
      split; (rewrite !lookup_insert_ne; [done|intros Heq; congruence..]).
  - intros r. destruct (decide (n = r)) as [<-|Hne]; [lia|].
    rewrite lookup_insert_ne by done. intros Hr%inv_rooms_fresh0. lia.
  - intros k Hk%inv_logs_fresh0. lia.
Qed.
End invariant.

(** ** The matchmakers keep the invariant *)

Section matchers_invariant.
Implicit Types (e : Env) (w : World) (sid ip ua : string).

Lemma selected_unmapped st n waitingUsers avoidPairing user1 user2 :
  Inv st n →
  waitingUsers = waitingQueue st ∨ waitingUsers = videoWaitingQueue st →
  selectPair waitingUsers avoidPairing = Some (user1, Some user2) →
  userRoomMap st !! socketId user1 = None ∧ userRoomMap st !! socketId user2 = None.
Proof.
  intros HI Hq [H1 H2]%selectPair_members.
  split; apply (inv_queued _ _ HI);
    destruct Hq as [->| ->]; unfold ids; auto using list_elem_of_fmap_2.
Qed.

Lemma tryMatchText_inv e w avoidPairing :
  InvW w → InvW (snd (tryMatchTextUsersWithPreferenceSeq avoidPairing e w)).
Proof.
  intros HI.
  destruct (selectPair (waitingQueue (storage w)) avoidPairing) as [[user1 [user2|]]|]
    eqn:Hsel.
  - destruct (selected_unmapped _ _ _ _ _ _ HI (or_introl eq_refl) Hsel) as [H1 H2].
    rewrite (tryMatchText_eval _ _ _ _ _ Hsel). cbv zeta. cbn [snd].
    pose proof (Inv_createRoom _ _ (now e) user1 user2 HI H1 H2) as HI'.
    destruct (bothOpen e user1 user2); unfold InvW; cbn [storage uuids]; [|done].
    by do 2 apply Inv_createAuditLog.
  - by apply selectPair_defined in Hsel.
  - by rewrite tryMatchText_none.
Qed.

Lemma tryMatchVideo_inv e w avoidPairing :
  InvW w → InvW (snd (tryMatchVideoUsersWithPreferenceSeq avoidPairing e w)).
Proof.
  intros HI.
  destruct (selectPair (videoWaitingQueue (storage w)) avoidPairing)
    as [[user1 [user2|]]|] eqn:Hsel.
  - destruct (selected_unmapped _ _ _ _ _ _ HI (or_intror eq_refl) Hsel) as [H1 H2].
    rewrite (tryMatchVideo_eval _ _ _ _ _ Hsel). cbv zeta. cbn [snd].
    pose proof (Inv_markVideoCall _ _ (uuids w)
                  (Inv_createRoom _ _ (now e) user1 user2 HI H1 H2)) as HI'.
    destruct (bothOpen e user1 user2); unfold InvW; cbn [storage uuids]; [|done].
    by do 2 apply Inv_createAuditLog.
  - by apply selectPair_defined in Hsel.
  - by rewrite tryMatchVideo_none.
Qed.
End matchers_invariant.

(** ** Teardowns keep the invariant *)

Section composite.
Implicit Types (st : MemStorage) (n : nat) (sid x : string) (user : SocketUser).

Lemma Inv_set_auditLogs st n log :
  Inv st n → Inv (set_auditLogs (map_set n log) st) (S n).
Proof.
  intros HI. apply (Inv_mono _ _ (S n)) in HI as []; [|lia].
  split; simpl; try done.
  intros k [->|Hk]%map_set_keys; [lia|by apply inv_logs_fresh0].
Qed.

Lemma Inv_rejoin st n user :
  Inv st n → Inv (addUserToQueue user (removeUserFromRoom (socketId user) st)) n.
Proof.
  intros HI. destruct (Inv_removeUserFromRoom _ _ (socketId user) HI) as (HI' & _ & Hv & Hm).
  by apply Inv_addUserToQueue.
Qed.

Lemma Inv_rejoin_video st n user :
  Inv st n → Inv (addUserToVideoQueue user (removeUserFromRoom (socketId user) st)) n.
Proof.
  intros HI. destruct (Inv_removeUserFromRoom _ _ (socketId user) HI) as (HI' & Hq & _ & Hm).
  by apply Inv_addUserToVideoQueue.
Qed.

Lemma removeUserFromRoom_map_None sid x st :
  userRoomMap st !! x = None → userRoomMap (removeUserFromRoom sid st) !! x = None.
Proof.
  intros Hx. unfold removeUserFromRoom, removeRoom.
  destruct (userRoomMap st !! sid) as [r|]; [|done].
  destruct (chatRooms st !! r) as [room|]; [|done]. simpl.
  rewrite !lookup_delete_None. auto.
Qed.

(** The teardown of [handleNextUser]: both participants leave and both
    are queued again, on one queue. *)
Lemma Inv_requeue_both st n user partner :
  Inv st n →
  Inv (addUserToQueue partner
         (addUserToQueue user
            (removeUserFromRoom (socketId partner)
               (removeUserFromRoom (socketId user) st)))) n
  ∧ Inv (addUserToVideoQueue partner
           (addUserToVideoQueue user
              (removeUserFromRoom (socketId partner)
                 (removeUserFromRoom (socketId user) st)))) n.
Proof.
  intros HI.
  destruct (Inv_removeUserFromRoom _ _ (socketId user) HI) as (HI1 & Hq1 & Hv1 & Hm1).
  destruct (Inv_removeUserFromRoom _ _ (socketId partner) HI1) as (HI2 & Hq2 & Hv2 & Hm2).
  set (st1 := removeUserFromRoom (socketId user) st) in *.
  set (st2 := removeUserFromRoom (socketId partner) st1) in *.
  destruct (removeUserFromRoom_queues (socketId partner) st1) as (Eq & Ev & _).
  assert (Hm : userRoomMap st2 !! socketId user = None)
    by (by apply removeUserFromRoom_map_None).
  assert (Hq : socketId user ∉ ids (waitingQueue st2)).
  { fold st2 in Eq. rewrite Eq. by intros [_ ?]%ids_filter. }
  assert (Hv : socketId user ∉ ids (videoWaitingQueue st2)).
  { fold st2 in Ev. rewrite Ev. by intros [_ ?]%ids_filter. }
  split.
  - apply Inv_addUserToQueue; [by apply Inv_addUserToQueue|done|done].
  - apply Inv_addUserToVideoQueue; [by apply Inv_addUserToVideoQueue|done|done].
Qed.

Lemma removeUserFromRoom_set_auditLogs sid f st :
  removeUserFromRoom sid (set_auditLogs f st)
  = set_auditLogs f (removeUserFromRoom sid st).
Proof.
  unfold removeUserFromRoom, removeRoom. simpl.
  destruct (userRoomMap st !! sid) as [r|]; [|done].
  destruct (chatRooms st !! r) as [room|]; done.
Qed.

Lemma removeUserFromRoom_addUserToQueue sid user st :
  socketId user ≠ sid →
  removeUserFromRoom sid (addUserToQueue user st)
  = addUserToQueue user (removeUserFromRoom sid st).
Proof.
  intros Hne.
  assert (Hq : ∀ q, filter (fun u => socketId u ≠ sid)
                      (filter (fun u => socketId u ≠ socketId user) q ++ [user])
                    = filter (fun u => socketId u ≠ socketId user)
                        (filter (fun u => socketId u ≠ sid) q) ++ [user]).
  { intros q. rewrite filter_app, filter_out_comm. f_equal.
    by rewrite filter_cons_True. }
  unfold removeUserFromRoom, removeRoom, addUserToQueue. simpl.
  destruct (userRoomMap st !! sid) as [r|]; simpl.
  - destruct (chatRooms st !! r) as [room|]; simpl;
      unfold removeUserFromVideoQueue, removeUserFromQueue, set_waitingQueue,
        set_videoWaitingQueue; simpl; by rewrite Hq.
  - unfold removeUserFromVideoQueue, removeUserFromQueue, set_waitingQueue,
      set_videoWaitingQueue; simpl; by rewrite Hq.
Qed.

Lemma removeUserFromRoom_addUserToVideoQueue sid user st :
  socketId user ≠ sid →
  removeUserFromRoom sid (addUserToVideoQueue user st)
  = addUserToVideoQueue user (removeUserFromRoom sid st).
Proof.
  intros Hne.
  assert (Hq : ∀ q, filter (fun u => socketId u ≠ sid)
                      (filter (fun u => socketId u ≠ socketId user) q ++ [user])
                    = filter (fun u => socketId u ≠ socketId user)
                        (filter (fun u => socketId u ≠ sid) q) ++ [user]).
  { intros q. rewrite filter_app, filter_out_comm. f_equal.
    by rewrite filter_cons_True. }
  unfold removeUserFromRoom, removeRoom, addUserToVideoQueue. simpl.
  destruct (userRoomMap st !! sid) as [r|]; simpl.
  - destruct (chatRooms st !! r) as [room|]; simpl;
      unfold removeUserFromVideoQueue, removeUserFromQueue, set_waitingQueue,
        set_videoWaitingQueue; simpl; by rewrite Hq.
  - unfold removeUserFromVideoQueue, removeUserFromQueue, set_waitingQueue,
      set_videoWaitingQueue; simpl; by rewrite Hq.
Qed.

Lemma findPartner_spec room sid p :
  findPartner room sid = Some p →
  p ≠ sid ∧ (p = fst (users room) ∨ p = snd (users room)).
Proof.
  unfold findPartner. repeat case_bool_decide; intros [= <-]; auto.
Qed.

Lemma partnerOf_spec room sid p :
  partnerOf room sid = Some p →
  p ≠ sid ∧ (p = fst (users room) ∨ p = snd (users room)).
Proof.
  unfold partnerOf. destruct (findPartner room sid) as [q|] eqn:Hf; [|done].
  destruct (truthy_id q); [|done]. intros [= <-]. by apply findPartner_spec.
Qed.

(** The teardown of [handleDisconnect]: the partner is queued while
    the room still stands, then the room goes. *)
Lemma Inv_disconnect st n sid room partner :
  Inv st n →
  getRoomByUser sid st = Some room →
  partnerOf room sid = Some (socketId partner) →
  Inv (removeUserFromRoom sid (addUserToQueue partner st)) n
  ∧ Inv (removeUserFromRoom sid (addUserToVideoQueue partner st)) n.
Proof.
  intros HI Hg [Hne Hin]%partnerOf_spec.
  rewrite removeUserFromRoom_addUserToQueue, removeUserFromRoom_addUserToVideoQueue
    by done.
  destruct (Inv_removeUserFromRoom _ _ sid HI) as (HI1 & _ & _ & _).
  destruct (removeUserFromRoom_queues sid st) as (Eq & Ev & _).
  unfold getRoomByUser in Hg.
  destruct (userRoomMap st !! sid) as [r|] eqn:Hm; [|done].
  destruct (inv_rooms _ _ HI _ _ Hg) as [Hu1 Hu2].
  assert (Hp : userRoomMap st !! socketId partner = Some r)
    by (destruct Hin as [->| ->]; done).
  assert (Hm' : userRoomMap (removeUserFromRoom sid st) !! socketId partner = None).
  { unfold removeUserFromRoom, removeRoom. rewrite Hm, Hg. simpl.
    rewrite !lookup_delete_None. destruct Hin; auto. }
  assert (Hnq : socketId partner ∉ ids (waitingQueue st)).
  { intros Hx. assert (userRoomMap st !! socketId partner = None)
      by (apply (inv_queued _ _ HI); auto). congruence. }
  assert (Hnv : socketId partner ∉ ids (videoWaitingQueue st)).
  { intros Hx. assert (userRoomMap st !! socketId partner = None)
      by (apply (inv_queued _ _ HI); auto). congruence. }
  split.
  - apply Inv_addUserToQueue; [done|done|]. rewrite Ev. by intros [_ ?]%ids_filter.
  - apply Inv_addUserToVideoQueue; [done|done|]. rewrite Eq. by intros [_ ?]%ids_filter.
Qed.
End composite.

#[local] Arguments removeUserFromRoom : simpl never.
#[local] Arguments addUserToQueue : simpl never.
#[local] Arguments addUserToVideoQueue : simpl never.
#[local] Arguments clearWebRTCState : simpl never.
#[local] Arguments tryMatchTextUsersWithPreferenceSeq : simpl never.
#[local] Arguments tryMatchVideoUsersWithPreferenceSeq : simpl never.
#[local] Arguments getRoomByUser : simpl never.
#[local] Arguments partnerOf : simpl never.
#[local] Arguments findOpen : simpl never.
#[local] Arguments handleJoinQueueSeq : simpl never.
#[local] Arguments handleStartVideoSeq : simpl never.
#[local] Arguments handleNextUserSeq : simpl never.
#[local] Arguments handleSendMessageSeq : simpl never.
#[local] Arguments handleReportUserSeq : simpl never.
#[local] Arguments handleWebRTCSignalSeq : simpl never.
#[local] Arguments handleDisconnectSeq : simpl never.

(** ** A handler run alone

    Running a handler with [atomically] is reading it with its awaits
    erased. *)

Section alone.
Context {A : Type}.
Implicit Types (r : Res A) (c : Co A) (m : M A) (e : Env) (w : World).

Lemma res_run_bind {B} r (f : A -> Co B) e :
  res_run (res_bind r f e) e
  = match res_run r e with
    | (Ok a, w') => res_run (f a e w') e
    | (Throw, w') => (Throw, w')
    end.
Proof. induction r as [a w|w|w k IH]; simpl; auto. Qed.

Lemma res_run_await r e : res_run (res_await r) e = res_run r e.
Proof. induction r as [a w|w|w k IH]; simpl; auto. Qed.

Lemma reads_ret (a : A) : reads (mret a) (mret a).
Proof. by intros e w. Qed.

Lemma reads_sync m : reads (sync m) m.
Proof. intros e w. unfold atomically, sync. by destruct (m e w) as [[a|] w']. Qed.

Lemma reads_raise : reads (@raise A) throw.
Proof. by intros e w. Qed.

Lemma reads_bind {B} c m (f : A -> Co B) (g : A -> M B) :
  reads c m → (∀ a, reads (f a) (g a)) → reads (c ≫= f) (m ≫= g).
Proof.
  intros Hc Hf e w. unfold atomically, mbind, Co_bind, M_bind.
  rewrite res_run_bind. specialize (Hc e w). unfold atomically in Hc. rewrite Hc.
  destruct (m e w) as [[a|] w']; [apply Hf|done].
Qed.

Lemma reads_await c m : reads c m → reads (await c) m.
Proof. intros Hc e w. unfold atomically, await. rewrite res_run_await. apply Hc. Qed.
End alone.

Lemma res_run_catch (r : Res unit) (handler : Co unit) (e : Env) :
  res_run (res_catch r handler e) e
  = match res_run r e with
    | (Ok a, w') => (Ok a, w')
    | (Throw, w') => res_run (handler e w') e
    end.
Proof. induction r as [a w|w|w k IH]; simpl; auto. Qed.

Lemma reads_catch (body handler : Co unit) (mb mh : M unit) :
  reads body mb → reads handler mh → reads (catch body handler) (try_catch mb mh).
Proof.
  intros Hb Hh e w. unfold atomically, catch, try_catch. rewrite res_run_catch.
  specialize (Hb e w). unfold atomically in Hb. rewrite Hb.
  destruct (mb e w) as [[a|] w']; [done|apply Hh].
Qed.

Lemma reads_createAuditLogA insertLog :
  reads (createAuditLogA insertLog) (createAuditLogM insertLog).
Proof. apply reads_sync. Qed.

Ltac reads_step :=
  match goal with
  | |- reads (mret _) _ => apply reads_ret
  | |- reads (sync _) _ => apply reads_sync
  | |- reads raise _ => apply reads_raise
  | |- reads (createAuditLogA _) _ => apply reads_createAuditLogA
  | |- reads (await _) _ => apply reads_await
  | |- reads (catch _ _) _ => apply reads_catch
  | |- reads (_ ≫= _) _ => apply reads_bind; [|intros ?]
  | |- reads (match ?x with _ => _ end) _ => destruct x
  | |- reads (if ?b then _ else _) _ => destruct b
  end.

Lemma tryMatchTextUsersWithPreference_alone avoidPairing :
  reads (tryMatchTextUsersWithPreference avoidPairing)
    (tryMatchTextUsersWithPreferenceSeq avoidPairing).
Proof.
  unfold tryMatchTextUsersWithPreference, tryMatchTextUsersWithPreferenceSeq.
  repeat reads_step.
Qed.

Lemma tryMatchVideoUsersWithPreference_alone avoidPairing :
  reads (tryMatchVideoUsersWithPreference avoidPairing)
    (tryMatchVideoUsersWithPreferenceSeq avoidPairing).
Proof.
  unfold tryMatchVideoUsersWithPreference, tryMatchVideoUsersWithPreferenceSeq.
  repeat reads_step.
Qed.

Ltac reads_matcher :=
  match goal with
  | |- reads (tryMatchTextUsersWithPreference _) _ =>
      apply tryMatchTextUsersWithPreference_alone
  | |- reads (tryMatchVideoUsersWithPreference _) _ =>
      apply tryMatchVideoUsersWithPreference_alone
  end.

Lemma handleJoinQueue_alone sid ip ua :
  reads (handleJoinQueue sid ip ua) (handleJoinQueueSeq sid ip ua).
Proof.
  unfold handleJoinQueue, handleJoinQueueSeq. cbv zeta.
  repeat first [reads_matcher | reads_step].
Qed.

Lemma handleStartVideo_alone sid ip ua :
  reads (handleStartVideo sid ip ua) (handleStartVideoSeq sid ip ua).
Proof.
  unfold handleStartVideo, handleStartVideoSeq. cbv zeta.
  repeat first [reads_matcher | reads_step].
Qed.

Ltac reads_join :=
  match goal with
  | |- reads (handleJoinQueue _ _ _) _ => apply handleJoinQueue_alone
  | |- reads (handleStartVideo _ _ _) _ => apply handleStartVideo_alone
  end.

Lemma handleSendMessage_alone sid content :
  reads (handleSendMessage sid content) (handleSendMessageSeq sid content).
Proof.
  unfold handleSendMessage, handleSendMessageSeq. cbv zeta.
  repeat first [reads_matcher | reads_step].
Qed.

Lemma handleNextUser_alone sid ip ua videoMode :
  reads (handleNextUser sid ip ua videoMode) (handleNextUserSeq sid ip ua videoMode).
Proof.
  unfold handleNextUser, handleNextUserSeq. cbv zeta.
  repeat first [reads_join | reads_step].
Qed.

Ltac reads_next :=
  match goal with
  | |- reads (handleNextUser _ _ _ _) _ => apply handleNextUser_alone
  end.

Lemma handleWebRTCSignal_alone sid signal :
  reads (handleWebRTCSignal sid signal) (handleWebRTCSignalSeq sid signal).
Proof.
  unfold handleWebRTCSignal, handleWebRTCSignalSeq. cbv zeta.
  repeat first [reads_matcher | reads_step].
Qed.

Lemma handleReportUser_alone sid ip ua :
  reads (handleReportUser sid ip ua) (handleReportUserSeq sid ip ua).
Proof.
  unfold handleReportUser, handleReportUserSeq. cbv zeta.
  repeat first [reads_next | reads_step].
Qed.

Lemma handleDisconnect_alone sid ip ua :
  reads (handleDisconnect sid ip ua) (handleDisconnectSeq sid ip ua).
Proof.
  unfold handleDisconnect, handleDisconnectSeq. cbv zeta.
  repeat first [reads_matcher | reads_step].
Qed.

Ltac reads_handler :=
  match goal with
  | |- reads (handleSendMessage _ _) _ => apply handleSendMessage_alone
  | |- reads (handleWebRTCSignal _ _) _ => apply handleWebRTCSignal_alone
  | |- reads (handleReportUser _ _ _) _ => apply handleReportUser_alone
  end.

Lemma onMessage_alone c data : reads (onMessage c data) (onMessageSeq c data).
Proof.
  unfold onMessage, onMessageSeq. cbv zeta.
  repeat first [reads_join | reads_next | reads_handler | reads_step].
Qed.

Lemma handle_alone ev : reads (handle ev) (handleSeq ev).
Proof.
  destruct ev as [c data|c|[avoidPairing|avoidPairing|r]]; simpl.
  - apply onMessage_alone.
  - apply reads_await, handleDisconnect_alone.
  - apply reads_await, tryMatchTextUsersWithPreference_alone.
  - apply reads_await, tryMatchVideoUsersWithPreference_alone.
  - apply reads_ret.
Qed.

Lemma attemptMatch_alone video avoidPairing :
  reads (attemptMatch video avoidPairing) (attemptMatchSeq video avoidPairing).
Proof.
  destruct video; [apply tryMatchVideoUsersWithPreference_alone
                  |apply tryMatchTextUsersWithPreference_alone].
Qed.

Lemma joinHandler_alone video sid ip ua :
  reads (joinHandler video sid ip ua) (joinHandlerSeq video sid ip ua).
Proof. destruct video; [apply handleStartVideo_alone|apply handleJoinQueue_alone]. Qed.
(** * Properties kept at every await *)

Lemma bind_sync {A B} (m : M A) (k : A -> Co B) (e : Env) (w : World) :
  (sync m ≫= k) e w
  = match m e w with
    | (Ok a, w') => k a e w'
    | (Throw, w') => Raised w'
    end.
Proof. unfold mbind, Co_bind, sync. by destruct (m e w) as [[a|] w']. Qed.

Lemma createRoomM_eq (user1 user2 : SocketUser) (e : Env) (w : World) :
  createRoomM user1 user2 e w
  = (Ok (fst (createRoom (uuids w) (now e) user1 user2 (storage w))),
     mkWorld (snd (createRoom (uuids w) (now e) user1 user2 (storage w)))
       (S (uuids w)) (effects w)).
Proof. reflexivity. Qed.

Lemma update_eq (f : MemStorage -> MemStorage) (e : Env) (w : World) :
  update f e w = (Ok tt, mkWorld (f (storage w)) (uuids w) (effects w)).
Proof. reflexivity. Qed.

Lemma bind_sync_tt {B} (m : M unit) (k : unit -> Co B) (e : Env) (w : World) :
  res_bind (sync m e w) k e
  = match m e w with
    | (Ok a, w') => k a e w'
    | (Throw, w') => Raised w'
    end.
Proof. unfold sync. by destruct (m e w) as [[a|] w']. Qed.

Section keeping.
Context {P : World -> Prop}.

Lemma keeps_ret {A} (a : A) : keeps P (mret a).
Proof. by intros e w. Qed.

Lemma keeps_throw {A} : keeps P (@throw A).
Proof. by intros e w. Qed.

Lemma keeps_read {A} (f : MemStorage -> A) : keeps P (read f).
Proof. by intros e w. Qed.

Lemma keeps_clock : keeps P clock.
Proof. by intros e w. Qed.

Lemma keeps_find sid : keeps P (findWebSocketBySocketId sid).
Proof. by intros e w. Qed.

Lemma keeps_substring content : keeps P (substring_0_1000 content).
Proof. intros e w. by destruct content. Qed.

Lemma keeps_bind {A B} (m : M A) (f : A -> M B) :
  keeps P m → (∀ a, keeps P (f a)) → keeps P (m ≫= f).
Proof.
  intros Hm Hf e w HP. unfold mbind, M_bind.
  specialize (Hm e w HP). destruct (m e w) as [[a|] w']; [|done].
  by apply Hf.
Qed.

Lemma preserves_stops {A} (r : Res A) (e : Env) : preserves P r → P (snd (res_run r e)).
Proof. induction 1 as [a w H|w H|w k H Hk IH]; simpl; auto. Qed.

Lemma preserves_bind {A B} (r : Res A) (f : A -> Co B) (e : Env) :
  preserves P r → (∀ a, keepsCo P (f a)) → preserves P (res_bind r f e).
Proof.
  intros Hr Hf. revert e.
  induction Hr as [a w H|w H|w k H Hk IH]; intros e; simpl.
  - by apply Hf.
  - by constructor.
  - constructor; [done|]. intros e' w' H'. by apply IH.
Qed.

Lemma preserves_await {A} (r : Res A) : preserves P r → preserves P (res_await r).
Proof.
  induction 1 as [a w H|w H|w k H Hk IH]; simpl.
  - constructor; [done|]. intros e w' H'. by constructor.
  - constructor; [done|]. intros e w' H'. by constructor.
  - constructor; [done|]. intros e w' H'. by apply IH.
Qed.

Lemma preserves_catch (r : Res unit) (handler : Co unit) (e : Env) :
  preserves P r → keepsCo P handler → preserves P (res_catch r handler e).
Proof.
  intros Hr Hh. revert e.
  induction Hr as [a w H|w H|w k H Hk IH]; intros e; simpl.
  - by constructor.
  - by apply Hh.
  - constructor; [done|]. intros e' w' H'. by apply IH.
Qed.

Lemma keepsCo_ret {A} (a : A) : keepsCo P (mret a).
Proof. intros e w H. by constructor. Qed.

Lemma keepsCo_raise {A} : keepsCo P (@raise A).
Proof. intros e w H. by constructor. Qed.

Lemma keepsCo_sync {A} (m : M A) : keeps P m → keepsCo P (sync m).
Proof.
  intros Hm e w H. unfold sync. specialize (Hm e w H).
  destruct (m e w) as [[a|] w']; by constructor.
Qed.

Lemma keepsCo_bind {A B} (c : Co A) (f : A -> Co B) :
  keepsCo P c → (∀ a, keepsCo P (f a)) → keepsCo P (c ≫= f).
Proof. intros Hc Hf e w H. apply preserves_bind; [by apply Hc|done]. Qed.

Lemma keepsCo_await {A} (c : Co A) : keepsCo P c → keepsCo P (await c).
Proof. intros Hc e w H. apply preserves_await. by apply Hc. Qed.

Lemma keepsCo_catch (body handler : Co unit) :
  keepsCo P body → keepsCo P handler → keepsCo P (catch body handler).
Proof. intros Hb Hh e w H. apply preserves_catch; [by apply Hb|done]. Qed.

Lemma keepsCo_apply {A} (c : Co A) (e : Env) (w : World) :
  keepsCo P c → P w → preserves P (c e w).
Proof. intros Hc H. by apply Hc. Qed.

(** A handler that keeps [P] at every await keeps it when it runs
    alone. *)
Lemma keepsCo_alone {A} (c : Co A) : keepsCo P c → keeps P (atomically c).
Proof. intros Hc e w H. apply preserves_stops. by apply Hc. Qed.

End keeping.

Ltac keeps_step :=
  match goal with
  | |- keeps _ (mret _) => apply keeps_ret
  | |- keeps _ throw => apply keeps_throw
  | |- keeps _ (read _) => apply keeps_read
  | |- keeps _ clock => apply keeps_clock
  | |- keeps _ (findWebSocketBySocketId _) => apply keeps_find
  | |- keeps _ (substring_0_1000 _) => apply keeps_substring
  | H : ∀ x, keeps _ (emit x) |- keeps _ (emit _) => apply H
  | H : keeps _ randomUUID |- keeps _ randomUUID => apply H
  | H : ∀ x, keeps _ (createAuditLogM x) |- keeps _ (createAuditLogM _) => apply H
  | H : ∀ x, keeps _ (update (removeUserFromRoom x))
    |- keeps _ (update (removeUserFromRoom _)) => apply H
  | H : ∀ x, keeps _ (update (addUserToQueue x))
    |- keeps _ (update (addUserToQueue _)) => apply H
  | H : ∀ x, keeps _ (update (addUserToVideoQueue x))
    |- keeps _ (update (addUserToVideoQueue _)) => apply H
  | H : ∀ x, keeps _ (update (clearWebRTCState x))
    |- keeps _ (update (clearWebRTCState _)) => apply H
  | |- keeps _ (_ ≫= _) => apply keeps_bind; [|intros ?]
  end.

Ltac keepsCo_step :=
  match goal with
  | |- keepsCo _ (mret _) => apply keepsCo_ret
  | |- keepsCo _ raise => apply keepsCo_raise
  | |- keepsCo _ (sync _) => apply keepsCo_sync
  | |- keepsCo _ (createAuditLogA _) => apply keepsCo_sync
  | |- keepsCo _ (await _) => apply keepsCo_await
  | |- keepsCo _ (catch _ _) => apply keepsCo_catch
  | H : ∀ a, keepsCo _ (tryMatchTextUsersWithPreference a)
    |- keepsCo _ (tryMatchTextUsersWithPreference _) => apply H
  | H : ∀ a, keepsCo _ (tryMatchVideoUsersWithPreference a)
    |- keepsCo _ (tryMatchVideoUsersWithPreference _) => apply H
  | H : ∀ a b c, keepsCo _ (handleJoinQueue a b c)
    |- keepsCo _ (handleJoinQueue _ _ _) => apply H
  | H : ∀ a b c, keepsCo _ (handleStartVideo a b c)
    |- keepsCo _ (handleStartVideo _ _ _) => apply H
  | H : ∀ a b c d, keepsCo _ (handleNextUser a b c d)
    |- keepsCo _ (handleNextUser _ _ _ _) => apply H
  | H : ∀ a b, keepsCo _ (handleSendMessage a b)
    |- keepsCo _ (handleSendMessage _ _) => apply H
  | H : ∀ a b, keepsCo _ (handleWebRTCSignal a b)
    |- keepsCo _ (handleWebRTCSignal _ _) => apply H
  | H : ∀ a b c, keepsCo _ (handleReportUser a b c)
    |- keepsCo _ (handleReportUser _ _ _) => apply H
  | H : ∀ a b c, keepsCo _ (handleDisconnect a b c)
    |- keepsCo _ (handleDisconnect _ _ _) => apply H
  | |- keepsCo _ (_ ≫= _) => apply keepsCo_bind; [|intros ?]
  | |- keepsCo _ (match ?x with _ => _ end) => destruct x
  | |- keepsCo _ (if ?b then _ else _) => destruct b
  | |- keeps _ _ => keeps_step
  end.

Section carrying.
Context {P : World -> Prop}.

Lemma carries_mono {A} (H H' : Prop) (r : Res A) :
  (H' → H) → carries P H r → carries P H' r.
Proof. intros Himp Hr. destruct Hr; constructor; auto. Qed.

Lemma carries_preserves {A} (H : Prop) (r : Res A) : H → carries P H r → preserves P r.
Proof.
  intros HH Hr. induction Hr as [H a w Hw|H w Hw|H w k Hw Hk IH].
  - constructor. auto.
  - constructor. auto.
  - constructor; [auto|]. intros e w' Hw'. by apply IH.
Qed.

Lemma carriesCo_keepsCo {A} (c : Co A) : carriesCo P c → keepsCo P c.
Proof. intros Hc e w Hw. by apply (carries_preserves (P w)). Qed.

Lemma carries_bind {A B} (H : Prop) (r : Res A) (f : A -> Co B) (e : Env) :
  carries P H r → (∀ a, carriesCo P (f a)) → carries P H (res_bind r f e).
Proof.
  intros Hr Hf. revert e.
  induction Hr as [H a w Hw|H w Hw|H w k Hw Hk IH]; intros e; simpl.
  - apply (carries_mono (P w)); [done|apply Hf].
  - by constructor.
  - constructor; [done|]. intros e' w'. apply IH.
Qed.

Lemma carries_await {A} (H : Prop) (r : Res A) : carries P H r → carries P H (res_await r).
Proof.
  induction 1 as [H a w Hw|H w Hw|H w k Hw Hk IH]; simpl.
  - constructor; [done|]. intros e w'. by constructor.
  - constructor; [done|]. intros e w'. by constructor.
  - constructor; [done|]. intros e w'. apply IH.
Qed.

Lemma carries_catch (H : Prop) (r : Res unit) (handler : Co unit) (e : Env) :
  carries P H r → carriesCo P handler → carries P H (res_catch r handler e).
Proof.
  intros Hr Hh. revert e.
  induction Hr as [H a w Hw|H w Hw|H w k Hw Hk IH]; intros e; simpl.
  - by constructor.
  - apply (carries_mono (P w)); [done|apply Hh].
  - constructor; [done|]. intros e' w'. apply IH.
Qed.

Lemma carriesCo_ret {A} (a : A) : carriesCo P (mret a).
Proof. intros e w. by constructor. Qed.

Lemma carriesCo_raise {A} : carriesCo P (@raise A).
Proof. intros e w. by constructor. Qed.

Lemma carriesCo_sync {A} (m : M A) : keeps P m → carriesCo P (sync m).
Proof.
  intros Hm e w. unfold sync. specialize (Hm e w).
  destruct (m e w) as [[a|] w']; by constructor.
Qed.

Lemma carriesCo_bind {A B} (c : Co A) (f : A -> Co B) :
  carriesCo P c → (∀ a, carriesCo P (f a)) → carriesCo P (c ≫= f).
Proof. intros Hc Hf e w. apply carries_bind; [apply Hc|done]. Qed.

Lemma carriesCo_await {A} (c : Co A) : carriesCo P c → carriesCo P (await c).
Proof. intros Hc e w. apply carries_await, Hc. Qed.

Lemma carriesCo_catch (body handler : Co unit) :
  carriesCo P body → carriesCo P handler → carriesCo P (catch body handler).
Proof. intros Hb Hh e w. apply carries_catch; [apply Hb|done]. Qed.

Lemma carriesCo_apply {A} (H : Prop) (c : Co A) (e : Env) (w : World) :
  carriesCo P c → (H → P w) → carries P H (c e w).
Proof. intros Hc Hw. apply (carries_mono (P w)); [done|apply Hc]. Qed.

(** The turns of the event loop carry what every handler carries. *)
Lemma settle_carries (H : Prop) ev r others :
  carries P H r → tasksCarry P others →
  (H → P (world (settle ev r others))) ∧ tasksCarry P (tasks (settle ev r others)).
Proof.
  intros Hr Ho. destruct Hr as [H a w Hw|H w Hw|H w k Hw Hk]; simpl; [done|done|].
  split; [done|]. apply Forall_app. split; [done|]. by apply Forall_singleton.
Qed.

Lemma step_carries s x :
  (∀ ev, carriesCo P (handle ev)) →
  tasksCarry P (tasks s) →
  (P (world s) → P (world (step s x))) ∧ tasksCarry P (tasks (step s x)).
Proof.
  intros Hh Ht. destruct x as [e [ev|i]]; unfold step; simpl.
  - apply settle_carries; [apply Hh|done].
  - destruct (tasks s !! i) as [t|] eqn:Hi; [|done].
    apply settle_carries.
    + apply (Forall_lookup_1 _ _ _ _ Ht Hi).
    + by apply Forall_delete.
Qed.

Lemma run_carries trace s :
  (∀ ev, carriesCo P (handle ev)) →
  tasksCarry P (tasks s) →
  (P (world s) → P (world (run s trace))) ∧ tasksCarry P (tasks (run s trace)).
Proof.
  intros Hh. revert s. induction trace as [|x trace IH]; intros s Ht; [done|].
  simpl. destruct (step_carries s x Hh Ht) as [HP' Ht'].
  destruct (IH _ Ht') as [HP'' Ht'']. split; [|done]. auto.
Qed.
End carrying.

Ltac carriesCo_step :=
  match goal with
  | |- carriesCo _ (mret _) => apply carriesCo_ret
  | |- carriesCo _ raise => apply carriesCo_raise
  | |- carriesCo _ (sync _) => apply carriesCo_sync
  | |- carriesCo _ (createAuditLogA _) => apply carriesCo_sync
  | |- carriesCo _ (await _) => apply carriesCo_await
  | |- carriesCo _ (catch _ _) => apply carriesCo_catch
  | H : ∀ a, carriesCo _ (tryMatchTextUsersWithPreference a)
    |- carriesCo _ (tryMatchTextUsersWithPreference _) => apply H
  | H : ∀ a, carriesCo _ (tryMatchVideoUsersWithPreference a)
    |- carriesCo _ (tryMatchVideoUsersWithPreference _) => apply H
  | H : ∀ a b c, carriesCo _ (handleJoinQueue a b c)
    |- carriesCo _ (handleJoinQueue _ _ _) => apply H
  | H : ∀ a b c, carriesCo _ (handleStartVideo a b c)
    |- carriesCo _ (handleStartVideo _ _ _) => apply H
  | H : ∀ a b c d, carriesCo _ (handleNextUser a b c d)
    |- carriesCo _ (handleNextUser _ _ _ _) => apply H
  | H : ∀ a b, carriesCo _ (handleSendMessage a b)
    |- carriesCo _ (handleSendMessage _ _) => apply H
  | H : ∀ a b, carriesCo _ (handleWebRTCSignal a b)
    |- carriesCo _ (handleWebRTCSignal _ _) => apply H
  | H : ∀ a b c, carriesCo _ (handleReportUser a b c)
    |- carriesCo _ (handleReportUser _ _ _) => apply H
  | H : ∀ a b c, carriesCo _ (handleDisconnect a b c)
    |- carriesCo _ (handleDisconnect _ _ _) => apply H
  | |- carriesCo _ (_ ≫= _) => apply carriesCo_bind; [|intros ?]
  | |- carriesCo _ (match ?x with _ => _ end) => destruct x
  | |- carriesCo _ (if ?b then _ else _) => destruct b
  | |- keeps _ _ => keeps_step
  end.

(** What a property must allow for every handler to carry it across
    every await. *)
Section every_handler.
Context {P : World -> Prop}.
Hypothesis P_emit : ∀ x, keeps P (emit x).
Hypothesis P_randomUUID : keeps P randomUUID.
Hypothesis P_audit : ∀ insertLog, keeps P (createAuditLogM insertLog).
Hypothesis P_leave : ∀ sid, keeps P (update (removeUserFromRoom sid)).
Hypothesis P_enqueue : ∀ user, keeps P (update (addUserToQueue user)).
Hypothesis P_enqueue_video : ∀ user, keeps P (update (addUserToVideoQueue user)).
Hypothesis P_clear : ∀ r, keeps P (update (clearWebRTCState r)).
Hypothesis P_room : ∀ avoidPairing user1 user2 e w,
  P w →
  selectPair (waitingQueue (storage w)) avoidPairing = Some (user1, Some user2) →
  P (mkWorld (snd (createRoom (uuids w) (now e) user1 user2 (storage w)))
       (S (uuids w)) (effects w)).
Hypothesis P_room_video : ∀ avoidPairing user1 user2 e w,
  P w →
  selectPair (videoWaitingQueue (storage w)) avoidPairing = Some (user1, Some user2) →
  P (mkWorld (set_chatRooms (alter markVideoCall (uuids w))
                (snd (createRoom (uuids w) (now e) user1 user2 (storage w))))
       (S (uuids w)) (effects w)).

Lemma carriesCo_tryMatchText avoidPairing :
  carriesCo P (tryMatchTextUsersWithPreference avoidPairing).
Proof.
  intros e w. unfold tryMatchTextUsersWithPreference.
  rewrite bind_sync. unfold read, getWaitingUsers. cbn beta iota.
  destruct (selectPair (waitingQueue (storage w)) avoidPairing) as [[user1 [user2|]]|]
    eqn:Hsel.
  - rewrite bind_sync, createRoomM_eq.
    apply carriesCo_apply; [|intros HP; exact (P_room _ _ _ e w HP Hsel)].
    unfold send. repeat carriesCo_step.
  - by apply selectPair_defined in Hsel.
  - by constructor.
Qed.

Lemma carriesCo_tryMatchVideo avoidPairing :
  carriesCo P (tryMatchVideoUsersWithPreference avoidPairing).
Proof.
  intros e w. unfold tryMatchVideoUsersWithPreference.
  rewrite bind_sync. unfold read, getWaitingVideoUsers. cbn beta iota.
  destruct (selectPair (videoWaitingQueue (storage w)) avoidPairing)
    as [[user1 [user2|]]|] eqn:Hsel.
  - rewrite bind_sync, createRoomM_eq. unfold mbind at 1. unfold Co_bind.
    rewrite bind_sync_tt, update_eq.
    apply carriesCo_apply; [|intros HP; exact (P_room_video _ _ _ e w HP Hsel)].
    unfold send, setTimeout. repeat carriesCo_step.
  - by apply selectPair_defined in Hsel.
  - by constructor.
Qed.

Lemma keepsCo_tryMatchText avoidPairing :
  keepsCo P (tryMatchTextUsersWithPreference avoidPairing).
Proof. apply carriesCo_keepsCo, carriesCo_tryMatchText. Qed.

Lemma keepsCo_tryMatchVideo avoidPairing :
  keepsCo P (tryMatchVideoUsersWithPreference avoidPairing).
Proof. apply carriesCo_keepsCo, carriesCo_tryMatchVideo. Qed.

Lemma carriesCo_handleJoinQueue sid ip ua : carriesCo P (handleJoinQueue sid ip ua).
Proof.
  pose proof carriesCo_tryMatchText.
  unfold handleJoinQueue, send. cbv zeta. repeat carriesCo_step.
Qed.

Lemma carriesCo_handleStartVideo sid ip ua : carriesCo P (handleStartVideo sid ip ua).
Proof.
  pose proof carriesCo_tryMatchVideo.
  unfold handleStartVideo, send. cbv zeta. repeat carriesCo_step.
Qed.

Lemma carriesCo_handleSendMessage sid content :
  carriesCo P (handleSendMessage sid content).
Proof. unfold handleSendMessage, send. cbv zeta. repeat carriesCo_step. Qed.

Lemma carriesCo_handleNextUser sid ip ua videoMode :
  carriesCo P (handleNextUser sid ip ua videoMode).
Proof.
  pose proof carriesCo_handleJoinQueue. pose proof carriesCo_handleStartVideo.
  unfold handleNextUser, send, setTimeout. cbv zeta. repeat carriesCo_step.
Qed.

Lemma carriesCo_handleWebRTCSignal sid signal :
  carriesCo P (handleWebRTCSignal sid signal).
Proof. unfold handleWebRTCSignal, send. cbv zeta. repeat carriesCo_step. Qed.

Lemma carriesCo_handleReportUser sid ip ua : carriesCo P (handleReportUser sid ip ua).
Proof.
  pose proof carriesCo_handleNextUser.
  unfold handleReportUser, send. cbv zeta. repeat carriesCo_step.
Qed.

Lemma carriesCo_handleDisconnect sid ip ua : carriesCo P (handleDisconnect sid ip ua).
Proof. unfold handleDisconnect, send, setTimeout. cbv zeta. repeat carriesCo_step. Qed.

Lemma carriesCo_handle ev : carriesCo P (handle ev).
Proof.
  pose proof carriesCo_tryMatchText. pose proof carriesCo_tryMatchVideo.
  pose proof carriesCo_handleJoinQueue. pose proof carriesCo_handleStartVideo.
  pose proof carriesCo_handleSendMessage. pose proof carriesCo_handleNextUser.
  pose proof carriesCo_handleWebRTCSignal. pose proof carriesCo_handleReportUser.
  pose proof carriesCo_handleDisconnect.
  destruct ev as [c data|c|[avoidPairing|avoidPairing|r]]; simpl.
  - unfold onMessage, send. cbv zeta. repeat carriesCo_step.
  - unfold onClose. repeat carriesCo_step.
  - repeat carriesCo_step.
  - repeat carriesCo_step.
  - apply carriesCo_ret.
Qed.

(** What holds of a world and is carried by every handler holds of
    every world that is reached from it, whatever handlers were
    suspended when it held. *)
Lemma run_from trace before :
  P (reached before) → P (reached (before ++ trace)).
Proof.
  intros H0. unfold reached, run. rewrite foldl_app.
  apply (run_carries trace _ carriesCo_handle); [|done].
  apply (run_carries before initServer carriesCo_handle). constructor.
Qed.

Lemma reached_keeps trace : P initWorld → P (reached trace).
Proof. apply (run_from trace []). Qed.
End every_handler.
(** * The invariant of the store under interleaving *)

(** ** The handlers of messages and timers keep it at every await *)

Lemma InvW_emit x : keeps InvW (emit x).
Proof. by intros e w. Qed.

Lemma InvW_randomUUID : keeps InvW randomUUID.
Proof. intros e w HI. apply (Inv_mono _ (uuids w)); [done|simpl; lia]. Qed.

Lemma InvW_audit insertLog : keeps InvW (createAuditLogM insertLog).
Proof. intros e w HI. by apply Inv_createAuditLog. Qed.

Lemma InvW_leave sid : keeps InvW (update (removeUserFromRoom sid)).
Proof. intros e w HI. by apply Inv_removeUserFromRoom. Qed.

Lemma InvW_clear r : keeps InvW (update (clearWebRTCState r)).
Proof. intros e w HI. by apply Inv_clearWebRTCState. Qed.

Lemma InvW_tryMatchText avoidPairing :
  keepsCo InvW (tryMatchTextUsersWithPreference avoidPairing).
Proof.
  apply keepsCo_tryMatchText; [apply InvW_emit|apply InvW_audit|].
  intros avoid user1 user2 e w HI Hsel.
  destruct (selected_unmapped _ _ _ _ _ _ HI (or_introl eq_refl) Hsel) as [H1 H2].
  by apply Inv_createRoom.
Qed.

Lemma InvW_tryMatchVideo avoidPairing :
  keepsCo InvW (tryMatchVideoUsersWithPreference avoidPairing).
Proof.
  apply keepsCo_tryMatchVideo; [apply InvW_emit|apply InvW_audit|].
  intros avoid user1 user2 e w HI Hsel.
  destruct (selected_unmapped _ _ _ _ _ _ HI (or_intror eq_refl) Hsel) as [H1 H2].
  by apply Inv_markVideoCall, Inv_createRoom.
Qed.

Ltac sync_step :=
  rewrite bind_sync;
  match goal with
  | |- context [match update ?f ?e ?w with _ => _ end] => rewrite (update_eq f e w)
  | |- context [match clock ?e ?w with _ => _ end] =>
      change (clock e w) with (Ok (now e), w)
  | |- context [match findWebSocketBySocketId ?s ?e ?w with _ => _ end] =>
      change (findWebSocketBySocketId s e w) with (Ok (findOpen s (clients e)), w)
  | |- context [match read ?f ?e ?w with _ => _ end] =>
      change (read f e w) with (Ok (f (storage w)), w)
  end;
  cbn beta iota.

Ltac InvW_facts :=
  pose proof InvW_emit; pose proof InvW_randomUUID; pose proof InvW_audit;
  pose proof InvW_leave; pose proof InvW_clear;
  pose proof InvW_tryMatchText; pose proof InvW_tryMatchVideo.

Lemma InvW_handleJoinQueue sid ip ua : keepsCo InvW (handleJoinQueue sid ip ua).
Proof.
  InvW_facts. intros e w HI. unfold handleJoinQueue. cbv zeta.
  do 3 sync_step.
  apply keepsCo_apply.
  - unfold send. repeat keepsCo_step.
  - exact (Inv_rejoin _ _ (mkSocketUser sid (now e) ip ua) HI).
Qed.

Lemma InvW_handleStartVideo sid ip ua : keepsCo InvW (handleStartVideo sid ip ua).
Proof.
  InvW_facts. intros e w HI. unfold handleStartVideo. cbv zeta.
  do 3 sync_step.
  apply keepsCo_apply.
  - unfold send. repeat keepsCo_step.
  - exact (Inv_rejoin_video _ _ (mkSocketUser sid (now e) ip ua) HI).
Qed.

Lemma InvW_handleSendMessage sid content : keepsCo InvW (handleSendMessage sid content).
Proof. InvW_facts. unfold handleSendMessage, send. cbv zeta. repeat keepsCo_step. Qed.

Lemma InvW_handleWebRTCSignal sid signal : keepsCo InvW (handleWebRTCSignal sid signal).
Proof. InvW_facts. unfold handleWebRTCSignal, send. cbv zeta. repeat keepsCo_step. Qed.

(** The second half of [handleNextUser]: whatever has become of the
    room and of the partner while the handler was suspended, both
    leave what they are in and both are queued. *)
Lemma InvW_requeue sid ip ua (video : bool) (partnerId : option string) :
  keepsCo InvW
    (sync (update (removeUserFromRoom sid));;
     match partnerId with
     | Some partnerId =>
         sync (update (removeUserFromRoom partnerId));;
         partnerWs ← sync (findWebSocketBySocketId partnerId);
         time ← sync clock;
         let currentUser := mkSocketUser sid time ip ua in
         let partnerUser := mkSocketUser partnerId time "" "" in
         if video then
           sync (update (addUserToVideoQueue currentUser));;
           sync (update (addUserToVideoQueue partnerUser));;
           sync (send sid (MVideoWaiting "Looking for someone new to video chat with..."));;
           (if unreachable partnerWs then mret tt
            else sync (send partnerId
                         (MVideoWaiting "Looking for someone new to video chat with...")));;
           sync (setTimeout (CbTryMatchVideo [sid; partnerId]) 1000)
         else
           sync (update (addUserToQueue currentUser));;
           sync (update (addUserToQueue partnerUser));;
           sync (send sid (MWaiting "Looking for someone new to chat with..."));;
           (if unreachable partnerWs then mret tt
            else sync (send partnerId (MWaiting "Looking for someone new to chat with...")));;
           sync (setTimeout (CbTryMatchText [sid; partnerId]) 1000)
     | None =>
         if video then await (handleStartVideo sid ip ua)
         else await (handleJoinQueue sid ip ua)
     end).
Proof.
  InvW_facts. pose proof InvW_handleJoinQueue. pose proof InvW_handleStartVideo.
  destruct partnerId as [partnerId|]; [|repeat keepsCo_step].
  intros e w HI. cbv zeta. do 4 sync_step.
  destruct (Inv_requeue_both _ _ (mkSocketUser sid (now e) ip ua)
              (mkSocketUser partnerId (now e) "" "") HI) as [HIq HIv].
  destruct video; do 2 sync_step;
    (apply keepsCo_apply; [unfold send, setTimeout; repeat keepsCo_step|done]).
Qed.

Lemma InvW_handleNextUser sid ip ua videoMode :
  keepsCo InvW (handleNextUser sid ip ua videoMode).
Proof.
  InvW_facts. pose proof InvW_handleJoinQueue. pose proof InvW_handleStartVideo.
  unfold handleNextUser. cbv zeta.
  apply keepsCo_bind; [repeat keepsCo_step|intros [room|]].
  - apply keepsCo_bind; [repeat keepsCo_step|intros _].
    apply keepsCo_bind; [repeat keepsCo_step|intros _].
    apply InvW_requeue.
  - unfold send. repeat keepsCo_step.
Qed.

Lemma InvW_handleReportUser sid ip ua : keepsCo InvW (handleReportUser sid ip ua).
Proof.
  InvW_facts. pose proof InvW_handleNextUser.
  unfold handleReportUser, send. cbv zeta. repeat keepsCo_step.
Qed.

Lemma InvW_onMessage c data : keepsCo InvW (onMessage c data).
Proof.
  InvW_facts. pose proof InvW_handleJoinQueue. pose proof InvW_handleStartVideo.
  pose proof InvW_handleSendMessage. pose proof InvW_handleNextUser.
  pose proof InvW_handleWebRTCSignal. pose proof InvW_handleReportUser.
  unfold onMessage, send. cbv zeta. repeat keepsCo_step.
Qed.

Lemma InvW_onTimeout cb : keepsCo InvW (onTimeout cb).
Proof. InvW_facts. destruct cb; simpl; repeat keepsCo_step. Qed.

(** ** The close handler restores it when it is resumed at once *)

Lemma windowed_onClose c e w : InvW w → windowed InvW (onClose c e w).
Proof.
  intros HI. unfold onClose, await, handleDisconnect.
  rewrite bind_sync. unfold read. cbn beta iota.
  destruct (getRoomByUser (conn_socketId c) (storage w)) as [room|] eqn:Hg.
  2:{ unfold mbind, Co_bind. simpl. intros e'. constructor.
      by apply Inv_removeUserFromRoom. }
  assert (HIc : Inv (clearWebRTCState (id room) (storage w)) (uuids w))
    by (by apply Inv_clearWebRTCState).
  assert (Hgc : getRoomByUser (conn_socketId c) (clearWebRTCState (id room) (storage w))
                = Some room) by exact Hg.
  unfold mbind, Co_bind, mret, Co_ret, createAuditLogA, createAuditLogM, sync.
  run_monad.
  destruct (bool_decide (isVideoCall room = Some true)); simpl;
    (destruct (partnerOf room (conn_socketId c)) as [partnerId|] eqn:Hp; simpl;
     [|intros e'; constructor; by apply Inv_removeUserFromRoom]);
    [destruct (Inv_disconnect _ _ _ _ (mkSocketUser partnerId (now e) "" "") HIc Hgc Hp)
       as [HIq HIv]
    |destruct (Inv_disconnect _ _ _ _ (mkSocketUser partnerId (now e) "" "") HI Hg Hp)
       as [HIq HIv]];
    (destruct (unreachable (findOpen partnerId (clients e))); simpl; intros e';
     (constructor; [|intros e0 w' HI'; by constructor]);
     unfold InvW; simpl;
     rewrite removeUserFromRoom_set_auditLogs; apply Inv_set_auditLogs;
     [by apply Inv_removeUserFromRoom|done]).
Qed.
(** ** The event loop *)

Lemma calm_firstClosing l : calm l → firstClosing l = None.
Proof.
  induction 1 as [|t l [Ht _] _ IH]; [done|]. simpl. by rewrite Ht, IH.
Qed.

Lemma calm_quiet w l : calm l → quiet (mkServer w l) = true.
Proof.
  unfold quiet. simpl. induction 1 as [|t l [Ht _] _ IH]; [done|]. simpl.
  by rewrite Ht, IH.
Qed.

Lemma firstClosing_last l t :
  calm l → closing t = true → firstClosing (l ++ [t]) = Some (length l).
Proof.
  intros Hl Ht. induction Hl as [|t0 l [Ht0 _] _ IH]; simpl; [by rewrite Ht|].
  by rewrite Ht0, IH.
Qed.

Lemma not_quiet_last w l t : closing t = true → quiet (mkServer w (l ++ [t])) = false.
Proof.
  intros Ht. unfold quiet. simpl. rewrite forallb_app. simpl. rewrite Ht.
  by destruct (forallb _ l).
Qed.

Lemma calm_delete l i : calm l → calm (delete i l).
Proof. apply Forall_delete. Qed.

Lemma calm_snoc l t :
  calm l → closing t = false → (∀ e w, InvW w → preserves InvW (continuation t e w)) →
  calm (l ++ [t]).
Proof. intros Hl Ht Hk. apply Forall_app. split; [done|]. by apply Forall_singleton. Qed.

(** A stretch of a handler of a message or of a timer, from a world
    that satisfies the invariant. *)
Lemma settle_calm ev r l :
  closing (mkTask ev (fun _ w => Finished tt w)) = false →
  preserves InvW r → calm l → Orderly (settle ev r l).
Proof.
  intros Hev Hr Hl. destruct Hr as [a w H|w H|w k H Hk]; simpl.
  - by constructor.
  - by constructor.
  - apply Orderly_quiet; [done|]. by apply calm_snoc.
Qed.

(** A stretch of a close handler. *)
Lemma settle_closing ev r l :
  closing (mkTask ev (fun _ w => Finished tt w)) = true →
  windowed InvW r → calm l → Orderly (settle ev r l).
Proof.
  intros Hev Hr Hl. destruct r as [a w|w|w k]; simpl in *.
  - by constructor.
  - by constructor.
  - by apply Orderly_closing.
Qed.

Lemma preserves_windowed (r : Res unit) : preserves InvW r → windowed InvW r.
Proof. intros [a w H|w H|w k H Hk]; simpl; auto. Qed.

Lemma step_Orderly s x : Orderly s → allowed s (snd x) = true → Orderly (step s x).
Proof.
  intros Hs Hx. destruct x as [e turn]. simpl in Hx.
  destruct Hs as [w l HI Hl|w l t Hl Ht Hk]; unfold step; simpl.
  - destruct turn as [ev|i].
    + destruct ev as [c data|c|cb]; simpl.
      * apply settle_calm; [done| |done]. by apply InvW_onMessage.
      * apply settle_closing; [done| |done]. by apply windowed_onClose.
      * apply settle_calm; [done| |done]. by apply InvW_onTimeout.
    + destruct (l !! i) as [t|] eqn:Hi; [|by constructor].
      destruct (Forall_lookup_1 _ _ _ _ Hl Hi) as [Ht Hk].
      apply settle_calm; [exact Ht|by apply Hk|by apply calm_delete].
  - unfold allowed in Hx. simpl in Hx. rewrite (firstClosing_last l t Hl Ht) in Hx.
    destruct turn as [ev|i]; [done|]. apply bool_decide_eq_true in Hx as ->.
    rewrite lookup_app_r by done. rewrite Nat.sub_diag. simpl.
    assert (Hdel : delete (length l) (l ++ [t]) = l).
    { clear. induction l as [|t0 l IH]; [done|]. simpl. by rewrite IH. }
    rewrite Hdel.
    apply settle_closing; [exact Ht| |done].
    apply preserves_windowed, Hk.
Qed.

Lemma run_Orderly trace s :
  Orderly s → closeUninterrupted s trace = true → Orderly (run s trace).
Proof.
  revert s. induction trace as [|x trace IH]; intros s Hs Ht; [done|].
  simpl in Ht. apply andb_true_iff in Ht as [Hx Ht].
  simpl. apply IH; [by apply step_Orderly|done].
Qed.

(** The invariant holds in the world left by a trace in which close
    handlers run uninterrupted, when no close handler is suspended. *)
Lemma settled_inv trace : settled trace = true → InvW (reached trace).
Proof.
  unfold settled, reached. intros [Ht Hq]%andb_true_iff.
  assert (Hs : Orderly (run initServer trace)).
  { apply run_Orderly; [|done]. apply Orderly_quiet; [apply Inv_new|constructor]. }
  destruct Hs as [w l HI Hl|w l t Hl Hc Hk]; [done|].
  by rewrite not_quiet_last in Hq.
Qed.

(** A handler of a message or of a timer that runs alone keeps the
    invariant. *)
Lemma alone_inv ev e w :
  closing (mkTask ev (fun _ w => Finished tt w)) = false →
  InvW w → InvW (snd (atomically (handle ev) e w)).
Proof.
  intros Hev HI. apply keepsCo_alone; [|done].
  destruct ev as [c data|c|cb]; [apply InvW_onMessage|done|apply InvW_onTimeout].
Qed.
(** * Properties of the handlers *)

(** ** The matchmaker, run alone *)

(** C5. The matchmaker of either queue, run alone, on every world and
    avoid list: with fewer than two users waiting it does nothing; with
    an empty avoid list, or with exactly two users waiting, it pairs
    the two oldest; with more than two waiting and an avoid list of two
    it pairs the two oldest users outside the list when there are two,
    the only user outside the list with the oldest user of the list
    when there is one, and the two oldest when there is none. *)
Theorem matchmaker_algorithm (video : bool) (e : Env) (w : World)
    (avoidPairing : list string) :
  let waitingUsers := queueOf video (storage w) in
  let after := snd (atomically (attemptMatch video avoidPairing) e w) in
  (length waitingUsers < 2 → after = w)
  ∧ ∀ w0 w1 rest, waitingUsers = w0 :: w1 :: rest →
      (avoidPairing = [] → pairs (storage after) w0 w1)
      ∧ (rest = [] → pairs (storage after) w0 w1)
      ∧ (rest ≠ [] → length avoidPairing = 2 →
         match filter (fun user => socketId user ∉ avoidPairing) waitingUsers with
         | a0 :: a1 :: _ =>
             (socketId a0 ∉ avoidPairing) ∧ (socketId a1 ∉ avoidPairing)
             ∧ pairs (storage after) a0 a1
         | [a0] =>
             (socketId a0 ∉ avoidPairing)
             ∧ ∃ user2,
                 find (fun user => bool_decide (socketId user ∈ avoidPairing)) waitingUsers
                 = Some user2
                 ∧ socketId user2 ∈ avoidPairing
                 ∧ pairs (storage after) a0 user2
         | [] => pairs (storage after) w0 w1
         end).
Proof.
  intros waitingUsers after.
  assert (Hafter : after = snd (attemptMatchSeq video avoidPairing e w))
    by (subst after; by rewrite attemptMatch_alone).
  clearbody after. subst after. split.
  - intros Hlen. apply (selectPair_few _ avoidPairing) in Hlen.
    destruct video; simpl; [by rewrite tryMatchVideo_none|by rewrite tryMatchText_none].
  - intros w0 w1 rest Hq. split; [|split].
    + intros ->. apply attemptMatch_pairs. fold waitingUsers. rewrite Hq.
      apply selectPair_standard. by left.
    + intros ->. apply attemptMatch_pairs. fold waitingUsers. rewrite Hq.
      apply selectPair_standard. by right.
    + intros Hrest Ha. destruct rest as [|w2 rest]; [done|].
      pose proof (selectPair_avoiding w0 w1 w2 rest avoidPairing Ha) as Hsel.
      cbv zeta in Hsel. rewrite <- Hq in Hsel.
      destruct (filter (fun user => socketId user ∉ avoidPairing) waitingUsers)
        as [|a0 [|a1 l]] eqn:Hf.
      * by apply attemptMatch_pairs.
      * assert (Hlen : 2 < length waitingUsers) by (rewrite Hq; simpl; lia).
        destruct (find_avoided _ _ _ Hlen Hf) as (u2 & Hfind & Hav & _).
        assert (a0 ∈ [a0]) as Hin0 by constructor. rewrite <- Hf in Hin0.
        apply list_elem_of_filter in Hin0 as [Hn0 _].
        split; [done|]. exists u2. split; [done|]. split; [done|].
        apply attemptMatch_pairs. by rewrite <- Hfind.
      * assert (a0 ∈ a0 :: a1 :: l ∧ a1 ∈ a0 :: a1 :: l) as [H0 H1]
          by (split; repeat constructor).
        rewrite <- Hf in H0, H1.
        apply list_elem_of_filter in H0 as [? _], H1 as [? _].
        split; [done|]. split; [done|]. by apply attemptMatch_pairs.
Qed.

(** The text queue [A; B; C; D] with no avoid list: [A] and [B] are
    paired. *)
Lemma matchmaker_algorithm_witness :
  let user := fun sid => mkSocketUser sid 0 "" "" in
  let w := mkWorld (mkMemStorage [] [user "A"; user "B"; user "C"; user "D"] [] ∅ ∅ ∅) 0 [] in
  pairs (storage (snd (atomically (attemptMatch false []) (mkEnv [] 0) w)))
    (user "A") (user "B").
Proof.
  intros user w.
  exact (proj1 (proj2 (matchmaker_algorithm false (mkEnv [] 0) w []) (user "A") (user "B")
                  [user "C"; user "D"] eq_refl) eq_refl).
Defined.

(** ** Mutual exclusion *)





(** ** Relaying a message *)

Lemma findOpen_reachable sid clients ws :
  findOpen sid clients = Some ws → unreachable (findOpen sid clients) = false.
Proof.
  intros H. rewrite H. unfold findOpen in H. apply find_some in H as [_ H].
  apply andb_true_iff in H as [_ H]. simpl. by rewrite H.
Qed.

(** C6. A sender whose room has a partner with an open socket sends
    [text]: the handler returns, and what it sends is exactly one
    [message] to the partner followed by exactly one [message_sent] to
    the sender, both carrying the first 1000 code units of [text] (all
    of [text] when it is shorter); of a text of 5000 code units, 1000
    arrive.  The [send_message] payload reaches this handler. *)
Theorem message_relay (e : Env) (w : World) (c : Connection) (text : JsString)
    (room : ChatRoom) (partnerId : string) (partnerWs : ExtendedWebSocket) :
  getRoomByUser (conn_socketId c) (storage w) = Some room →
  partnerOf room (conn_socketId c) = Some partnerId →
  findOpen partnerId (clients e) = Some partnerWs →
  ∃ delivered w',
    atomically (handleSendMessage (conn_socketId c) (JStr text)) e w = (Ok tt, w')
    ∧ atomically (onMessage c (Some (sendMessagePayload text))) e w = (Ok tt, w')
    ∧ effects w' = effects w ++
        [Send partnerId (MMessage delivered);
         Send (conn_socketId c)
           (MMessageSent (mkChatMessage (msg_id delivered) (content delivered)
                            (msg_timestamp delivered) true))]
    ∧ partnerId ≠ conn_socketId c
    ∧ isOwn delivered = false
    ∧ content delivered = take 1000 text
    ∧ length (content delivered) = min 1000 (length text)
    ∧ (length text = 5000 → length (content delivered) = 1000).
Proof.
  intros Hg Hp Hws. rewrite handleSendMessage_alone, onMessage_alone.
  assert (Hrun : ∃ w', handleSendMessageSeq (conn_socketId c) (JStr text) e w = (Ok tt, w')
                       ∧ effects w' = effects w ++
                           [Send partnerId
                              (MMessage (mkChatMessage (uuids w) (take 1000 text) (now e) false));
                            Send (conn_socketId c)
                              (MMessageSent
                                 (mkChatMessage (uuids w) (take 1000 text) (now e) true))]).
  { unfold handleSendMessageSeq, createAuditLogM, substring_0_1000. run_monad.
    rewrite Hg, Hp. simpl. rewrite (findOpen_reachable _ _ _ Hws). simpl.
    eexists. split; [reflexivity|]. simpl. by rewrite <- app_assoc. }
  destruct Hrun as (w' & Hrun & Heff).
  exists (mkChatMessage (uuids w) (take 1000 text) (now e) false), w'.
  split; [done|]. split.
  { unfold onMessageSeq, try_catch.
    change (get_prop (sendMessagePayload text) "type") with (Some (JStr (lit "send_message"))).
    change (get_prop (sendMessagePayload text) "content") with (Some (JStr text)).
    cbn [strict_eq_lit].
    change (bool_decide (lit "send_message" = lit "join_queue")) with false.
    change (bool_decide (lit "send_message" = lit "send_message")) with true.
    cbv iota. cbn [default]. change (Datatypes.id (JStr text)) with (JStr text).
    by rewrite Hrun. }
  split; [done|]. split; [by apply partnerOf_spec in Hp as [? _]|].
  split; [done|]. split; [done|]. simpl. rewrite length_take. split; [done|].
  intros ->. done.
Qed.

(** "A", in room 0 with "B" whose socket is open, sends 5000 code
    units. *)
Lemma message_relay_witness :
  let room := mkChatRoom 0 ("A", "B") 0 None in
  let w := mkWorld (mkMemStorage [] [] [] {[0 := room]} {["A" := 0; "B" := 0]} ∅) 1 [] in
  let e := mkEnv [mkWs (Some "B") OPEN] 7 in
  let text := repeat 97%N 5000 in
  ∃ delivered w',
    atomically (handleSendMessage "A" (JStr text)) e w = (Ok tt, w')
    ∧ effects w' = [Send "B" (MMessage delivered);
                    Send "A" (MMessageSent
                                (mkChatMessage (msg_id delivered) (content delivered)
                                   (msg_timestamp delivered) true))]
    ∧ length (content delivered) = 1000.
Proof.
  intros room w e text.
  destruct (message_relay e w (mkConnection "A" "" "") text room "B" (mkWs (Some "B") OPEN)
              eq_refl eq_refl eq_refl)
    as (delivered & w' & Hrun & _ & Heff & _ & _ & _ & _ & Hlen).
  exists delivered, w'. split; [exact Hrun|]. split; [exact Heff|].
  apply Hlen. apply repeat_length.
Defined.

(** ** A partner that is gone *)

(** What [handleSendMessage] does for a sender whose partner has no open
    socket: the notice, the teardown, and nothing else. *)
Lemma handleSendMessage_partner_gone (e : Env) (w : World) (sid : string) (content : jsval)
    (room : ChatRoom) (partnerId : string) :
  getRoomByUser sid (storage w) = Some room →
  partnerOf room sid = Some partnerId →
  unreachable (findOpen partnerId (clients e)) = true →
  handleSendMessageSeq sid content e w
  = (Ok tt, mkWorld (removeUserFromRoom sid (storage w)) (uuids w)
              (effects w ++ [Send sid (MPartnerDisconnected "Your partner has disconnected")])).
Proof.
  intros Hg Hp Hws. unfold handleSendMessageSeq. run_monad.
  rewrite Hg, Hp. simpl. by rewrite Hws.
Qed.

(** C4, at a failing input.  "A" and "B" join and are paired; the socket
    of "B" is closing when "A" sends a message.  "A" gets the
    partner-disconnected notice and the room is gone, but "A" is put on
    no queue, no waiting notice is sent, and no match attempt is
    scheduled. *)
Theorem lost_partner_not_requeued :
  getRoomByUser "A" (storage pairedAB) = Some (mkChatRoom 2 ("A", "B") 2 None)
  ∧ effects sentToLostPartner
    = effects pairedAB ++ [Send "A" (MPartnerDisconnected "Your partner has disconnected")]
  ∧ getRoomByUser "A" (storage sentToLostPartner) = None
  ∧ waitingQueue (storage sentToLostPartner) = []
  ∧ videoWaitingQueue (storage sentToLostPartner) = []
  ∧ ∀ cb ms, SetTimeout cb ms ∉ effects sentToLostPartner.
Proof.
  assert (Heff : effects sentToLostPartner
                 = effects pairedAB
                   ++ [Send "A" (MPartnerDisconnected "Your partner has disconnected")])
    by (vm_compute; reflexivity).
  split; [vm_compute; reflexivity|]. split; [exact Heff|].
  split; [vm_compute; reflexivity|]. split; [vm_compute; reflexivity|].
  split; [vm_compute; reflexivity|].
  intros cb ms. rewrite Heff. vm_compute.
  intros H. repeat (apply elem_of_cons in H as [H|H]; [discriminate H|]).
  by apply elem_of_nil in H.
Qed.

(** ** Payloads the server cannot process *)

(** C7, as stated, fails on a well-formed payload with an unknown type
    tag: [{type: 'dance'}] gets no answer at all. *)
Lemma unknown_type_gets_no_error :
  let c := mkConnection "A" "10.0.0.1" "ua" in
  let e := mkEnv [mkWs (Some "A") OPEN] 1 in
  let data := Some (JObj [(lit "type", JStr (lit "dance"))]) in
  ¬ answersErrorOnly c initWorld (snd (atomically (onMessage c data) e initWorld)).
Proof.
  intros c e data [[message H] _]. vm_compute in H. by apply elem_of_nil in H.
Qed.

(** C7, amended.  A payload that [JSON.parse] rejects, or that parses to
    [null], is answered with the generic error event and changes
    nothing else.  A payload that parses to anything else and whose
    [type] is none of the six known tags is only logged: when the
    [type] can be converted to a string for the log line, nothing is
    sent and the world is unchanged; when the conversion raises (the
    [type] is an object with an own [toString], or an array that holds
    one), the sender gets the generic error event and nothing else
    changes. *)
Theorem protocol_errors (c : Connection) (e : Env) (w : World) (data : option jsval) :
  (data = None ∨ data = Some JNull →
   atomically (onMessage c data) e w
   = (Ok tt, mkWorld (storage w) (uuids w)
               (effects w ++ [Send (conn_socketId c) genericError])))
  ∧ (∀ message ty,
       data = Some message → get_prop message "type" = Some ty → knownType ty = false →
       atomically (onMessage c data) e w
       = (Ok tt,
          if toStringThrows ty
          then mkWorld (storage w) (uuids w)
                 (effects w ++ [Send (conn_socketId c) genericError])
          else w)).
Proof.
  split.
  - intros [-> | ->]; by rewrite onMessage_alone.
  - intros message ty -> Hty Hknown. rewrite onMessage_alone.
    unfold onMessageSeq, try_catch. rewrite Hty.
    unfold knownType in Hknown.
    repeat (apply orb_false_iff in Hknown as [Hknown ?]).
    repeat match goal with H : strict_eq_lit ty _ = false |- _ => rewrite H; clear H end.
    by destruct (toStringThrows ty).
Qed.

(** Text that is not JSON, the payload [{type: 'dance'}], and the
    payload [{type: {toString: 0}}]. *)
Lemma protocol_errors_witness :
  let c := mkConnection "A" "10.0.0.1" "ua" in
  let e := mkEnv [mkWs (Some "A") OPEN] 1 in
  let odd := JObj [(lit "toString", JNum 0)] in
  atomically (onMessage c None) e initWorld
  = (Ok tt, mkWorld newMemStorage 0 [Send "A" genericError])
  ∧ atomically (onMessage c (Some (JObj [(lit "type", JStr (lit "dance"))]))) e initWorld
    = (Ok tt, initWorld)
  ∧ atomically (onMessage c (Some (JObj [(lit "type", odd)]))) e initWorld
    = (Ok tt, mkWorld newMemStorage 0 [Send "A" genericError]).
Proof.
  intros c e odd. split; [|split].
  - exact (proj1 (protocol_errors c e initWorld None) (or_introl eq_refl)).
  - exact (proj2 (protocol_errors c e initWorld
                    (Some (JObj [(lit "type", JStr (lit "dance"))])))
             _ (JStr (lit "dance")) eq_refl eq_refl eq_refl).
  - exact (proj2 (protocol_errors c e initWorld (Some (JObj [(lit "type", odd)])))
             _ odd eq_refl eq_refl eq_refl).
Defined.

(** ** The audit records of a pairing *)

Lemma map_set_fresh {V} (k : nat) (v : V) (m : list (nat * V)) :
  k ∉ m.*1 → map_set k v m = m ++ [(k, v)].
Proof.
  induction m as [|[k0 v0] m IH]; simpl; [done|].
  rewrite not_elem_of_cons. intros [Hne Hk].
  rewrite bool_decide_eq_false_2 by done. by rewrite IH.
Qed.





(** ** Avoiding the pair that was just split *)

Lemma attemptMatch_queue video e w avoidPairing user1 user2 :
  selectPair (queueOf video (storage w)) avoidPairing = Some (user1, Some user2) →
  queueOf video (storage (snd (attemptMatchSeq video avoidPairing e w)))
  = filter (fun user => socketId user ≠ socketId user2)
      (filter (fun user => socketId user ≠ socketId user1) (queueOf video (storage w))).
Proof.
  intros Hsel. destruct video; simpl in Hsel |- *.
  - rewrite (tryMatchVideo_eval _ _ _ _ _ Hsel). cbv zeta. cbn [snd].
    by destruct (bothOpen e user1 user2).
  - rewrite (tryMatchText_eval _ _ _ _ _ Hsel). cbv zeta. cbn [snd].
    by destruct (bothOpen e user1 user2).
Qed.

(** C3, at a failing input.  "A" and "B" are paired, "A" asks for the
    next user, so both wait on the text queue and a re-match avoiding
    them is scheduled; then "C" joins, before the timer fires.  The
    join handler runs the matchmaker at once, with no avoid list: it
    pairs "A" with "B" again and leaves "C" waiting, and the scheduled
    re-match, when it fires, finds "C" alone and does nothing.  Every
    handler runs alone. *)
Theorem join_repairs_split_pair :
  let conn := fun sid => mkConnection sid "10.0.0.1" "ua" in
  let open := fun sid => mkWs (Some sid) OPEN in
  let everyone := [open "A"; open "B"; open "C"] in
  let split :=
    [(mkEnv everyone 1, EvMessage (conn "A") (Some joinQueuePayload));
     (mkEnv everyone 2, EvMessage (conn "B") (Some joinQueuePayload));
     (mkEnv everyone 3, EvMessage (conn "A") (Some nextUserPayload))] in
  let joinC := (mkEnv everyone 4, EvMessage (conn "C") (Some joinQueuePayload)) in
  let timer := (mkEnv everyone 5, EvTimeout (CbTryMatchText ["A"; "B"])) in
  let w := reached (alone split) in
  let w' := reached (alone (split ++ [joinC])) in
  let w'' := reached (alone (split ++ [joinC; timer])) in
  ids (waitingQueue (storage w)) = ["A"; "B"]
  ∧ SetTimeout (CbTryMatchText ["A"; "B"]) 1000 ∈ effects w
  ∧ roomMates (storage w') "A" "B"
  ∧ ids (waitingQueue (storage w')) = ["C"]
  ∧ ¬ avoidanceHolds (storage w') "A" "B" "C"
  ∧ storage w'' = storage w'.
Proof.
  intros conn open everyone split joinC timer w w' w''.
  assert (Hab : roomMates (storage w') "A" "B").
  { exists (mkChatRoom 7 ("A", "B") 4 None). by vm_compute. }
  split; [by vm_compute|]. split.
  { vm_compute. repeat first [apply list_elem_of_here | apply list_elem_of_further]. }
  split; [exact Hab|]. split; [by vm_compute|]. split; [|by vm_compute].
  by intros [_ Hnot].
Qed.

(** X26. In every world that a settled trace leaves, when the re-match
    scheduled by a next action, which carries the avoid list of the two
    users [a] and [b] it split, fires on a queue (text or video) that
    holds exactly [a], [b] and a third user [c], in this order, and
    runs alone, it pairs [c] with [a] and leaves [b] alone on the
    queue: [a] and [b] are not paired again and [c] is not left
    waiting. *)
Theorem avoidance_on_delayed_rematch (trace : list (Env * Turn)) (video : bool)
    (e : Env) (a b c : SocketUser) :
  settled trace = true →
  let w := reached trace in
  let avoidPairing := [socketId a; socketId b] in
  let cb := if video then CbTryMatchVideo avoidPairing else CbTryMatchText avoidPairing in
  let w' := snd (atomically (handle (EvTimeout cb)) e w) in
  queueOf video (storage w) = [a; b; c] →
  pairs (storage w') c a
  ∧ queueOf video (storage w') = [b]
  ∧ avoidanceHolds (storage w') (socketId a) (socketId b) (socketId c).
Proof.
  intros Hs w avoidPairing cb w' Hq.
  assert (HI : InvW w) by (by apply settled_inv).
  assert (HI' : InvW w') by (by apply alone_inv; [destruct video|]).
  assert (Hnd : NoDup [socketId a; socketId b; socketId c]).
  { change [socketId a; socketId b; socketId c] with (ids [a; b; c]). rewrite <- Hq.
    destruct video; [apply (inv_video_nodup _ _ HI)|apply (inv_text_nodup _ _ HI)]. }
  apply NoDup_cons in Hnd as [Ha Hnd]. apply NoDup_cons in Hnd as [Hb _].
  rewrite !not_elem_of_cons in Ha. rewrite not_elem_of_cons in Hb.
  destruct Ha as (Hab & Hac & _). destruct Hb as [Hbc _].
  assert (Hsel : selectPair (queueOf video (storage w)) avoidPairing = Some (c, Some a)).
  { rewrite Hq, selectPair_avoiding by done. subst avoidPairing.
    rewrite filter_cons_False by (intros H; apply H; constructor).
    rewrite filter_cons_False by (intros H; apply H; repeat constructor).
    rewrite filter_cons_True.
    2:{ rewrite !not_elem_of_cons. repeat split; try congruence. apply not_elem_of_nil. }
    simpl. rewrite bool_decide_eq_true_2 by constructor. done. }
  assert (Hw' : w' = snd (attemptMatchSeq video avoidPairing e w)).
  { subst w' cb. rewrite handle_alone. by destruct video. }
  assert (Hpairs : pairs (storage w') c a) by (rewrite Hw'; by apply attemptMatch_pairs).
  assert (Hqueue : queueOf video (storage w') = [b]).
  { rewrite Hw', (attemptMatch_queue _ _ _ _ _ _ Hsel), Hq.
    rewrite (filter_cons_True _ a), (filter_cons_True _ b), (filter_cons_False _ c)
      by (try intros ?; congruence).
    simpl.
    rewrite (filter_cons_False _ a), (filter_cons_True _ b)
      by (try intros ?; congruence).
    done. }
  split; [done|]. split; [done|].
  destruct (pairs_getRoomByUser _ _ _ Hpairs) as (room & Hc & Ha & Hu).
  split; [left; by exists room|].
  intros (room' & _ & Hb').
  assert (Hmb : userRoomMap (storage w') !! socketId b = None).
  { apply (inv_queued _ _ HI').
    destruct video; [right|left]; simpl in Hqueue;
      unfold getWaitingVideoUsers, getWaitingUsers in Hqueue; rewrite Hqueue;
      apply list_elem_of_here. }
  unfold getRoomByUser in Hb'. by rewrite Hmb in Hb'.
Qed.

(** The re-match scheduled for "A" and "B" fires after
    [splitThenThird]. *)
Lemma avoidance_on_delayed_rematch_witness :
  let a := mkSocketUser "A" 5 "10.0.0.1" "ua" in
  let b := mkSocketUser "B" 5 "" "" in
  let c := mkSocketUser "C" 6 "" "" in
  let e := mkEnv [mkWs (Some "A") OPEN; mkWs (Some "B") OPEN; mkWs (Some "C") OPEN] 7 in
  let w := reached (alone splitThenThird) in
  let w' := snd (atomically (handle (EvTimeout (CbTryMatchText ["A"; "B"]))) e w) in
  settled (alone splitThenThird) = true
  ∧ queueOf false (storage w) = [a; b; c]
  ∧ SetTimeout (CbTryMatchText ["A"; "B"]) 1000 ∈ effects w
  ∧ pairs (storage w') c a
  ∧ queueOf false (storage w') = [b].
Proof.
  intros a b c e w w'.
  assert (Hs : settled (alone splitThenThird) = true) by (vm_compute; reflexivity).
  assert (Hq : queueOf false (storage w) = [a; b; c]) by (vm_compute; reflexivity).
  split; [exact Hs|]. split; [exact Hq|]. split.
  { vm_compute. repeat first [apply list_elem_of_here | apply list_elem_of_further]. }
  destruct (avoidance_on_delayed_rematch (alone splitThenThird) false e a b c Hs Hq)
    as (Hp & Hb & _).
  split; [exact Hp|exact Hb].
Defined.

(** * Further properties of the store *)

(** ** Queues *)

(** X1. Enqueueing again replaces the earlier entry of the same socket,
    on the text queue and on the video queue: after two enqueues the
    store is the one the second enqueue alone gives.  After any
    enqueue, on the text queue and on the video queue alike, the entry
    is the last of its queue, its identifier occurs nowhere before it,
    and the entries of the other identifiers keep their order. *)
Theorem requeue_replaces (user1 user2 : SocketUser) (st : MemStorage) :
  socketId user1 = socketId user2 →
  addUserToQueue user2 (addUserToQueue user1 st) = addUserToQueue user2 st
  ∧ addUserToVideoQueue user2 (addUserToVideoQueue user1 st) = addUserToVideoQueue user2 st
  ∧ (∃ others,
       waitingQueue (addUserToQueue user2 st) = others ++ [user2]
       ∧ (socketId user2 ∉ ids others)
       ∧ others = filter (fun user => socketId user ≠ socketId user2) (waitingQueue st))
  ∧ (∃ others,
       videoWaitingQueue (addUserToVideoQueue user2 st) = others ++ [user2]
       ∧ (socketId user2 ∉ ids others)
       ∧ others
         = filter (fun user => socketId user ≠ socketId user2) (videoWaitingQueue st)).
Proof.
  intros Heq.
  assert (Hq : ∀ q, filter (fun user => socketId user ≠ socketId user2)
                      (filter (fun user => socketId user ≠ socketId user1) q ++ [user1])
                    = filter (fun user => socketId user ≠ socketId user2) q).
  { intros q. rewrite Heq, filter_app, filter_out_twice.
    rewrite filter_cons_False by (intros H; by apply H). by rewrite app_nil_r. }
  split; [|split; [|split]].
  - unfold addUserToQueue, removeUserFromQueue, set_waitingQueue. simpl. by rewrite Hq.
  - unfold addUserToVideoQueue, removeUserFromVideoQueue, set_videoWaitingQueue. simpl.
    by rewrite Hq.
  - eexists. split; [reflexivity|]. split; [apply ids_filter_out|done].
  - eexists. split; [reflexivity|]. split; [apply ids_filter_out|done].
Qed.

(** "A" enqueues twice on the text queue, with "B" in between, and the
    same on the video queue. *)
Lemma requeue_replaces_witness :
  let user := fun sid t => mkSocketUser sid t "" "" in
  let st := addUserToQueue (user "B" 2%Z) (addUserToQueue (user "A" 1%Z) newMemStorage) in
  let st' := addUserToVideoQueue (user "B" 2%Z)
               (addUserToVideoQueue (user "A" 1%Z) newMemStorage) in
  waitingQueue (addUserToQueue (user "A" 3%Z) st) = [user "B" 2%Z; user "A" 3%Z]
  ∧ videoWaitingQueue (addUserToVideoQueue (user "A" 3%Z) st')
    = [user "B" 2%Z; user "A" 3%Z].
Proof.
  intros user st st'.
  destruct (requeue_replaces (user "A" 1%Z) (user "A" 3%Z)
              (addUserToQueue (user "B" 2%Z) (addUserToQueue (user "A" 1%Z) newMemStorage))
              eq_refl) as (_ & _ & (others & Hq & _ & Ho) & _).
  destruct (requeue_replaces (user "A" 1%Z) (user "A" 3%Z)
              (addUserToVideoQueue (user "B" 2%Z)
                 (addUserToVideoQueue (user "A" 1%Z) newMemStorage))
              eq_refl) as (_ & _ & _ & (others' & Hq' & _ & Ho')).
  subst st st'. rewrite Hq, Ho, Hq', Ho'. split; reflexivity.
Defined.

(** X2. Taking a socket off the text queue right after enqueueing it
    gives the store in which it was taken off without being enqueued;
    when it was not queued before, that is the store before the
    enqueue.  The video queue is never touched. *)
Theorem enqueue_then_remove (user : SocketUser) (st : MemStorage) :
  removeUserFromQueue (socketId user) (addUserToQueue user st)
  = removeUserFromQueue (socketId user) st
  ∧ videoWaitingQueue (addUserToQueue user st) = videoWaitingQueue st
  ∧ (socketId user ∉ ids (waitingQueue st) →
     removeUserFromQueue (socketId user) (addUserToQueue user st) = st).
Proof.
  assert (Heq : removeUserFromQueue (socketId user) (addUserToQueue user st)
                = removeUserFromQueue (socketId user) st).
  { unfold addUserToQueue, removeUserFromQueue, set_waitingQueue. simpl.
    rewrite filter_app, filter_out_twice.
    rewrite filter_cons_False by (intros H; by apply H). by rewrite app_nil_r. }
  split; [done|]. split; [done|].
  intros Hnot. rewrite Heq. unfold removeUserFromQueue, set_waitingQueue.
  rewrite filter_out_absent by done. by destruct st.
Qed.

(** "A" is enqueued on an empty store and taken off again. *)
Lemma enqueue_then_remove_witness :
  removeUserFromQueue "A" (addUserToQueue (mkSocketUser "A" 1 "" "") newMemStorage)
  = newMemStorage.
Proof.
  apply (proj2 (proj2 (enqueue_then_remove (mkSocketUser "A" 1 "" "") newMemStorage))).
  apply not_elem_of_nil.
Defined.

(** ** Rooms *)

Lemma MemStorage_ext (a b : MemStorage) :
  auditLogs a = auditLogs b →
  waitingQueue a = waitingQueue b →
  videoWaitingQueue a = videoWaitingQueue b →
  chatRooms a = chatRooms b →
  userRoomMap a = userRoomMap b →
  webrtcState a = webrtcState b →
  a = b.
Proof. destruct a, b. simpl. congruence. Qed.

(** X3. Creating a room under an identifier that is not in use, for two
    users that have no room, and removing that room again restores the
    rooms, the user-to-room mapping and the WebRTC state; what remains
    of the creation is that the two users are off both queues. *)
Theorem createRoom_then_removeRoom (roomId : nat) (time : Z) (user1 user2 : SocketUser)
    (st : MemStorage) :
  chatRooms st !! roomId = None →
  webrtcState st !! roomId = None →
  userRoomMap st !! socketId user1 = None →
  userRoomMap st !! socketId user2 = None →
  removeRoom roomId (snd (createRoom roomId time user1 user2 st))
  = removeUserFromVideoQueue (socketId user2)
      (removeUserFromVideoQueue (socketId user1)
         (removeUserFromQueue (socketId user2)
            (removeUserFromQueue (socketId user1) st))).
Proof.
  intros Hr Hw H1 H2.
  set (room := mkChatRoom roomId (socketId user1, socketId user2) time None).
  unfold removeRoom.
  replace (chatRooms (snd (createRoom roomId time user1 user2 st)) !! roomId)
    with (Some room) by (symmetry; apply lookup_insert_eq).
  apply MemStorage_ext.
  - reflexivity.
  - reflexivity.
  - reflexivity.
  - change (delete roomId (<[roomId:=room]> (chatRooms st)) = chatRooms st).
    by rewrite delete_insert_id.
  - change (delete (socketId user2)
              (delete (socketId user1)
                 (<[socketId user2:=roomId]>
                    (<[socketId user1:=roomId]> (userRoomMap st))))
            = userRoomMap st).
    apply map_eq. intros x.
    destruct (decide (x = socketId user2)) as [->|Hn2].
    { by rewrite lookup_delete_eq, H2. }
    rewrite lookup_delete_ne by done.
    destruct (decide (x = socketId user1)) as [->|Hn1].
    { by rewrite lookup_delete_eq, H1. }
    rewrite lookup_delete_ne by done. by rewrite !lookup_insert_ne.
  - change (delete roomId (webrtcState st) = webrtcState st). by apply delete_id.
Qed.

(** Room 0 for "A" and "B", both waiting on the text queue. *)
Lemma createRoom_then_removeRoom_witness :
  let a := mkSocketUser "A" 1 "" "" in
  let b := mkSocketUser "B" 2 "" "" in
  let st := addUserToQueue b (addUserToQueue a newMemStorage) in
  removeRoom 0 (snd (createRoom 0 3 a b st)) = newMemStorage.
Proof.
  intros a b st.
  rewrite (createRoom_then_removeRoom 0 3 a b st eq_refl eq_refl eq_refl eq_refl).
  reflexivity.
Defined.

(** X4. In every world that a settled trace leaves, when one
    participant of a room leaves through [removeUserFromRoom], neither
    participant has a room afterwards and no stored room names either
    of them; every other socket keeps the room it had, and every socket
    but the one leaving keeps its place on the queues. *)
Theorem teardown_cascade (trace : list (Env * Turn)) (sid : string) (room : ChatRoom) :
  settled trace = true →
  let st := storage (reached trace) in
  let st' := removeUserFromRoom sid st in
  getRoomByUser sid st = Some room →
  getRoomByUser (fst (users room)) st' = None
  ∧ getRoomByUser (snd (users room)) st' = None
  ∧ (∀ x, x = fst (users room) ∨ x = snd (users room) → ¬ inRoom st' x)
  ∧ (∀ x, x ≠ fst (users room) → x ≠ snd (users room) →
          getRoomByUser x st' = getRoomByUser x st)
  ∧ (∀ x, x ≠ sid →
          (inTextQueue st' x ↔ inTextQueue st x)
          ∧ (inVideoQueue st' x ↔ inVideoQueue st x)).
Proof.
  intros Hs st st' Hg.
  assert (HI : Inv st (uuids (reached trace))) by (by apply settled_inv).
  destruct (Inv_removeUserFromRoom _ _ sid HI) as (HI' & _ & _ & _). fold st' in HI'.
  destruct (removeUserFromRoom_queues sid st) as (Hq & Hv & _). fold st' in Hq, Hv.
  unfold getRoomByUser in Hg.
  destruct (userRoomMap st !! sid) as [r|] eqn:Hm; [|done].
  assert (Hmap : userRoomMap st'
                 = delete (snd (users room)) (delete (fst (users room)) (userRoomMap st))).
  { subst st'. unfold removeUserFromRoom, removeRoom. by rewrite Hm, Hg. }
  assert (Hrooms : chatRooms st' = delete r (chatRooms st)).
  { subst st'. unfold removeUserFromRoom, removeRoom. by rewrite Hm, Hg. }
  assert (Hgone : ∀ x, x = fst (users room) ∨ x = snd (users room) →
                       userRoomMap st' !! x = None).
  { intros x Hx. rewrite Hmap, !lookup_delete_None. destruct Hx; auto. }
  split; [|split; [|split; [|split]]].
  - unfold getRoomByUser. rewrite Hgone; auto.
  - unfold getRoomByUser. rewrite Hgone; auto.
  - intros x Hx [[r' Hr']|(r' & room' & Hr' & Hin)].
    + rewrite Hgone in Hr'; done.
    + destruct (inv_rooms _ _ HI' _ _ Hr') as [H1 H2].
      assert (Hx' : userRoomMap st' !! x = Some r') by (destruct Hin as [->| ->]; done).
      rewrite Hgone in Hx'; done.
  - intros x Hx1 Hx2. unfold getRoomByUser.
    rewrite Hmap, !lookup_delete_ne by done.
    destruct (userRoomMap st !! x) as [r'|] eqn:Hmx; [|done].
    rewrite Hrooms. apply lookup_delete_ne. intros <-.
    destruct (inv_mapped _ _ HI _ _ Hmx) as (room' & Hr' & Hin).
    rewrite Hg in Hr'. injection Hr' as <-. destruct Hin; done.
  - intros x Hx. unfold inTextQueue, inVideoQueue. rewrite Hq, Hv, !ids_filter. tauto.
Qed.

(** "A" and "B" are paired and "A" leaves. *)
Lemma teardown_cascade_witness :
  let st := storage (reached (alone joinAB)) in
  getRoomByUser "A" (removeUserFromRoom "A" st) = None
  ∧ getRoomByUser "B" (removeUserFromRoom "A" st) = None.
Proof.
  intros st.
  destruct (teardown_cascade
              (alone joinAB)
              "A" (mkChatRoom 2 ("A", "B") 2 None)
              ltac:(vm_compute; reflexivity)
              ltac:(vm_compute; reflexivity)) as (HA & HB & _).
  split; [exact HA|exact HB].
Defined.

(** ** The audit log *)

Lemma sortLogs_newest (a : AuditLog) (l : list AuditLog) :
  (∀ b, b ∈ l → (timestamp b < timestamp a)%Z) →
  sortLogs (l ++ [a]) = a :: sortLogs l.
Proof.
  induction l as [|b l IH]; intros Hl; [done|].
  simpl. rewrite IH by (intros c Hc; apply Hl; by right). simpl.
  assert (timestamp b < timestamp a)%Z by (apply Hl; by left).
  unfold compareLogs. destruct (timestamp a - timestamp b <=? 0)%Z eqn:Hc; [|done].
  apply Z.leb_le in Hc. lia.
Qed.

(** X5. A record written under an unused identifier, at a time later
    than the timestamps of all stored records, is the first record
    that [getAuditLogs] returns, for the default limit and for any
    positive limit. *)
Theorem newest_record_first (uuid : nat) (time : Z) (insertLog : InsertAuditLog)
    (limit : option Z) (st : MemStorage) :
  uuid ∉ (auditLogs st).*1 →
  (∀ log, log ∈ map_values (auditLogs st) → (timestamp log < time)%Z) →
  (0 < default 100 limit)%Z →
  head (getAuditLogs limit (snd (createAuditLog uuid time insertLog st)))
  = Some (fst (createAuditLog uuid time insertLog st)).
Proof.
  intros Hfresh Hold Hpos. unfold getAuditLogs, slice0. simpl.
  rewrite map_set_fresh by done. unfold map_values. rewrite map_app. simpl.
  rewrite sortLogs_newest by (intros b Hb; by apply Hold).
  destruct (default 100 limit <? 0)%Z eqn:Hneg; [apply Z.ltb_lt in Hneg; lia|].
  destruct (Z.to_nat (default 100%Z limit)) as [|n] eqn:Hn; [lia|]. done.
Qed.

(** A second record, one millisecond after the first. *)
Lemma newest_record_first_witness :
  let log := fun sid => mkInsertAuditLog sid None "join_queue" None None None in
  let st := snd (createAuditLog 0 10 (log "A") newMemStorage) in
  log_socketId <$> head (getAuditLogs None (snd (createAuditLog 1 11 (log "B") st)))
  = Some "B".
Proof.
  intros log st.
  rewrite (newest_record_first 1 11 (log "B") None st).
  - reflexivity.
  - vm_compute. intros H. apply list_elem_of_singleton in H. discriminate H.
  - intros l Hl. vm_compute in Hl. apply list_elem_of_singleton in Hl as ->. reflexivity.
  - reflexivity.
Defined.

Lemma sortLogs_length (l : list AuditLog) : length (sortLogs l) = length l.
Proof. apply Permutation_length, sortLogs_perm. Qed.

(** A limit that is at least the number of stored records returns all
    of them. *)
Lemma getAuditLogs_all (limit : Z) (st : MemStorage) :
  (Z.of_nat (length (auditLogs st)) <= limit)%Z →
  getAuditLogs (Some limit) st = sortLogs (map_values (auditLogs st)).
Proof.
  intros Hle. unfold getAuditLogs, slice0. simpl.
  destruct (limit <? 0)%Z eqn:Hneg; [apply Z.ltb_lt in Hneg; lia|].
  apply take_ge. rewrite sortLogs_length. unfold map_values. rewrite length_map. lia.
Qed.

(** X6. The limit of [getAuditLogs] at its edges: limit 0 returns
    nothing; a limit that is at least the number of stored records
    returns all of them, sorted; a negative limit, which [slice] counts
    from the end, returns the sorted records without the
    oldest [-limit] ones. *)
Theorem getAuditLogs_limits (limit : Z) (st : MemStorage) :
  let sorted := sortLogs (map_values (auditLogs st)) in
  getAuditLogs (Some 0%Z) st = []
  ∧ (Z.of_nat (length (auditLogs st)) <= limit →
     getAuditLogs (Some limit) st = sorted)%Z
  ∧ (limit < 0 →
     getAuditLogs (Some limit) st
     = take (length (auditLogs st) - Z.to_nat (- limit)) sorted)%Z.
Proof.
  intros sorted.
  assert (Hlen : length sorted = length (auditLogs st)).
  { subst sorted. rewrite (Permutation_length (sortLogs_perm _)).
    unfold map_values. apply length_map. }
  split; [done|]. split.
  - apply getAuditLogs_all.
  - intros Hneg. unfold getAuditLogs, slice0. simpl. fold sorted.
    rewrite (proj2 (Z.ltb_lt _ _) Hneg). f_equal. lia.
Qed.

(** Three records, limited to 5 and to -1. *)
Lemma getAuditLogs_limits_witness :
  let log := fun sid => mkInsertAuditLog sid None "join_queue" None None None in
  let st := snd (createAuditLog 2 30 (log "C")
                   (snd (createAuditLog 1 20 (log "B")
                           (snd (createAuditLog 0 10 (log "A") newMemStorage))))) in
  log_socketId <$> getAuditLogs (Some 5%Z) st = ["C"; "B"; "A"]
  ∧ log_socketId <$> getAuditLogs (Some (-1)%Z) st = ["C"; "B"].
Proof.
  intros log st.
  destruct (getAuditLogs_limits 5 st) as (_ & H5 & _).
  destruct (getAuditLogs_limits (-1) st) as (_ & _ & H1).
  rewrite H5 by (vm_compute; discriminate). rewrite H1 by reflexivity.
  split; reflexivity.
Defined.

Lemma sort_insert_same_time (t : Z) (a : AuditLog) (l : list AuditLog) :
  filter (fun b => timestamp b = t) (sort_insert a l)
  = filter (fun b => timestamp b = t) (a :: l).
Proof.
  induction l as [|b l IH]; [done|]. simpl.
  destruct (compareLogs a b <=? 0)%Z eqn:Hc; [done|].
  apply Z.leb_gt in Hc. unfold compareLogs in Hc.
  destruct (decide (timestamp b = t)) as [Hb|Hb].
  - rewrite (filter_cons_True _ b) by done. rewrite IH.
    rewrite (filter_cons_False _ a) by lia.
    rewrite (filter_cons_False _ a) by lia. by rewrite filter_cons_True.
  - rewrite (filter_cons_False _ b) by done. rewrite IH.
    destruct (decide (timestamp a = t)).
    + rewrite !(filter_cons_True _ a) by done. by rewrite filter_cons_False.
    + rewrite !(filter_cons_False _ a) by done. by rewrite filter_cons_False.
Qed.

Lemma sortLogs_same_time (t : Z) (l : list AuditLog) :
  filter (fun b => timestamp b = t) (sortLogs l) = filter (fun b => timestamp b = t) l.
Proof.
  induction l as [|a l IH]; [done|].
  simpl. rewrite sort_insert_same_time.
  destruct (decide (timestamp a = t)).
  - rewrite !(filter_cons_True _ a) by done. by rewrite IH.
  - rewrite !(filter_cons_False _ a) by done. by rewrite IH.
Qed.

(** X7. The sort of [getAuditLogs] is stable: when all stored records
    fit under the limit, the returned records that carry one given
    timestamp are in the order in which they were written. *)
Theorem same_time_in_write_order (t : Z) (limit : option Z) (st : MemStorage) :
  (Z.of_nat (length (auditLogs st)) <= default 100 limit)%Z →
  filter (fun log => timestamp log = t) (getAuditLogs limit st)
  = filter (fun log => timestamp log = t) (map_values (auditLogs st)).
Proof.
  intros Hle.
  assert (Hall : getAuditLogs limit st = sortLogs (map_values (auditLogs st))).
  { by apply (getAuditLogs_all (default 100%Z limit) st). }
  rewrite Hall. apply sortLogs_same_time.
Qed.

(** Two records written in the same millisecond, after an older one. *)
Lemma same_time_in_write_order_witness :
  let log := fun sid => mkInsertAuditLog sid None "paired" None None None in
  let st := snd (createAuditLog 2 20 (log "B")
                   (snd (createAuditLog 1 20 (log "A")
                           (snd (createAuditLog 0 10 (log "Z") newMemStorage))))) in
  log_socketId <$> filter (fun log => timestamp log = 20%Z) (getAuditLogs None st)
  = ["A"; "B"].
Proof.
  intros log st.
  rewrite (same_time_in_write_order 20 None st) by (vm_compute; discriminate).
  reflexivity.
Defined.

(** ** The shape of rooms and queues *)

Lemma NoDup_ids_filter_any (P : SocketUser -> Prop) `{∀ u, Decision (P u)}
    (q : list SocketUser) :
  NoDup (ids q) → NoDup (ids (filter P q)).
Proof.
  unfold ids. induction q as [|u q IH]; [done|]. simpl.
  rewrite NoDup_cons. intros [Hu Hq].
  destruct (decide (P u)).
  - rewrite filter_cons_True by done. simpl. apply NoDup_cons. split; [|by apply IH].
    intros [v [Hv [_ Hin]%list_elem_of_filter]]%list_elem_of_fmap.
    apply Hu. rewrite Hv. by apply list_elem_of_fmap_2.
  - rewrite filter_cons_False by done. by apply IH.
Qed.

Lemma NoDup_ids_heads (x y : SocketUser) (l : list SocketUser) :
  NoDup (ids (x :: y :: l)) → socketId x ≠ socketId y.
Proof.
  unfold ids. simpl. intros [Hx _]%NoDup_cons Heq. apply Hx. rewrite Heq. constructor.
Qed.

Lemma selectPair_distinct waitingUsers avoidPairing user1 user2 :
  NoDup (ids waitingUsers) →
  selectPair waitingUsers avoidPairing = Some (user1, Some user2) →
  socketId user1 ≠ socketId user2.
Proof.
  intros Hnd.
  destruct waitingUsers as [|w0 [|w1 [|w2 rest]]]; try done.
  - rewrite selectPair_standard by auto. intros [= <- <-]. by eapply NoDup_ids_heads.
  - destruct (decide (length avoidPairing = 2)) as [Ha|Ha].
    + rewrite selectPair_avoiding by done.
      pose proof (NoDup_ids_filter_any (fun user => socketId user ∉ avoidPairing) _ Hnd)
        as Hnd'.
      destruct (filter _ _) as [|a0 [|a1 l]] eqn:Hf.
      * intros [= <- <-]. by eapply NoDup_ids_heads.
      * assert (Hlen : 2 < length (w0 :: w1 :: w2 :: rest)) by (simpl; lia).
        destruct (find_avoided _ _ _ Hlen Hf) as (u2 & -> & Hav & _).
        intros [= <- <-]. intros Heq.
        assert (a0 ∈ [a0]) as Hin0 by constructor. rewrite <- Hf in Hin0.
        apply list_elem_of_filter in Hin0 as [Hn0 _]. apply Hn0. by rewrite Heq.
      * intros [= <- <-]. by eapply NoDup_ids_heads.
    + rewrite selectPair_standard by auto. intros [= <- <-]. by eapply NoDup_ids_heads.
Qed.

Lemma roomsWellFormed_removeUserFromRoom sid st :
  roomsWellFormed st → roomsWellFormed (removeUserFromRoom sid st).
Proof.
  intros Hwf r room. unfold removeUserFromRoom, removeRoom.
  destruct (userRoomMap st !! sid) as [r0|]; simpl; [|apply Hwf].
  destruct (chatRooms st !! r0) as [room0|]; simpl; [|apply Hwf].
  intros [_ Hr]%lookup_delete_Some. by apply Hwf.
Qed.

Lemma chatRooms_removeUserFromRoom sid st r :
  is_Some (chatRooms (removeUserFromRoom sid st) !! r) → is_Some (chatRooms st !! r).
Proof.
  unfold removeUserFromRoom, removeRoom.
  destruct (userRoomMap st !! sid) as [r0|]; simpl; [|done].
  destruct (chatRooms st !! r0) as [room0|]; simpl; [|done].
  intros [room [_ Hr]%lookup_delete_Some]. eauto.
Qed.

Lemma NoDup_ids_snoc q user :
  NoDup (ids q) →
  NoDup (ids (filter (fun u => socketId u ≠ socketId user) q ++ [user])).
Proof.
  intros Hq. unfold ids. rewrite fmap_app. apply NoDup_app.
  split; [by apply NoDup_ids_filter|]. split; [|apply NoDup_singleton].
  intros x Hx ->%list_elem_of_singleton. by eapply ids_filter_out.
Qed.

Lemma shapeOk_createRoom w time user1 user2 :
  shapeOk w → socketId user1 ≠ socketId user2 →
  shapeOk (mkWorld (snd (createRoom (uuids w) time user1 user2 (storage w)))
             (S (uuids w)) (effects w)).
Proof.
  intros (Hq & Hv & Hwf & Hfresh) Hne. split; [|split; [|split]]; simpl.
  - by do 2 apply NoDup_ids_filter.
  - by do 2 apply NoDup_ids_filter.
  - unfold roomsWellFormed. simpl.
    intros r room. destruct (decide (uuids w = r)) as [<-|Hr].
    + rewrite lookup_insert_eq. by intros [= <-].
    + rewrite lookup_insert_ne by done. apply Hwf.
  - intros r. destruct (decide (uuids w = r)) as [<-|Hr]; [lia|].
    rewrite lookup_insert_ne by done. intros H%Hfresh. lia.
Qed.

Lemma shapeOk_same w w' :
  waitingQueue (storage w') = waitingQueue (storage w) →
  videoWaitingQueue (storage w') = videoWaitingQueue (storage w) →
  chatRooms (storage w') = chatRooms (storage w) →
  uuids w ≤ uuids w' →
  shapeOk w → shapeOk w'.
Proof.
  intros Eq Ev Er Hle (Hq & Hv & Hwf & Hfresh). unfold shapeOk, roomsWellFormed.
  rewrite Eq, Ev, Er. split; [done|]. split; [done|]. split; [done|].
  intros r Hr. apply Hfresh in Hr. lia.
Qed.

Lemma shapeOk_markVideoCall w r :
  shapeOk w →
  shapeOk (mkWorld (set_chatRooms (alter markVideoCall r) (storage w)) (uuids w) (effects w)).
Proof.
  intros (Hq & Hv & Hwf & Hfresh). split; [done|]. split; [done|]. split; simpl.
  - unfold roomsWellFormed. simpl.
    intros r' room'. destruct (decide (r = r')) as [->|Hne].
    + rewrite lookup_alter_eq. destruct (chatRooms (storage w) !! r') as [room|] eqn:Hr;
        [|done]. intros [= <-]. simpl. by apply Hwf.
    + rewrite lookup_alter_ne by done. apply Hwf.
  - intros r' Hr'. apply Hfresh. destruct (decide (r = r')) as [->|Hne].
    + rewrite lookup_alter_eq in Hr'. by apply fmap_is_Some in Hr'.
    + by rewrite lookup_alter_ne in Hr'.
Qed.

Lemma shapeOk_reached (trace : list (Env * Turn)) : shapeOk (reached trace).
Proof.
  apply reached_keeps.
  - by intros x e w.
  - intros e w (Hq & Hv & Hwf & Hfresh).
    split; [done|]. split; [done|]. split; [done|].
    intros r Hr. simpl in *. apply Hfresh in Hr. lia.
  - intros insertLog e w H. unfold createAuditLogM. run_monad.
    apply (shapeOk_same w); try done. simpl. lia.
  - intros sid e w (Hq & Hv & Hwf & Hfresh).
    destruct (removeUserFromRoom_queues sid (storage w)) as (Eq & Ev & _).
    unfold shapeOk, update. cbn [snd storage uuids effects].
    split; [|split; [|split]].
    + rewrite Eq. by apply NoDup_ids_filter.
    + rewrite Ev. by apply NoDup_ids_filter.
    + by apply roomsWellFormed_removeUserFromRoom.
    + intros r Hr%chatRooms_removeUserFromRoom. by apply Hfresh.
  - intros user e w (Hq & Hv & Hwf & Hfresh).
    split; [|done]. by apply NoDup_ids_snoc.
  - intros user e w (Hq & Hv & Hwf & Hfresh).
    split; [done|]. split; [|done]. by apply NoDup_ids_snoc.
  - by intros r e w.
  - intros avoidPairing user1 user2 e w H Hsel.
    apply shapeOk_createRoom; [done|].
    apply (selectPair_distinct _ _ _ _ (proj1 H) Hsel).
  - intros avoidPairing user1 user2 e w H Hsel.
    apply (shapeOk_markVideoCall
             (mkWorld (snd (createRoom (uuids w) (now e) user1 user2 (storage w)))
                (S (uuids w)) (effects w)) (uuids w)).
    apply shapeOk_createRoom; [done|].
    apply (selectPair_distinct _ _ _ _ (proj1 (proj2 H)) Hsel).
  - split; [constructor|]. split; [constructor|]. split.
    + intros r room Hr. simpl in Hr. by rewrite lookup_empty in Hr.
    + intros r [room Hr]. simpl in Hr. by rewrite lookup_empty in Hr.
Qed.

(** X8. In every world that a settled trace leaves, every stored room
    is stored under its own identifier and has two different
    participants; [getRoomByUser] returns it for both of them, and each
    of them finds the other as partner. *)
Theorem rooms_well_formed (trace : list (Env * Turn)) (r : nat) (room : ChatRoom) :
  settled trace = true →
  let st := storage (reached trace) in
  chatRooms st !! r = Some room →
  id room = r
  ∧ fst (users room) ≠ snd (users room)
  ∧ getRoomByUser (fst (users room)) st = Some room
  ∧ getRoomByUser (snd (users room)) st = Some room
  ∧ partnerOf room (fst (users room)) = (if truthy_id (snd (users room))
                                         then Some (snd (users room)) else None)
  ∧ partnerOf room (snd (users room)) = (if truthy_id (fst (users room))
                                         then Some (fst (users room)) else None).
Proof.
  intros Hs st Hr.
  destruct (shapeOk_reached trace) as (_ & _ & Hwf & _).
  destruct (Hwf _ _ Hr) as [Hid Hne].
  assert (HI : Inv st (uuids (reached trace))) by (by apply settled_inv).
  destruct (inv_rooms _ _ HI _ _ Hr) as [H1 H2].
  split; [done|]. split; [done|].
  unfold getRoomByUser. rewrite H1, H2. split; [done|]. split; [done|].
  unfold partnerOf, findPartner. split.
  - rewrite bool_decide_eq_false_2 by (intros H; by apply H).
    by rewrite bool_decide_eq_true_2 by (intros H; by apply Hne).
  - by rewrite bool_decide_eq_true_2 by done.
Qed.

(** The room of "A" and "B" after they joined. *)
Lemma rooms_well_formed_witness :
  let room := mkChatRoom 2 ("A", "B") 2 None in
  getRoomByUser "B" (storage (reached (alone joinAB))) = Some room
  ∧ partnerOf room "B" = Some "A".
Proof.
  intros room.
  destruct (rooms_well_formed
              (alone joinAB)
              2 room ltac:(vm_compute; reflexivity)
              ltac:(vm_compute; reflexivity)) as (_ & _ & _ & HB & _ & HP).
  split; [exact HB|exact HP].
Defined.

(** ** The audit log only grows *)

Lemma logsExtend_same logs w w' :
  auditLogs (storage w') = auditLogs (storage w) → uuids w ≤ uuids w' →
  logsExtend logs w → logsExtend logs w'.
Proof.
  intros El Hle [Hp Hk]. unfold logsExtend. rewrite El. split; [done|].
  intros k Hk'. apply Hk in Hk'. lia.
Qed.

Lemma logsExtend_createAuditLog logs w time insertLog effs :
  logsExtend logs w →
  logsExtend logs
    (mkWorld (snd (createAuditLog (uuids w) time insertLog (storage w))) (S (uuids w)) effs).
Proof.
  intros [Hp Hk]. unfold logsExtend. simpl.
  rewrite map_set_fresh by (intros Hin%Hk; lia). split.
  - by apply prefix_app_r.
  - intros k. rewrite fmap_app, elem_of_app. simpl. rewrite list_elem_of_singleton.
    intros [Hin%Hk| ->]; lia.
Qed.

Lemma logsExtend_from logs (before after : list (Env * Turn)) :
  logsExtend logs (reached before) → logsExtend logs (reached (before ++ after)).
Proof.
  apply run_from.
  - by intros x e w0.
  - intros e w0. apply logsExtend_same; simpl; [done|lia].
  - intros insertLog e w0 H. unfold createAuditLogM. run_monad.
    by apply (logsExtend_createAuditLog logs w0 (now e) insertLog (effects w0)).
  - intros sid e w0. apply logsExtend_same; [|done].
    unfold update. cbn [snd storage].
    by destruct (removeUserFromRoom_queues sid (storage w0)) as (_ & _ & ->).
  - intros user e w0. by apply logsExtend_same.
  - intros user e w0. by apply logsExtend_same.
  - intros r e w0. by apply logsExtend_same.
  - intros avoidPairing user1 user2 e w0 H _.
    refine (logsExtend_same _ _ _ _ _ H); [reflexivity|simpl; lia].
  - intros avoidPairing user1 user2 e w0 H _.
    refine (logsExtend_same _ _ _ _ _ H); [reflexivity|simpl; lia].
Qed.

(** X9. The audit log is append-only: whatever turns of the event loop
    follow, handlers started and resumed in any order, the records
    written so far stay where they are, unchanged, at the front of the
    log, and no record is ever removed. *)
Theorem audit_log_append_only (before after : list (Env * Turn)) :
  auditLogs (storage (reached before))
    `prefix_of` auditLogs (storage (reached (before ++ after)))
  ∧ length (auditLogs (storage (reached before)))
    ≤ length (auditLogs (storage (reached (before ++ after)))).
Proof.
  assert (H0 : logsExtend [] (reached before)).
  { apply (logsExtend_from [] [] before). split; [apply prefix_nil|].
    intros k Hk. simpl in Hk. by apply elem_of_nil in Hk. }
  assert (H : logsExtend (auditLogs (storage (reached before)))
                (reached (before ++ after))).
  { apply logsExtend_from. split; [done|]. apply H0. }
  destruct H as [Hp _]. split; [done|]. by apply prefix_length.
Qed.

(** ** No signaling state *)

Lemma noSignalingState_reached (trace : list (Env * Turn)) :
  noSignalingState (reached trace).
Proof.
  apply reached_keeps.
  - by intros x e w.
  - by intros e w.
  - by intros insertLog e w.
  - intros sid e w H. unfold noSignalingState, update in *. cbn [snd storage].
    unfold removeUserFromRoom, removeRoom.
    destruct (userRoomMap (storage w) !! sid) as [r|]; [|done].
    destruct (chatRooms (storage w) !! r) as [room|]; [|done].
    change (delete r (webrtcState (storage w)) = ∅). rewrite H. apply delete_empty.
  - by intros user e w.
  - by intros user e w.
  - intros r e w H. unfold noSignalingState, update in *.
    change (delete r (webrtcState (storage w)) = ∅). rewrite H. apply delete_empty.
  - by intros avoidPairing user1 user2 e w H _.
  - by intros avoidPairing user1 user2 e w H _.
  - done.
Qed.

(** X10. The server never stores signaling state: in every world it
    can reach, with handlers started and resumed in any order,
    [webrtcState] is empty, so [clearWebRTCState] changes nothing
    there. *)
Theorem no_signaling_state (trace : list (Env * Turn)) (roomId : nat) :
  let st := storage (reached trace) in
  webrtcState st = ∅ ∧ clearWebRTCState roomId st = st.
Proof.
  intros st. pose proof (noSignalingState_reached trace) as H.
  unfold noSignalingState in H. fold st in H. split; [done|].
  unfold clearWebRTCState, set_webrtcState. rewrite H, delete_empty.
  rewrite <- H. by destruct st.
Qed.

(** * Further properties of the handlers *)

(** ** Requests that need a room *)

(** X11. A request that needs a room, from a socket that has none, is
    answered with one error event naming what is missing and changes
    nothing: sending a message and reporting need a room, relaying a
    signal needs a video room (a text room is refused as well). *)
Theorem precondition_errors (sid ip ua : string) (content signal : jsval)
    (e : Env) (w : World) :
  (getRoomByUser sid (storage w) = None →
   atomically (handleSendMessage sid content) e w
   = (Ok tt, sent w (Send sid (MError "You are not in a chat room")))
   ∧ atomically (handleReportUser sid ip ua) e w
     = (Ok tt, sent w (Send sid (MError "No active chat to report"))))
  ∧ (videoRoom (getRoomByUser sid (storage w)) = None →
     atomically (handleWebRTCSignal sid signal) e w
     = (Ok tt, sent w (Send sid (MError "Not in a video chat room")))).
Proof.
  rewrite handleSendMessage_alone, handleReportUser_alone, handleWebRTCSignal_alone.
  split.
  - intros Hg. split.
    + unfold handleSendMessageSeq. run_monad. by rewrite Hg.
    + unfold handleReportUserSeq. run_monad. by rewrite Hg.
  - intros Hv. unfold handleWebRTCSignalSeq. run_monad. by rewrite Hv.
Qed.

(** "A", who joined no queue, sends a message; "A", in the text room of
    [pairedAB], sends a signal. *)
Lemma precondition_errors_witness :
  atomically (handleSendMessage "A" (JStr (lit "hi"))) (mkEnv [] 1) initWorld
  = (Ok tt, sent initWorld (Send "A" (MError "You are not in a chat room")))
  ∧ atomically (handleWebRTCSignal "A" JNull) (mkEnv [] 3) pairedAB
    = (Ok tt, sent pairedAB (Send "A" (MError "Not in a video chat room"))).
Proof.
  split.
  - exact (proj1 (proj1 (precondition_errors "A" "" "" (JStr (lit "hi")) JNull
                           (mkEnv [] 1) initWorld) eq_refl)).
  - exact (proj2 (precondition_errors "A" "" "" JNull JNull (mkEnv [] 3) pairedAB)
             ltac:(vm_compute; reflexivity)).
Defined.

(** ** What a relayed message leaves behind *)

(** X12. The text of a message never reaches the store: relaying two
    different texts from the same world leaves the same store (queues,
    rooms, audit log) and draws the same identifiers, whatever branch
    the handler takes. *)
Theorem message_content_not_stored (sid : string) (text1 text2 : JsString)
    (e : Env) (w : World) :
  storage (snd (atomically (handleSendMessage sid (JStr text1)) e w))
  = storage (snd (atomically (handleSendMessage sid (JStr text2)) e w))
  ∧ uuids (snd (atomically (handleSendMessage sid (JStr text1)) e w))
    = uuids (snd (atomically (handleSendMessage sid (JStr text2)) e w)).
Proof.
  rewrite !handleSendMessage_alone.
  unfold handleSendMessageSeq, createAuditLogM, substring_0_1000. run_monad.
  destruct (getRoomByUser sid (storage w)) as [room|]; [|done].
  destruct (partnerOf room sid) as [partnerId|]; [|done]. simpl.
  by destruct (unreachable (findOpen partnerId (clients e))).
Qed.

(** X13. A [send_message] payload whose [content] is not a string, from
    a sender whose partner is reachable: [substring] raises, the
    dispatcher answers the sender with the generic error event, the
    partner receives nothing and the store is unchanged. *)
Theorem message_without_text (c : Connection) (content : jsval) (e : Env) (w : World)
    (room : ChatRoom) (partnerId : string) (partnerWs : ExtendedWebSocket) :
  getRoomByUser (conn_socketId c) (storage w) = Some room →
  partnerOf room (conn_socketId c) = Some partnerId →
  findOpen partnerId (clients e) = Some partnerWs →
  (∀ text, content ≠ JStr text) →
  fst (atomically (handleSendMessage (conn_socketId c) content) e w) = Throw
  ∧ ∃ w', atomically (onMessage c (Some (sendMessageWith content))) e w = (Ok tt, w')
          ∧ effects w' = effects w ++ [Send (conn_socketId c) genericError]
          ∧ storage w' = storage w.
Proof.
  intros Hg Hp Hws Hcontent. rewrite handleSendMessage_alone, onMessage_alone.
  assert (Hrun : handleSendMessageSeq (conn_socketId c) content e w
                 = (Throw, mkWorld (storage w) (S (uuids w)) (effects w))).
  { unfold handleSendMessageSeq, createAuditLogM, substring_0_1000. run_monad.
    rewrite Hg, Hp. simpl. rewrite (findOpen_reachable _ _ _ Hws). simpl.
    destruct content; try done. by destruct (Hcontent s). }
  split; [by rewrite Hrun|].
  exists (mkWorld (storage w) (S (uuids w))
            (effects w ++ [Send (conn_socketId c) genericError])).
  split; [|done].
  unfold onMessageSeq, try_catch.
  change (get_prop (sendMessageWith content) "type") with (Some (JStr (lit "send_message"))).
  change (get_prop (sendMessageWith content) "content") with (Some content).
  cbn [strict_eq_lit].
  change (bool_decide (lit "send_message" = lit "join_queue")) with false.
  change (bool_decide (lit "send_message" = lit "send_message")) with true.
  cbv iota. cbn [default]. change (Datatypes.id content) with content.
  by rewrite Hrun.
Qed.

(** "A", paired with "B", sends a number as content. *)
Lemma message_without_text_witness :
  let e := mkEnv [mkWs (Some "A") OPEN; mkWs (Some "B") OPEN] 3 in
  let c := mkConnection "A" "10.0.0.1" "ua" in
  ∃ w', atomically (onMessage c (Some (sendMessageWith (JNum 7)))) e pairedAB = (Ok tt, w')
        ∧ effects w' = effects pairedAB ++ [Send "A" genericError].
Proof.
  intros e c.
  destruct (message_without_text c (JNum 7) e pairedAB (mkChatRoom 2 ("A", "B") 2 None)
              "B" (mkWs (Some "B") OPEN)
              ltac:(vm_compute; reflexivity) ltac:(vm_compute; reflexivity)
              ltac:(vm_compute; reflexivity) ltac:(intros text; discriminate))
    as (_ & w' & Hrun & Heff & _).
  exists w'. split; [exact Hrun|exact Heff].
Defined.

(** ** Relaying a signal *)

(** X14. A signal that has a [type], from a socket in a video room
    whose partner is reachable: the partner gets exactly one
    [webrtc_signal] carrying the signal as received, stamped with
    sender and recipient.  When the [type] can be converted to a string
    for the log line, nothing is sent to the sender and the store
    changes by one audit record, which keeps the [type] of the signal
    and nothing else of it.  When the conversion raises (the [type] is
    an object with an own [toString], or an array that holds one), the
    handler raises after it has forwarded the signal: no audit record
    is written, no identifier is drawn, and the dispatcher answers the
    sender with the generic error event. *)
Theorem signal_relay (c : Connection) (signal ty : jsval) (e : Env) (w : World)
    (room : ChatRoom) (partnerId : string) (partnerWs : ExtendedWebSocket) :
  let sid := conn_socketId c in
  let forwarded := Send partnerId (MWebrtcSignal signal sid partnerId) in
  let recorded :=
    mkWorld (snd (createAuditLog (uuids w) (now e) (signalLog sid partnerId ty) (storage w)))
      (S (uuids w)) (effects w ++ [forwarded]) in
  videoRoom (getRoomByUser sid (storage w)) = Some room →
  partnerOf room sid = Some partnerId →
  findOpen partnerId (clients e) = Some partnerWs →
  get_prop signal "type" = Some ty →
  atomically (handleWebRTCSignal sid signal) e w
  = (if toStringThrows ty then (Throw, sent w forwarded) else (Ok tt, recorded))
  ∧ atomically (onMessage c (Some (signalPayload signal))) e w
    = (Ok tt,
       if toStringThrows ty
       then mkWorld (storage w) (uuids w) (effects w ++ [forwarded; Send sid genericError])
       else recorded).
Proof.
  intros sid forwarded recorded Hg Hp Hws Hty.
  rewrite handleWebRTCSignal_alone, onMessage_alone.
  assert (Hrun : handleWebRTCSignalSeq sid signal e w
                 = (if toStringThrows ty then (Throw, sent w forwarded)
                    else (Ok tt, recorded))).
  { unfold handleWebRTCSignalSeq, createAuditLogM. run_monad.
    rewrite Hg, Hp. simpl. rewrite (findOpen_reachable _ _ _ Hws). simpl.
    rewrite Hty. by destruct (toStringThrows ty). }
  split; [exact Hrun|].
  unfold onMessageSeq, try_catch.
  change (get_prop (signalPayload signal) "type") with (Some (JStr (lit "webrtc_signal"))).
  change (get_prop (signalPayload signal) "signal") with (Some signal).
  cbn [strict_eq_lit].
  change (bool_decide (lit "webrtc_signal" = lit "join_queue")) with false.
  change (bool_decide (lit "webrtc_signal" = lit "send_message")) with false.
  change (bool_decide (lit "webrtc_signal" = lit "next_user")) with false.
  change (bool_decide (lit "webrtc_signal" = lit "report_user")) with false.
  change (bool_decide (lit "webrtc_signal" = lit "start_video")) with false.
  change (bool_decide (lit "webrtc_signal" = lit "webrtc_signal")) with true.
  cbv iota. cbn [default]. change (Datatypes.id signal) with signal.
  fold sid. rewrite Hrun. destruct (toStringThrows ty); [|done].
  unfold send, emit, sent. simpl. by rewrite <- app_assoc.
Qed.

(** X15. A [webrtc_signal] payload whose signal is missing or [null],
    under the same conditions: the signal is forwarded to the partner
    first, then reading its [type] raises; the sender gets the generic
    error event and no audit record is written. *)
Theorem signal_without_type (c : Connection) (signal : jsval) (e : Env) (w : World)
    (room : ChatRoom) (partnerId : string) (partnerWs : ExtendedWebSocket) :
  videoRoom (getRoomByUser (conn_socketId c) (storage w)) = Some room →
  partnerOf room (conn_socketId c) = Some partnerId →
  findOpen partnerId (clients e) = Some partnerWs →
  signal = JUndefined ∨ signal = JNull →
  atomically (onMessage c (Some (signalPayload signal))) e w
  = (Ok tt,
     mkWorld (storage w) (uuids w)
       (effects w ++ [Send partnerId (MWebrtcSignal signal (conn_socketId c) partnerId);
                      Send (conn_socketId c) genericError])).
Proof.
  intros Hg Hp Hws Hsig. rewrite onMessage_alone.
  assert (Hrun : handleWebRTCSignalSeq (conn_socketId c) signal e w
                 = (Throw, sent w (Send partnerId
                                     (MWebrtcSignal signal (conn_socketId c) partnerId)))).
  { unfold handleWebRTCSignalSeq, createAuditLogM. run_monad.
    rewrite Hg, Hp. simpl. rewrite (findOpen_reachable _ _ _ Hws). simpl.
    by destruct Hsig as [-> | ->]. }
  unfold onMessageSeq, try_catch.
  change (get_prop (signalPayload signal) "type") with (Some (JStr (lit "webrtc_signal"))).
  change (get_prop (signalPayload signal) "signal") with (Some signal).
  cbn [strict_eq_lit].
  change (bool_decide (lit "webrtc_signal" = lit "join_queue")) with false.
  change (bool_decide (lit "webrtc_signal" = lit "send_message")) with false.
  change (bool_decide (lit "webrtc_signal" = lit "next_user")) with false.
  change (bool_decide (lit "webrtc_signal" = lit "report_user")) with false.
  change (bool_decide (lit "webrtc_signal" = lit "start_video")) with false.
  change (bool_decide (lit "webrtc_signal" = lit "webrtc_signal")) with true.
  cbv iota. cbn [default]. change (Datatypes.id signal) with signal.
  rewrite Hrun. unfold send, emit, sent. simpl. by rewrite <- app_assoc.
Qed.

(** "A" and "B" share a video room; "A" sends an offer, and then a
    signal whose [type] is the object [{toString: 0}]. *)
Lemma signal_relay_witness :
  let e := mkEnv [mkWs (Some "A") OPEN; mkWs (Some "B") OPEN] 3 in
  let c := mkConnection "A" "10.0.0.1" "ua" in
  let offer := JObj [(lit "type", JStr (lit "offer")); (lit "data", JNum 1)] in
  let odd := JObj [(lit "type", JObj [(lit "toString", JNum 0)])] in
  atomically (handleWebRTCSignal "A" offer) e pairedVideoAB
  = (Ok tt,
     mkWorld (snd (createAuditLog (uuids pairedVideoAB) 3
                     (signalLog "A" "B" (JStr (lit "offer"))) (storage pairedVideoAB)))
       (S (uuids pairedVideoAB))
       (effects pairedVideoAB ++ [Send "B" (MWebrtcSignal offer "A" "B")]))
  ∧ atomically (onMessage c (Some (signalPayload odd))) e pairedVideoAB
    = (Ok tt,
       mkWorld (storage pairedVideoAB) (uuids pairedVideoAB)
         (effects pairedVideoAB
          ++ [Send "B" (MWebrtcSignal odd "A" "B"); Send "A" genericError])).
Proof.
  intros e c offer odd. split.
  - exact (proj1 (signal_relay c offer (JStr (lit "offer")) e pairedVideoAB
                    (mkChatRoom 2 ("A", "B") 2 (Some true)) "B" (mkWs (Some "B") OPEN)
                    ltac:(vm_compute; reflexivity) ltac:(vm_compute; reflexivity)
                    ltac:(vm_compute; reflexivity) ltac:(vm_compute; reflexivity))).
  - exact (proj2 (signal_relay c odd (JObj [(lit "toString", JNum 0)]) e pairedVideoAB
                    (mkChatRoom 2 ("A", "B") 2 (Some true)) "B" (mkWs (Some "B") OPEN)
                    ltac:(vm_compute; reflexivity) ltac:(vm_compute; reflexivity)
                    ltac:(vm_compute; reflexivity) ltac:(vm_compute; reflexivity))).
Defined.

(** "A" sends a payload with a [null] signal. *)
Lemma signal_without_type_witness :
  let e := mkEnv [mkWs (Some "A") OPEN; mkWs (Some "B") OPEN] 3 in
  let c := mkConnection "A" "10.0.0.1" "ua" in
  effects (snd (atomically (onMessage c (Some (signalPayload JNull))) e pairedVideoAB))
  = effects pairedVideoAB ++ [Send "B" (MWebrtcSignal JNull "A" "B"); Send "A" genericError].
Proof.
  intros e c.
  rewrite (signal_without_type c JNull e pairedVideoAB
             (mkChatRoom 2 ("A", "B") 2 (Some true)) "B" (mkWs (Some "B") OPEN)
             ltac:(vm_compute; reflexivity) ltac:(vm_compute; reflexivity)
             ltac:(vm_compute; reflexivity) (or_intror eq_refl)).
  reflexivity.
Defined.

(** ** Asking for the next user *)

(** X16. A next request from a socket that has no room but waits on a
    queue changes nothing and is answered with one waiting notice: the
    video notice when the request asks for video or the socket waits on
    the video queue, the text notice otherwise. *)
Theorem next_while_waiting (sid ip ua : string) (videoMode : jsval) (e : Env) (w : World) :
  getRoomByUser sid (storage w) = None →
  inTextQueue (storage w) sid ∨ inVideoQueue (storage w) sid →
  atomically (handleNextUser sid ip ua videoMode) e w
  = (Ok tt,
     sent w (Send sid
               (if truthy videoMode || inQueue sid (videoWaitingQueue (storage w))
                then MVideoWaiting "Still looking for someone to video chat with..."
                else MWaiting "Still looking for someone to chat with..."))).
Proof.
  intros Hg Hq. rewrite handleNextUser_alone. unfold handleNextUserSeq. run_monad.
  rewrite Hg.
  unfold getWaitingUsers, getWaitingVideoUsers.
  assert (Hin : inQueue sid (waitingQueue (storage w))
                || inQueue sid (videoWaitingQueue (storage w)) = true).
  { apply orb_true_iff. destruct Hq; [left|right]; by apply inQueue_spec. }
  rewrite Hin.
  by destruct (truthy videoMode || inQueue sid (videoWaitingQueue (storage w))).
Qed.

(** "A" waits alone on the text queue and asks for the next user. *)
Lemma next_while_waiting_witness :
  let w := reached (alone [(mkEnv [mkWs (Some "A") OPEN] 1,
                            EvMessage (mkConnection "A" "" "") (Some joinQueuePayload))]) in
  atomically (handleNextUser "A" "" "" (JBool false)) (mkEnv [mkWs (Some "A") OPEN] 2) w
  = (Ok tt, sent w (Send "A" (MWaiting "Still looking for someone to chat with..."))).
Proof.
  intros w.
  assert (Hq : inTextQueue (storage w) "A") by (vm_compute; apply list_elem_of_here).
  exact (next_while_waiting "A" "" "" (JBool false) (mkEnv [mkWs (Some "A") OPEN] 2) w
           ltac:(vm_compute; reflexivity) (or_introl Hq)).
Defined.

Lemma queues_addUserToQueue user st :
  waitingQueue (addUserToQueue user st)
  = filter (fun u => socketId u ≠ socketId user) (waitingQueue st) ++ [user]
  ∧ videoWaitingQueue (addUserToQueue user st) = videoWaitingQueue st
  ∧ userRoomMap (addUserToQueue user st) = userRoomMap st
  ∧ chatRooms (addUserToQueue user st) = chatRooms st.
Proof. done. Qed.

Lemma queues_addUserToVideoQueue user st :
  videoWaitingQueue (addUserToVideoQueue user st)
  = filter (fun u => socketId u ≠ socketId user) (videoWaitingQueue st) ++ [user]
  ∧ waitingQueue (addUserToVideoQueue user st) = waitingQueue st
  ∧ userRoomMap (addUserToVideoQueue user st) = userRoomMap st
  ∧ chatRooms (addUserToVideoQueue user st) = chatRooms st.
Proof. done. Qed.

Lemma getRoomByUser_same sid st st' :
  userRoomMap st' = userRoomMap st → chatRooms st' = chatRooms st →
  getRoomByUser sid st' = getRoomByUser sid st.
Proof. unfold getRoomByUser. by intros -> ->. Qed.

(** Where the two participants of a room stand after both have left it
    and have been queued again, in a store that satisfies the
    invariant. *)
Lemma requeue_both_spec (video : bool) st n sid room partnerId (current partner : SocketUser) :
  Inv st n →
  getRoomByUser sid st = Some room →
  partnerOf room sid = Some partnerId →
  socketId current = sid → socketId partner = partnerId →
  let st1 := removeUserFromRoom partnerId (removeUserFromRoom sid st) in
  let st' := if video then addUserToVideoQueue partner (addUserToVideoQueue current st1)
             else addUserToQueue partner (addUserToQueue current st1) in
  queueOf video st' = queueOf video st ++ [current; partner]
  ∧ queueOf (negb video) st' = queueOf (negb video) st
  ∧ getRoomByUser sid st' = None
  ∧ getRoomByUser partnerId st' = None.
Proof.
  intros HI Hg [Hne Hin]%partnerOf_spec Hc Hp st1 st'.
  unfold getRoomByUser in Hg.
  destruct (userRoomMap st !! sid) as [r|] eqn:Hm; [|done].
  destruct (inv_rooms _ _ HI _ _ Hg) as [Hu1 Hu2].
  assert (Hmp : userRoomMap st !! partnerId = Some r) by (destruct Hin as [->| ->]; done).
  assert (Hnot : ∀ x, userRoomMap st !! x = Some r →
                      (x ∉ ids (waitingQueue st)) ∧ (x ∉ ids (videoWaitingQueue st))).
  { intros x Hx. split; intros Hq;
      assert (userRoomMap st !! x = None) by (apply (inv_queued _ _ HI); auto); congruence. }
  destruct (Hnot _ Hm) as [Hsq Hsv]. destruct (Hnot _ Hmp) as [Hpq Hpv].
  destruct (removeUserFromRoom_queues sid st) as (Eq1 & Ev1 & _).
  destruct (removeUserFromRoom_queues partnerId (removeUserFromRoom sid st))
    as (Eq2 & Ev2 & _).
  fold st1 in Eq2, Ev2.
  rewrite Eq1, (filter_out_absent _ _ Hsq), (filter_out_absent _ _ Hpq) in Eq2.
  rewrite Ev1, (filter_out_absent _ _ Hsv), (filter_out_absent _ _ Hpv) in Ev2.
  destruct (Inv_removeUserFromRoom _ _ sid HI) as (HI1 & _ & _ & Hm1).
  destruct (Inv_removeUserFromRoom _ _ partnerId HI1) as (HI2 & _ & _ & Hm2).
  fold st1 in HI2, Hm2.
  assert (Hm1' : userRoomMap st1 !! sid = None)
    by (by apply removeUserFromRoom_map_None).
  assert (Htail : ∀ q, sid ∉ ids q → partnerId ∉ ids q →
            filter (fun u => socketId u ≠ socketId partner)
              (filter (fun u => socketId u ≠ socketId current) q ++ [current])
            ++ [partner]
            = q ++ [current; partner]).
  { intros q Hs Hq. rewrite Hc, Hp, (filter_out_absent q sid Hs), filter_app.
    rewrite (filter_out_absent q partnerId Hq).
    rewrite filter_cons_True by (rewrite Hc; congruence).
    by rewrite <- app_assoc. }
  assert (Hrooms : getRoomByUser sid st1 = None ∧ getRoomByUser partnerId st1 = None).
  { unfold getRoomByUser. by rewrite Hm1', Hm2. }
  destruct video; subst st'; cbn [queueOf negb].
  - unfold getWaitingVideoUsers, getWaitingUsers.
    split; [|split; [done|]].
    + change (filter (fun u => socketId u ≠ socketId partner)
                (filter (fun u => socketId u ≠ socketId current) (videoWaitingQueue st1)
                 ++ [current]) ++ [partner]
              = videoWaitingQueue st ++ [current; partner]).
      rewrite Ev2. by apply Htail.
    + exact Hrooms.
  - unfold getWaitingVideoUsers, getWaitingUsers.
    split; [|split; [done|]].
    + change (filter (fun u => socketId u ≠ socketId partner)
                (filter (fun u => socketId u ≠ socketId current) (waitingQueue st1)
                 ++ [current]) ++ [partner]
              = waitingQueue st ++ [current; partner]).
      rewrite Eq2. by apply Htail.
    + exact Hrooms.
Qed.

Lemma handleNextUser_in_room sid ip ua videoMode e w room partnerId :
  InvW w →
  getRoomByUser sid (storage w) = Some room →
  partnerOf room sid = Some partnerId →
  let video := nextMode videoMode room in
  ∃ w',
    handleNextUserSeq sid ip ua videoMode e w = (Ok tt, w')
    ∧ effects w'
      = effects w ++ requeuedEffects video sid partnerId
                       (negb (unreachable (findOpen partnerId (clients e))))
    ∧ uuids w' = S (uuids w)
    ∧ requeuedTogether video (storage w) (storage w')
        (mkSocketUser sid (now e) ip ua) (mkSocketUser partnerId (now e) "" "").
Proof.
  intros HI Hg Hp video.
  set (log := {| log_id := uuids w; log_socketId := sid;
                 log_partnerSocketId := findPartner room sid;
                 log_action := "next_user"; log_ipAddress := Some ip;
                 log_userAgent := Some ua; timestamp := now e;
                 details := Some (Text "User clicked next to find new partner") |}).
  set (st0 := set_auditLogs (map_set (uuids w) log) (storage w)).
  assert (HI0 : Inv st0 (S (uuids w))) by (by apply Inv_set_auditLogs).
  assert (HIc : Inv (clearWebRTCState (id room) st0) (S (uuids w)))
    by (by apply Inv_clearWebRTCState).
  pose proof (requeue_both_spec video st0 _ sid room partnerId
                (mkSocketUser sid (now e) ip ua) (mkSocketUser partnerId (now e) "" "")
                HI0 Hg Hp eq_refl eq_refl) as Hspec0.
  pose proof (requeue_both_spec video (clearWebRTCState (id room) st0) _ sid room partnerId
                (mkSocketUser sid (now e) ip ua) (mkSocketUser partnerId (now e) "" "")
                HIc Hg Hp eq_refl eq_refl) as Hspecc.
  cbv zeta in Hspec0, Hspecc.
  unfold handleNextUserSeq, createAuditLogM. run_monad. rewrite Hg. simpl.
  fold (nextMode videoMode room). fold video. rewrite Hp. simpl.
  fold log. fold st0.
  unfold requeuedTogether, requeuedEffects, requeuedNotice, rematch.
  destruct video; simpl;
    destruct (unreachable (findOpen partnerId (clients e))); simpl;
    (eexists; split; [reflexivity|]; simpl;
     split; [by rewrite <- ?app_assoc|]; split; [done|]); assumption.
Qed.

(** X17. In every world that a settled trace leaves, a next request
    from a socket in a room, handled alone, splits the room: neither
    participant has a room afterwards, both wait at the tail of one queue, the requester
    before the partner, and the other queue is untouched.  The queue is
    the video queue when the request says so, or says nothing and the
    room is a video room; otherwise the text queue.  The requester is
    notified, the partner too when its socket is open, and a re-match
    that avoids the two is scheduled one second later. *)
Theorem next_splits_room (trace : list (Env * Turn)) (sid ip ua : string)
    (videoMode : jsval) (e : Env) (room : ChatRoom) (partnerId : string) :
  settled trace = true →
  let w := reached trace in
  let video := nextMode videoMode room in
  getRoomByUser sid (storage w) = Some room →
  partnerOf room sid = Some partnerId →
  ∃ w',
    atomically (handleNextUser sid ip ua videoMode) e w = (Ok tt, w')
    ∧ effects w'
      = effects w ++ requeuedEffects video sid partnerId
                       (negb (unreachable (findOpen partnerId (clients e))))
    ∧ requeuedTogether video (storage w) (storage w')
        (mkSocketUser sid (now e) ip ua) (mkSocketUser partnerId (now e) "" "").
Proof.
  intros Hs w video Hg Hp. rewrite handleNextUser_alone.
  assert (HI : InvW w) by (by apply settled_inv).
  destruct (handleNextUser_in_room sid ip ua videoMode e w room partnerId HI Hg Hp)
    as (w' & Hrun & Heff & _ & Hq).
  by exists w'.
Qed.

(** "A", in the text room that [joinAB] leaves, asks for the next user in video
    mode: "A" and "B" end on the video queue. *)
Lemma next_splits_room_witness :
  let e := mkEnv [mkWs (Some "A") OPEN; mkWs (Some "B") OPEN] 3 in
  let w := reached (alone joinAB) in
  ∃ w',
    atomically (handleNextUser "A" "ip" "ua" (JBool true)) e w = (Ok tt, w')
    ∧ effects w' = effects w ++ requeuedEffects true "A" "B" true
    ∧ requeuedTogether true (storage w) (storage w')
        (mkSocketUser "A" 3 "ip" "ua") (mkSocketUser "B" 3 "" "").
Proof.
  intros e w.
  exact (next_splits_room
           (alone joinAB)
           "A" "ip" "ua" (JBool true) e (mkChatRoom 2 ("A", "B") 2 None) "B"
           ltac:(vm_compute; reflexivity)
           ltac:(vm_compute; reflexivity) ltac:(vm_compute; reflexivity)).
Defined.

(** X18. In every world that a settled trace leaves, a report from a
    socket in a room with a partner, handled alone, writes the report, confirms it to the
    reporter and then does what a next request without a mode does: the
    room is split and both participants wait again on the queue of the
    room's kind.  Two identifiers are drawn, for the audit records of
    the report and of the split. *)
Theorem report_then_next (trace : list (Env * Turn)) (sid ip ua : string) (e : Env)
    (room : ChatRoom) (partnerId : string) :
  settled trace = true →
  let w := reached trace in
  let video := default false (isVideoCall room) in
  getRoomByUser sid (storage w) = Some room →
  partnerOf room sid = Some partnerId →
  ∃ w',
    atomically (handleReportUser sid ip ua) e w = (Ok tt, w')
    ∧ effects w'
      = effects w ++ [Send sid (MReportSubmitted "Report submitted successfully")]
        ++ requeuedEffects video sid partnerId
             (negb (unreachable (findOpen partnerId (clients e))))
    ∧ uuids w' = S (S (uuids w))
    ∧ requeuedTogether video (storage w) (storage w')
        (mkSocketUser sid (now e) ip ua) (mkSocketUser partnerId (now e) "" "").
Proof.
  intros Hs w video Hg Hp. rewrite handleReportUser_alone.
  assert (HI : InvW w) by (by apply settled_inv).
  set (log := {| log_id := uuids w; log_socketId := sid;
                 log_partnerSocketId := Some partnerId;
                 log_action := "report"; log_ipAddress := Some ip;
                 log_userAgent := Some ua; timestamp := now e;
                 details := Some (ReportedPartner partnerId) |}).
  set (w1 := mkWorld (set_auditLogs (map_set (uuids w) log) (storage w)) (S (uuids w))
               (effects w ++ [Send sid (MReportSubmitted "Report submitted successfully")])).
  assert (HI1 : InvW w1) by (by apply Inv_set_auditLogs).
  destruct (handleNextUser_in_room sid ip ua JUndefined e w1 room partnerId HI1 Hg Hp)
    as (w' & Hrun & Heff & Hu & Hq).
  exists w'. split; [|split; [|split; [|exact Hq]]].
  - unfold handleReportUserSeq, createAuditLogM. run_monad. rewrite Hg, Hp. simpl.
    fold log. exact Hrun.
  - rewrite Heff. simpl. by rewrite <- app_assoc.
  - exact Hu.
Qed.

(** "A" reports "B" in the text room that [joinAB] leaves. *)
Lemma report_then_next_witness :
  let e := mkEnv [mkWs (Some "A") OPEN; mkWs (Some "B") OPEN] 3 in
  let w := reached (alone joinAB) in
  ∃ w',
    atomically (handleReportUser "A" "ip" "ua") e w = (Ok tt, w')
    ∧ effects w'
      = effects w ++ [Send "A" (MReportSubmitted "Report submitted successfully")]
        ++ requeuedEffects false "A" "B" true
    ∧ uuids w' = S (S (uuids w))
    ∧ requeuedTogether false (storage w) (storage w')
        (mkSocketUser "A" 3 "ip" "ua") (mkSocketUser "B" 3 "" "").
Proof.
  intros e w.
  exact (report_then_next
           (alone joinAB)
           "A" "ip" "ua" e (mkChatRoom 2 ("A", "B") 2 None) "B"
           ltac:(vm_compute; reflexivity)
           ltac:(vm_compute; reflexivity) ltac:(vm_compute; reflexivity)).
Defined.

(** ** A socket that closes *)

(** Where the participants of a room stand after [handleDisconnect]
    has queued the partner and removed the room, in a store that
    satisfies the invariant. *)
Lemma disconnect_spec (video : bool) st n sid room partnerId (partner : SocketUser) :
  Inv st n →
  getRoomByUser sid st = Some room →
  partnerOf room sid = Some partnerId →
  socketId partner = partnerId →
  let st' := removeUserFromRoom sid
               (if video then addUserToVideoQueue partner st
                else addUserToQueue partner st) in
  queueOf video st' = queueOf video st ++ [partner]
  ∧ queueOf (negb video) st' = queueOf (negb video) st
  ∧ getRoomByUser sid st' = None
  ∧ getRoomByUser partnerId st' = None.
Proof.
  intros HI Hg Hp Hs st'. pose proof Hp as [Hne Hin]%partnerOf_spec.
  pose proof Hg as Hg'. unfold getRoomByUser in Hg'.
  destruct (userRoomMap st !! sid) as [r|] eqn:Hm; [|done].
  destruct (inv_rooms _ _ HI _ _ Hg') as [Hu1 Hu2].
  assert (Hmp : userRoomMap st !! partnerId = Some r) by (destruct Hin as [->| ->]; done).
  assert (Hnot : ∀ x, userRoomMap st !! x = Some r →
                      (x ∉ ids (waitingQueue st)) ∧ (x ∉ ids (videoWaitingQueue st))).
  { intros x Hx. split; intros Hq;
      assert (userRoomMap st !! x = None) by (apply (inv_queued _ _ HI); auto); congruence. }
  destruct (Hnot _ Hm) as [Hsq Hsv]. destruct (Hnot _ Hmp) as [Hpq Hpv].
  destruct (removeUserFromRoom_queues sid st) as (Eq1 & Ev1 & _).
  rewrite (filter_out_absent _ _ Hsq) in Eq1. rewrite (filter_out_absent _ _ Hsv) in Ev1.
  assert (Hm' : userRoomMap (removeUserFromRoom sid st) !! partnerId = None).
  { unfold removeUserFromRoom, removeRoom. rewrite Hm, Hg'. simpl.
    rewrite !lookup_delete_None. destruct Hin; auto. }
  assert (Hrooms : getRoomByUser sid (removeUserFromRoom sid st) = None
                   ∧ getRoomByUser partnerId (removeUserFromRoom sid st) = None).
  { split; [apply getRoomByUser_removeUserFromRoom|].
    unfold getRoomByUser. by rewrite Hm'. }
  subst st'. destruct video; cbn [queueOf negb].
  - rewrite removeUserFromRoom_addUserToVideoQueue by congruence.
    unfold getWaitingVideoUsers, getWaitingUsers.
    destruct (queues_addUserToVideoQueue partner (removeUserFromRoom sid st))
      as (Ev & Eq & Em & Ec).
    rewrite Ev, Eq, Ev1, Eq1, Hs, (filter_out_absent _ _ Hpv).
    rewrite !(getRoomByUser_same _ _ _ Em Ec). by destruct Hrooms.
  - rewrite removeUserFromRoom_addUserToQueue by congruence.
    unfold getWaitingVideoUsers, getWaitingUsers.
    destruct (queues_addUserToQueue partner (removeUserFromRoom sid st))
      as (Eq & Ev & Em & Ec).
    rewrite Ev, Eq, Ev1, Eq1, Hs, (filter_out_absent _ _ Hpq).
    rewrite !(getRoomByUser_same _ _ _ Em Ec). by destruct Hrooms.
Qed.

(** The same when only the room is removed. *)
Lemma leave_spec st n sid room partnerId :
  Inv st n →
  getRoomByUser sid st = Some room →
  partnerOf room sid = Some partnerId →
  let st' := removeUserFromRoom sid st in
  waitingQueue st' = waitingQueue st
  ∧ videoWaitingQueue st' = videoWaitingQueue st
  ∧ getRoomByUser sid st' = None
  ∧ getRoomByUser partnerId st' = None
  ∧ (partnerId ∉ ids (waitingQueue st))
  ∧ (partnerId ∉ ids (videoWaitingQueue st)).
Proof.
  intros HI Hg Hp st'. pose proof Hp as [Hne Hin]%partnerOf_spec.
  pose proof Hg as Hg'. unfold getRoomByUser in Hg'.
  destruct (userRoomMap st !! sid) as [r|] eqn:Hm; [|done].
  destruct (inv_rooms _ _ HI _ _ Hg') as [Hu1 Hu2].
  assert (Hmp : userRoomMap st !! partnerId = Some r) by (destruct Hin as [->| ->]; done).
  assert (Hnot : ∀ x, userRoomMap st !! x = Some r →
                      (x ∉ ids (waitingQueue st)) ∧ (x ∉ ids (videoWaitingQueue st))).
  { intros x Hx. split; intros Hq;
      assert (userRoomMap st !! x = None) by (apply (inv_queued _ _ HI); auto); congruence. }
  destruct (Hnot _ Hm) as [Hsq Hsv]. destruct (Hnot _ Hmp) as [Hpq Hpv].
  destruct (removeUserFromRoom_queues sid st) as (Eq1 & Ev1 & _).
  rewrite (filter_out_absent _ _ Hsq) in Eq1. rewrite (filter_out_absent _ _ Hsv) in Ev1.
  assert (Hm' : userRoomMap (removeUserFromRoom sid st) !! partnerId = None).
  { unfold removeUserFromRoom, removeRoom. rewrite Hm, Hg'. simpl.
    rewrite !lookup_delete_None. destruct Hin; auto. }
  subst st'. split; [done|]. split; [done|].
  split; [apply getRoomByUser_removeUserFromRoom|].
  split; [|done]. unfold getRoomByUser. by rewrite Hm'.
Qed.

(** X19. In every world that a settled trace leaves, when a socket in
    a room closes, its partner's socket is open and the close handler
    runs uninterrupted, the partner is told, put
    at the tail of the queue of the room's kind and told that it
    waits, and a match attempt without avoid list is scheduled half a
    second later; the other queue is untouched and neither socket has
    a room afterwards. *)
Theorem disconnect_requeues_partner (trace : list (Env * Turn)) (sid ip ua : string)
    (e : Env) (room : ChatRoom) (partnerId : string) :
  settled trace = true →
  let w := reached trace in
  let video := bool_decide (isVideoCall room = Some true) in
  getRoomByUser sid (storage w) = Some room →
  partnerOf room sid = Some partnerId →
  unreachable (findOpen partnerId (clients e)) = false →
  ∃ w',
    atomically (handleDisconnect sid ip ua) e w = (Ok tt, w')
    ∧ effects w' = effects w ++ partnerLeftEffects video partnerId
    ∧ queueOf video (storage w')
      = queueOf video (storage w) ++ [mkSocketUser partnerId (now e) "" ""]
    ∧ queueOf (negb video) (storage w') = queueOf (negb video) (storage w)
    ∧ getRoomByUser sid (storage w') = None
    ∧ getRoomByUser partnerId (storage w') = None.
Proof.
  intros Hs w video Hg Hp Hun. rewrite handleDisconnect_alone.
  assert (HI : InvW w) by (by apply settled_inv).
  assert (HIc : Inv (clearWebRTCState (id room) (storage w)) (uuids w))
    by (by apply Inv_clearWebRTCState).
  pose proof (disconnect_spec video (storage w) _ sid room partnerId
                (mkSocketUser partnerId (now e) "" "") HI Hg Hp eq_refl) as Hspec0.
  pose proof (disconnect_spec video (clearWebRTCState (id room) (storage w)) _ sid room
                partnerId (mkSocketUser partnerId (now e) "" "") HIc Hg Hp eq_refl)
    as Hspecc.
  cbv zeta in Hspec0, Hspecc.
  unfold handleDisconnectSeq, createAuditLogM. run_monad. rewrite Hg. simpl.
  fold video. rewrite Hp. simpl. rewrite Hun. simpl.
  unfold partnerLeftEffects.
  destruct video; simpl;
    (eexists; split; [reflexivity|]; cbn [effects storage];
     split; [simpl; by rewrite <- ?app_assoc|]);
    rewrite removeUserFromRoom_set_auditLogs; assumption.
Qed.

(** "A", in the text room that [joinAB] leaves, closes while the socket
    of "B" is open. *)
Lemma disconnect_requeues_partner_witness :
  let e := mkEnv [mkWs (Some "B") OPEN] 3 in
  let w := reached (alone joinAB) in
  ∃ w',
    atomically (handleDisconnect "A" "ip" "ua") e w = (Ok tt, w')
    ∧ effects w' = effects w ++ partnerLeftEffects false "B"
    ∧ queueOf false (storage w') = queueOf false (storage w) ++ [mkSocketUser "B" 3 "" ""]
    ∧ queueOf true (storage w') = queueOf true (storage w)
    ∧ getRoomByUser "A" (storage w') = None
    ∧ getRoomByUser "B" (storage w') = None.
Proof.
  intros e w.
  exact (disconnect_requeues_partner
           (alone joinAB) "A" "ip" "ua" e (mkChatRoom 2 ("A", "B") 2 None) "B"
           ltac:(vm_compute; reflexivity)
           ltac:(vm_compute; reflexivity) ltac:(vm_compute; reflexivity)
           ltac:(vm_compute; reflexivity)).
Defined.

(** X20. In every world that a settled trace leaves, when a socket in
    a room closes, its partner's socket is not open and the close
    handler runs uninterrupted, the room is removed
    and nothing else happens to the partner: nothing is sent or
    scheduled, the queues are as they were, and the partner is left
    with no room and on no queue. *)
Theorem disconnect_partner_unreachable (trace : list (Env * Turn)) (sid ip ua : string)
    (e : Env) (room : ChatRoom) (partnerId : string) :
  settled trace = true →
  let w := reached trace in
  getRoomByUser sid (storage w) = Some room →
  partnerOf room sid = Some partnerId →
  unreachable (findOpen partnerId (clients e)) = true →
  ∃ w',
    atomically (handleDisconnect sid ip ua) e w = (Ok tt, w')
    ∧ effects w' = effects w
    ∧ waitingQueue (storage w') = waitingQueue (storage w)
    ∧ videoWaitingQueue (storage w') = videoWaitingQueue (storage w)
    ∧ getRoomByUser sid (storage w') = None
    ∧ getRoomByUser partnerId (storage w') = None
    ∧ ¬ inTextQueue (storage w') partnerId
    ∧ ¬ inVideoQueue (storage w') partnerId.
Proof.
  intros Hs w Hg Hp Hun. rewrite handleDisconnect_alone.
  assert (HI : InvW w) by (by apply settled_inv).
  assert (HIc : Inv (clearWebRTCState (id room) (storage w)) (uuids w))
    by (by apply Inv_clearWebRTCState).
  pose proof (leave_spec (storage w) _ sid room partnerId HI Hg Hp) as Hspec0.
  pose proof (leave_spec (clearWebRTCState (id room) (storage w)) _ sid room
                partnerId HIc Hg Hp) as Hspecc.
  cbv zeta in Hspec0, Hspecc.
  unfold handleDisconnectSeq, createAuditLogM. run_monad. rewrite Hg. simpl.
  rewrite Hp. simpl. rewrite Hun. simpl.
  unfold inTextQueue, inVideoQueue.
  destruct (bool_decide (isVideoCall room = Some true)); simpl;
    (eexists; split; [reflexivity|]; cbn [effects storage]; split; [done|]);
    rewrite removeUserFromRoom_set_auditLogs;
    cbn [set_auditLogs waitingQueue videoWaitingQueue].
  - destruct Hspecc as (Eq & Ev & H1 & H2 & H3 & H4).
    rewrite Eq, Ev. done.
  - destruct Hspec0 as (Eq & Ev & H1 & H2 & H3 & H4).
    rewrite Eq, Ev. done.
Qed.

(** "A", in the text room that [joinAB] leaves, closes while the socket
    of "B" is closing. *)
Lemma disconnect_partner_unreachable_witness :
  let e := mkEnv [mkWs (Some "B") CLOSING] 3 in
  let w := reached (alone joinAB) in
  ∃ w',
    atomically (handleDisconnect "A" "ip" "ua") e w = (Ok tt, w')
    ∧ effects w' = effects w
    ∧ waitingQueue (storage w') = waitingQueue (storage w)
    ∧ videoWaitingQueue (storage w') = videoWaitingQueue (storage w)
    ∧ getRoomByUser "A" (storage w') = None
    ∧ getRoomByUser "B" (storage w') = None
    ∧ ¬ inTextQueue (storage w') "B"
    ∧ ¬ inVideoQueue (storage w') "B".
Proof.
  intros e w.
  exact (disconnect_partner_unreachable
           (alone joinAB) "A" "ip" "ua" e (mkChatRoom 2 ("A", "B") 2 None) "B"
           ltac:(vm_compute; reflexivity)
           ltac:(vm_compute; reflexivity) ltac:(vm_compute; reflexivity)
           ltac:(vm_compute; reflexivity)).
Defined.

(** X21. A socket that closes while it has no room is taken off both
    queues, the other waiting users keeping their places; nothing is
    sent or scheduled and no audit record is written.  The close
    handler does so in one stretch: it returns without being
    suspended. *)
Theorem disconnect_without_room (sid ip ua : string) (e : Env) (w : World) :
  getRoomByUser sid (storage w) = None →
  handleDisconnect sid ip ua e w
  = Finished tt
      (mkWorld (removeUserFromVideoQueue sid (removeUserFromQueue sid (storage w)))
         (uuids w) (effects w))
  ∧ atomically (handleDisconnect sid ip ua) e w
  = (Ok tt,
     mkWorld (removeUserFromVideoQueue sid (removeUserFromQueue sid (storage w)))
       (uuids w) (effects w)).
Proof.
  intros Hg.
  assert (Hrun : handleDisconnect sid ip ua e w
                 = Finished tt
                     (mkWorld (removeUserFromVideoQueue sid
                                 (removeUserFromQueue sid (storage w)))
                        (uuids w) (effects w))).
  { unfold handleDisconnect, mbind, Co_bind, sync, read. cbn [res_bind].
    rewrite Hg. cbn [res_bind mret Co_ret]. rewrite update_eq.
    by rewrite removeUserFromRoom_no_room. }
  split; [exact Hrun|]. unfold atomically. by rewrite Hrun.
Qed.

(** "A" waits alone on the text queue when its socket closes. *)
Lemma disconnect_without_room_witness :
  let w := reached (alone [(mkEnv [mkWs (Some "A") OPEN] 1,
                            EvMessage (mkConnection "A" "" "") (Some joinQueuePayload))]) in
  atomically (handleDisconnect "A" "" "") (mkEnv [] 2) w
  = (Ok tt,
     mkWorld (removeUserFromVideoQueue "A" (removeUserFromQueue "A" (storage w)))
       (uuids w) (effects w)).
Proof.
  intros w.
  exact (proj2 (disconnect_without_room "A" "" "" (mkEnv [] 2) w
                  ltac:(vm_compute; reflexivity))).
Defined.

Lemma handleDisconnect_removes sid ip ua e w :
  ∃ st, storage (snd (handleDisconnectSeq sid ip ua e w)) = removeUserFromRoom sid st.
Proof.
  unfold handleDisconnectSeq, createAuditLogM. run_monad.
  destruct (getRoomByUser sid (storage w)) as [room|]; simpl; [|by eexists].
  destruct (bool_decide (isVideoCall room = Some true)); simpl;
    (destruct (partnerOf room sid) as [partnerId|]; simpl; [|by eexists]);
    destruct (unreachable (findOpen partnerId (clients e))); simpl; by eexists.
Qed.

(** The close handler, run uninterrupted from a world that satisfies
    the invariant, leaves one that satisfies it. *)
Lemma close_alone_inv c e w : InvW w → InvW (snd (atomically (onClose c) e w)).
Proof.
  intros HI. pose proof (windowed_onClose c e w HI) as H.
  unfold atomically. destruct (onClose c e w) as [a w1|w1|w1 k]; simpl in *; [done|done|].
  apply preserves_stops, H.
Qed.

(** X22. In every world that a settled trace leaves, once the close
    handler of a socket has run, uninterrupted, the socket is on no
    queue and in no room. *)
Theorem closed_socket_forgotten (trace : list (Env * Turn)) (e : Env) (c : Connection) :
  settled trace = true →
  let st := storage (snd (atomically (handle (EvClose c)) e (reached trace))) in
  ¬ inTextQueue st (conn_socketId c)
  ∧ ¬ inVideoQueue st (conn_socketId c)
  ∧ ¬ inRoom st (conn_socketId c).
Proof.
  intros Hs st.
  assert (HI : Inv st (uuids (snd (atomically (handle (EvClose c)) e (reached trace))))).
  { apply close_alone_inv. by apply settled_inv. }
  assert (Hst : ∃ st0, st = removeUserFromRoom (conn_socketId c) st0).
  { subst st. rewrite handle_alone. simpl. unfold onCloseSeq.
    apply handleDisconnect_removes. }
  destruct Hst as [st0 Hst]. clearbody st.
  destruct (removeUserFromRoom_queues (conn_socketId c) st0) as (Eq & Ev & _).
  pose proof (getRoomByUser_removeUserFromRoom (conn_socketId c) st0) as Hg.
  rewrite <- Hst in Eq, Ev, Hg.
  unfold inTextQueue, inVideoQueue. rewrite Eq, Ev.
  split; [apply ids_filter_out|]. split; [apply ids_filter_out|].
  assert (Hm : userRoomMap st !! conn_socketId c = None).
  { destruct (userRoomMap st !! conn_socketId c) as [r|] eqn:Hm; [|done].
    destruct (inv_mapped _ _ HI _ _ Hm) as (room & Hr & _).
    unfold getRoomByUser in Hg. rewrite Hm, Hr in Hg. done. }
  intros [[r Hr]|(r & room & Hr & Hu)]; [congruence|].
  destruct (inv_rooms _ _ HI _ _ Hr) as [H1 H2].
  destruct Hu as [Hu|Hu]; rewrite <- Hu in *; congruence.
Qed.

(** "A", in the text room that [joinAB] leaves, closes. *)
Lemma closed_socket_forgotten_witness :
  let e := mkEnv [mkWs (Some "B") OPEN] 3 in
  let c := mkConnection "A" "10.0.0.1" "ua" in
  let st := storage (snd (atomically (handle (EvClose c)) e (reached (alone joinAB)))) in
  ¬ inTextQueue st "A" ∧ ¬ inVideoQueue st "A" ∧ ¬ inRoom st "A".
Proof.
  intros e c.
  exact (closed_socket_forgotten (alone joinAB) e c ltac:(vm_compute; reflexivity)).
Defined.

(** ** Joining a queue *)

(** What an attempt that selects [user1] and [user2] does. *)
Lemma attemptMatch_spec (video : bool) (e : Env) (w : World) (avoidPairing : list string)
    (user1 user2 : SocketUser) :
  selectPair (queueOf video (storage w)) avoidPairing = Some (user1, Some user2) →
  ∃ w',
    attemptMatchSeq video avoidPairing e w = (Ok tt, w')
    ∧ effects w' = effects w ++ pairingEffects video e (uuids w) user1 user2
    ∧ pairedIn video (storage w') (uuids w) (socketId user1) (socketId user2)
    ∧ waitingQueue (storage w')
      = filter (fun user => socketId user ≠ socketId user2)
          (filter (fun user => socketId user ≠ socketId user1) (waitingQueue (storage w)))
    ∧ videoWaitingQueue (storage w')
      = filter (fun user => socketId user ≠ socketId user2)
          (filter (fun user => socketId user ≠ socketId user1)
             (videoWaitingQueue (storage w)))
    ∧ ∀ x, x ≠ socketId user1 → x ≠ socketId user2 →
           userRoomMap (storage w') !! x = userRoomMap (storage w) !! x.
Proof.
  intros Hsel.
  pose proof (createRoom_post (uuids w) (now e) user1 user2 (storage w)) as Hpost.
  cbv zeta in Hpost. destruct Hpost as (Hid & Hus & _ & _ & _ & _ & Hm1 & Hm2 & Hr).
  set (room := fst (createRoom (uuids w) (now e) user1 user2 (storage w))) in *.
  set (st := snd (createRoom (uuids w) (now e) user1 user2 (storage w))) in *.
  assert (Hq : waitingQueue st
               = filter (fun user => socketId user ≠ socketId user2)
                   (filter (fun user => socketId user ≠ socketId user1)
                      (waitingQueue (storage w)))) by done.
  assert (Hv : videoWaitingQueue st
               = filter (fun user => socketId user ≠ socketId user2)
                   (filter (fun user => socketId user ≠ socketId user1)
                      (videoWaitingQueue (storage w)))) by done.
  assert (Hx : ∀ x, x ≠ socketId user1 → x ≠ socketId user2 →
                    userRoomMap st !! x = userRoomMap (storage w) !! x).
  { intros x H1 H2. subst st. simpl. by rewrite !lookup_insert_ne. }
  destruct video; simpl in Hsel |- *.
  - rewrite (tryMatchVideo_eval _ _ _ _ _ Hsel). cbv zeta. fold st.
    assert (Hp : pairedIn true (set_chatRooms (alter markVideoCall (uuids w)) st) (uuids w)
                   (socketId user1) (socketId user2)).
    { exists (markVideoCall room). unfold getRoomByUser. cbn [set_chatRooms userRoomMap chatRooms].
      rewrite Hm1, Hm2, lookup_alter_eq, Hr. done. }
    unfold pairingEffects.
    destruct (bothOpen e user1 user2); eexists; (split; [reflexivity|]);
      cbn [effects storage]; (split; [by rewrite ?app_nil_r|]); done.
  - rewrite (tryMatchText_eval _ _ _ _ _ Hsel). cbv zeta. fold st.
    assert (Hp : pairedIn false st (uuids w) (socketId user1) (socketId user2)).
    { exists room. unfold getRoomByUser. rewrite Hm1, Hm2, Hr. done. }
    unfold pairingEffects.
    destruct (bothOpen e user1 user2); eexists; (split; [reflexivity|]);
      cbn [effects storage]; (split; [by rewrite ?app_nil_r|]); done.
Qed.

Lemma filter_out_heads (h1 h2 : SocketUser) (l : list SocketUser) :
  NoDup (ids (h1 :: h2 :: l)) →
  filter (fun user => socketId user ≠ socketId h2)
    (filter (fun user => socketId user ≠ socketId h1) (h1 :: h2 :: l)) = l.
Proof.
  unfold ids. simpl. rewrite !NoDup_cons, not_elem_of_cons.
  intros [[Hne H1] [H2 _]].
  rewrite filter_cons_False by (intros H; by apply H).
  rewrite filter_cons_True by congruence.
  rewrite (filter_out_absent l (socketId h1)) by done.
  rewrite filter_cons_False by (intros H; by apply H).
  by apply filter_out_absent.
Qed.

(** The handler of a request to wait, up to the match attempt. *)
Lemma joinHandler_eval (video : bool) (sid ip ua : string) (e : Env) (w : World) :
  ∃ log : AuditLog,
    let user := mkSocketUser sid (now e) ip ua in
    let st := removeUserFromRoom sid (storage w) in
    let w1 := mkWorld (set_auditLogs (map_set (uuids w) log)
                         (if video then addUserToVideoQueue user st
                          else addUserToQueue user st))
                (S (uuids w)) (effects w) in
    joinHandlerSeq video sid ip ua e w
    = match attemptMatchSeq video [] e w1 return Outcome unit * World with
      | (Ok _, w2) =>
          match getRoomByUser sid (storage w2) with
          | None => (Ok tt, sent w2 (Send sid (waitingNotice video)))
          | Some _ => (Ok tt, w2)
          end
      | (Throw, w2) => (Throw, w2)
      end.
Proof.
  destruct video;
    [exists {| log_id := uuids w; log_socketId := sid; log_partnerSocketId := None;
               log_action := "join_video_queue"; log_ipAddress := Some ip;
               log_userAgent := Some ua; timestamp := now e;
               details := Some (Text "User joined video chat waiting queue") |}
    |exists {| log_id := uuids w; log_socketId := sid; log_partnerSocketId := None;
               log_action := "join_queue"; log_ipAddress := Some ip;
               log_userAgent := Some ua; timestamp := now e;
               details := Some (Text "User joined waiting queue") |}];
    cbv zeta; unfold joinHandlerSeq, attemptMatchSeq.
  - unfold handleStartVideoSeq, createAuditLogM. run_monad.
    match goal with
    | |- context [tryMatchVideoUsersWithPreferenceSeq [] e ?w1] =>
        destruct (tryMatchVideoUsersWithPreferenceSeq [] e w1) as [[[]|] w2]
    end; simpl; [|done].
    by destruct (getRoomByUser sid (storage w2)).
  - unfold handleJoinQueueSeq, createAuditLogM. run_monad.
    match goal with
    | |- context [tryMatchTextUsersWithPreferenceSeq [] e ?w1] =>
        destruct (tryMatchTextUsersWithPreferenceSeq [] e w1) as [[[]|] w2]
    end; simpl; [|done].
    by destruct (getRoomByUser sid (storage w2)).
Qed.

(** X23. What a request to wait does in every world that a settled
    trace leaves, when its handler runs alone, nothing else running
    between its start and its return, for the text queue
    ([handleJoinQueue]) and for the video queue ([handleStartVideo]).
    The requester is taken off the other queue.  When nobody else waits on the queue it is left waiting
    alone and told so.  When one other user waits, that user and the
    requester are paired, in this order, and the queue is empty; the
    requester is sent no waiting notice.  When two or more others wait,
    the two oldest are paired with each other and the requester waits
    behind the rest and is told so.  The pairing notices are sent only
    when both paired sockets are open; in a video room the user who
    waited longer is the initiator. *)
Theorem join_outcome (video : bool) (trace : list (Env * Turn)) (sid ip ua : string)
    (e : Env) :
  settled trace = true →
  let w := reached trace in
  let user := mkSocketUser sid (now e) ip ua in
  let roomId := S (uuids w) in
  ∃ w',
    atomically (joinHandler video sid ip ua) e w = (Ok tt, w')
    ∧ queueOf (negb video) (storage w')
      = filter (fun u => socketId u ≠ sid) (queueOf (negb video) (storage w))
    ∧ match filter (fun u => socketId u ≠ sid) (queueOf video (storage w)) with
      | [] =>
          queueOf video (storage w') = [user]
          ∧ getRoomByUser sid (storage w') = None
          ∧ effects w' = effects w ++ [Send sid (waitingNotice video)]
      | [h] =>
          queueOf video (storage w') = []
          ∧ pairedIn video (storage w') roomId (socketId h) sid
          ∧ effects w' = effects w ++ pairingEffects video e roomId h user
      | h1 :: h2 :: rest =>
          queueOf video (storage w') = rest ++ [user]
          ∧ pairedIn video (storage w') roomId (socketId h1) (socketId h2)
          ∧ getRoomByUser sid (storage w') = None
          ∧ effects w'
            = effects w ++ pairingEffects video e roomId h1 h2
              ++ [Send sid (waitingNotice video)]
      end.
Proof.
  intros Hs w user roomId. rewrite joinHandler_alone.
  assert (HI : InvW w) by (by apply settled_inv).
  destruct (joinHandler_eval video sid ip ua e w) as [log Heval].
  cbv zeta in Heval. fold user in Heval. rewrite Heval. clear Heval.
  set (st := removeUserFromRoom sid (storage w)).
  set (st1 := if video then addUserToVideoQueue user st else addUserToQueue user st).
  set (w1 := mkWorld (set_auditLogs (map_set (uuids w) log) st1) (S (uuids w)) (effects w)).
  set (others := filter (fun u => socketId u ≠ sid) (queueOf video (storage w))).
  destruct (removeUserFromRoom_queues sid (storage w)) as (Eq & Ev & _). fold st in Eq, Ev.
  assert (HI1 : InvW w1).
  { apply Inv_set_auditLogs. subst st1 st. destruct video.
    - apply (Inv_rejoin_video _ _ user HI).
    - apply (Inv_rejoin _ _ user HI). }
  assert (Hq1 : queueOf video (storage w1) = others ++ [user]).
  { subst others w1 st1. destruct video; cbn [queueOf storage];
      unfold getWaitingVideoUsers, getWaitingUsers;
      cbn [set_auditLogs waitingQueue videoWaitingQueue].
    - destruct (queues_addUserToVideoQueue user st) as (-> & _).
      by rewrite Ev, filter_out_twice.
    - destruct (queues_addUserToQueue user st) as (-> & _).
      by rewrite Eq, filter_out_twice. }
  assert (Hqo : queueOf (negb video) (storage w1)
                = filter (fun u => socketId u ≠ sid) (queueOf (negb video) (storage w))).
  { subst w1 st1. destruct video; cbn [queueOf storage negb];
      unfold getWaitingVideoUsers, getWaitingUsers;
      cbn [set_auditLogs waitingQueue videoWaitingQueue].
    - by destruct (queues_addUserToVideoQueue user st) as (_ & -> & _).
    - by destruct (queues_addUserToQueue user st) as (_ & -> & _). }
  assert (Hin1 : sid ∈ ids (queueOf video (storage w1))).
  { rewrite Hq1. apply ids_snoc. by right. }
  assert (Hnodup : NoDup (ids (queueOf video (storage w1)))).
  { destruct video; [apply (inv_video_nodup _ _ HI1)|apply (inv_text_nodup _ _ HI1)]. }
  assert (Hdisj : ∀ x, x ∈ ids (queueOf video (storage w1)) →
                       (x ∉ ids (queueOf (negb video) (storage w1)))).
  { intros x Hx. destruct video; cbn [queueOf negb] in *.
    - intros Hx'. by apply (inv_disjoint _ _ HI1 x Hx').
    - by apply (inv_disjoint _ _ HI1 x). }
  assert (Hm1 : userRoomMap (storage w1) !! sid = None).
  { apply (inv_queued _ _ HI1). destruct video; cbn [queueOf] in Hin1; auto. }
  assert (Hmatch : ∀ h1 h2 l, queueOf video (storage w1) = h1 :: h2 :: l →
            ∃ w2, attemptMatchSeq video [] e w1 = (Ok tt, w2)
                  ∧ effects w2 = effects w ++ pairingEffects video e roomId h1 h2
                  ∧ pairedIn video (storage w2) roomId (socketId h1) (socketId h2)
                  ∧ queueOf video (storage w2) = l
                  ∧ queueOf (negb video) (storage w2) = queueOf (negb video) (storage w1)
                  ∧ ∀ x, x ≠ socketId h1 → x ≠ socketId h2 →
                         userRoomMap (storage w2) !! x = None →
                         getRoomByUser x (storage w2) = None).
  { intros h1 h2 l Hq.
    assert (Hsel : selectPair (queueOf video (storage w1)) [] = Some (h1, Some h2)).
    { rewrite Hq. apply selectPair_standard. left. simpl. lia. }
    destruct (attemptMatch_spec video e w1 [] h1 h2 Hsel)
      as (w2 & Hrun & Heff & Hp & Hwq & Hvq & Hmx).
    exists w2. split; [done|]. split; [done|]. split; [done|].
    assert (H1 : socketId h1 ∈ ids (queueOf video (storage w1))).
    { rewrite Hq. unfold ids. simpl. apply list_elem_of_here. }
    assert (H2 : socketId h2 ∈ ids (queueOf video (storage w1))).
    { rewrite Hq. unfold ids. simpl. apply list_elem_of_further, list_elem_of_here. }
    apply Hdisj in H1, H2. rewrite Hq in Hnodup.
    split; [|split].
    - destruct video; cbn [queueOf] in *; unfold getWaitingVideoUsers, getWaitingUsers in *.
      + rewrite Hvq, Hq. by apply filter_out_heads.
      + rewrite Hwq, Hq. by apply filter_out_heads.
    - destruct video; cbn [queueOf negb] in *;
        unfold getWaitingVideoUsers, getWaitingUsers in *.
      + rewrite Hwq. by rewrite (filter_out_absent _ _ H1), (filter_out_absent _ _ H2).
      + rewrite Hvq. by rewrite (filter_out_absent _ _ H1), (filter_out_absent _ _ H2).
    - intros x _ _ Hx. unfold getRoomByUser. by rewrite Hx. }
  destruct others as [|h1 [|h2 rest]] eqn:Ho.
  - assert (Hnone : attemptMatchSeq video [] e w1 = (Ok tt, w1)).
    { destruct video; cbn [attemptMatchSeq queueOf] in *;
        [apply tryMatchVideo_none|apply tryMatchText_none];
        apply selectPair_few;
        unfold getWaitingVideoUsers, getWaitingUsers in Hq1; rewrite Hq1; simpl; lia. }
    rewrite Hnone.
    assert (Hg : getRoomByUser sid (storage w1) = None)
      by (unfold getRoomByUser; by rewrite Hm1).
    rewrite Hg. eexists. split; [reflexivity|].
    cbn [sent storage effects]. done.
  - destruct (Hmatch h1 user [] Hq1) as (w2 & Hrun & Heff & Hp & Hq2 & Hqo2 & _).
    rewrite Hrun.
    destruct Hp as (room & Hg1 & Hg2 & Hp). change (socketId user) with sid in Hg2.
    rewrite Hg2. exists w2. split; [done|]. split; [by rewrite Hqo2|].
    split; [done|]. split; [|done]. by exists room.
  - destruct (Hmatch h1 h2 (rest ++ [user]) Hq1) as (w2 & Hrun & Heff & Hp & Hq2 & Hqo2 & Hx).
    rewrite Hrun.
    assert (Hne : sid ≠ socketId h1 ∧ sid ≠ socketId h2).
    { assert (H1 : h1 ∈ others) by (rewrite Ho; apply list_elem_of_here).
      assert (H2 : h2 ∈ others) by (rewrite Ho; apply list_elem_of_further, list_elem_of_here).
      subst others. apply list_elem_of_filter in H1 as [H1 _], H2 as [H2 _]. split; congruence. }
    destruct Hne as [Hn1 Hn2].
    assert (Hg : getRoomByUser sid (storage w2) = None).
    { apply Hx; [done|done|].
      destruct (attemptMatch_spec video e w1 [] h1 h2) as (w2' & Hrun' & _ & _ & _ & _ & Hmx).
      - rewrite Hq1. apply selectPair_standard. left. simpl. lia.
      - rewrite Hrun in Hrun'. injection Hrun' as <-. by rewrite Hmx. }
    rewrite Hg. eexists. split; [reflexivity|].
    cbn [sent storage effects]. split; [by rewrite Hqo2|].
    split; [done|]. split; [done|]. split; [done|]. by rewrite Heff, <- app_assoc.
Qed.

(** "B" asks to wait on the text queue on which "A" waits alone. *)
Lemma join_outcome_witness :
  let joinA := (mkEnv [mkWs (Some "A") OPEN] 1,
                EvMessage (mkConnection "A" "10.0.0.1" "ua") (Some joinQueuePayload)) in
  let e := mkEnv [mkWs (Some "A") OPEN; mkWs (Some "B") OPEN] 2 in
  let w := reached (alone [joinA]) in
  let user := mkSocketUser "B" (now e) "10.0.0.2" "ua" in
  let roomId := S (uuids w) in
  ∃ w',
    atomically (joinHandler false "B" "10.0.0.2" "ua") e w = (Ok tt, w')
    ∧ queueOf (negb false) (storage w')
      = filter (fun u => socketId u ≠ "B") (queueOf (negb false) (storage w))
    ∧ match filter (fun u => socketId u ≠ "B") (queueOf false (storage w)) with
      | [] =>
          queueOf false (storage w') = [user]
          ∧ getRoomByUser "B" (storage w') = None
          ∧ effects w' = effects w ++ [Send "B" (waitingNotice false)]
      | [h] =>
          queueOf false (storage w') = []
          ∧ pairedIn false (storage w') roomId (socketId h) "B"
          ∧ effects w' = effects w ++ pairingEffects false e roomId h user
      | h1 :: h2 :: rest =>
          queueOf false (storage w') = rest ++ [user]
          ∧ pairedIn false (storage w') roomId (socketId h1) (socketId h2)
          ∧ getRoomByUser "B" (storage w') = None
          ∧ effects w'
            = effects w ++ pairingEffects false e roomId h1 h2
              ++ [Send "B" (waitingNotice false)]
      end.
Proof.
  intros joinA e w.
  exact (join_outcome false (alone [joinA]) "B" "10.0.0.2" "ua" e
           ltac:(vm_compute; reflexivity)).
Defined.

(** ** A video partner that is gone *)

(** X24. In every world that a settled trace leaves, a signal from a
    socket in a video room whose partner's socket is not open is not
    relayed:
    the sender is told that the partner has disconnected and the room
    is removed.  Nothing else happens: no audit record is written,
    nothing is scheduled, the queues are as they were, and neither
    participant has a room or waits on a queue afterwards. *)
Theorem signal_partner_gone (trace : list (Env * Turn)) (sid : string) (signal : jsval)
    (e : Env) (room : ChatRoom) (partnerId : string) :
  settled trace = true →
  let w := reached trace in
  videoRoom (getRoomByUser sid (storage w)) = Some room →
  partnerOf room sid = Some partnerId →
  unreachable (findOpen partnerId (clients e)) = true →
  ∃ w',
    atomically (handleWebRTCSignal sid signal) e w = (Ok tt, w')
    ∧ effects w'
      = effects w ++ [Send sid (MPartnerDisconnected "Your video partner has disconnected")]
    ∧ auditLogs (storage w') = auditLogs (storage w)
    ∧ waitingQueue (storage w') = waitingQueue (storage w)
    ∧ videoWaitingQueue (storage w') = videoWaitingQueue (storage w)
    ∧ getRoomByUser sid (storage w') = None
    ∧ getRoomByUser partnerId (storage w') = None
    ∧ ¬ inVideoQueue (storage w') sid
    ∧ ¬ inVideoQueue (storage w') partnerId.
Proof.
  intros Hsettled w Hv Hp Hun. rewrite handleWebRTCSignal_alone.
  assert (HI : InvW w) by (by apply settled_inv).
  assert (Hg : getRoomByUser sid (storage w) = Some room).
  { unfold videoRoom in Hv. destruct (getRoomByUser sid (storage w)) as [room'|]; [|done].
    destruct (bool_decide (isVideoCall room' = Some true)); [|done]. by injection Hv as ->. }
  destruct (leave_spec (storage w) _ sid room partnerId HI Hg Hp)
    as (Eq & Ev & Hs & Hpn & _ & Hpv).
  destruct (removeUserFromRoom_queues sid (storage w)) as (_ & Ev' & El).
  exists (mkWorld (removeUserFromRoom sid (storage w)) (uuids w)
            (effects w
             ++ [Send sid (MPartnerDisconnected "Your video partner has disconnected")])).
  split.
  - unfold handleWebRTCSignalSeq. run_monad. rewrite Hv, Hp. simpl. by rewrite Hun.
  - cbn [storage effects]. unfold inVideoQueue.
    split; [done|]. split; [done|]. split; [done|]. split; [done|].
    split; [done|]. split; [done|]. split.
    + rewrite Ev'. apply ids_filter_out.
    + by rewrite Ev.
Qed.

(** "A" and "B" are in a video room; the socket of "B" is closing when
    "A" sends an offer. *)
Lemma signal_partner_gone_witness :
  let e := mkEnv [mkWs (Some "A") OPEN; mkWs (Some "B") CLOSING] 3 in
  let w := reached (alone startVideoAB) in
  let signal := JObj [(lit "type", JStr (lit "offer"))] in
  ∃ w',
    atomically (handleWebRTCSignal "A" signal) e w = (Ok tt, w')
    ∧ effects w'
      = effects w ++ [Send "A" (MPartnerDisconnected "Your video partner has disconnected")]
    ∧ auditLogs (storage w') = auditLogs (storage w)
    ∧ waitingQueue (storage w') = waitingQueue (storage w)
    ∧ videoWaitingQueue (storage w') = videoWaitingQueue (storage w)
    ∧ getRoomByUser "A" (storage w') = None
    ∧ getRoomByUser "B" (storage w') = None
    ∧ ¬ inVideoQueue (storage w') "A"
    ∧ ¬ inVideoQueue (storage w') "B".
Proof.
  intros e w signal.
  exact (signal_partner_gone
           (alone startVideoAB) "A" signal e (mkChatRoom 2 ("A", "B") 2 (Some true)) "B"
           ltac:(vm_compute; reflexivity)
           ltac:(vm_compute; reflexivity) ltac:(vm_compute; reflexivity)
           ltac:(vm_compute; reflexivity)).
Defined.

(** ** Exceptions *)

Lemma attemptMatch_returns (video : bool) (avoidPairing : list string) (e : Env) (w : World) :
  fst (attemptMatchSeq video avoidPairing e w) = Ok tt.
Proof.
  destruct (selectPair (queueOf video (storage w)) avoidPairing) as [[user1 [user2|]]|]
    eqn:Hsel.
  - destruct (attemptMatch_spec video e w avoidPairing user1 user2 Hsel) as (w' & -> & _).
    done.
  - by apply selectPair_defined in Hsel.
  - destruct video; simpl in Hsel |- *;
      [by rewrite tryMatchVideo_none|by rewrite tryMatchText_none].
Qed.

Lemma handleDisconnect_returns (sid ip ua : string) (e : Env) (w : World) :
  fst (handleDisconnectSeq sid ip ua e w) = Ok tt.
Proof.
  unfold handleDisconnectSeq, createAuditLogM. run_monad.
  destruct (getRoomByUser sid (storage w)) as [room|]; simpl; [|done].
  destruct (bool_decide (isVideoCall room = Some true)); simpl;
    (destruct (partnerOf room sid) as [partnerId|]; simpl; [|done]);
    by destruct (unreachable (findOpen partnerId (clients e))).
Qed.

Lemma neverRaises_bind {A B} (r : Res A) (f : A -> Co B) (e : Env) :
  neverRaises r → (∀ a, neverRaisesCo (f a)) → neverRaises (res_bind r f e).
Proof.
  intros Hr Hf. revert e. induction Hr as [a w|w k Hk IH]; intros e; simpl.
  - apply Hf.
  - constructor. intros e' w'. apply IH.
Qed.

Lemma neverRaises_await {A} (r : Res A) : neverRaises r → neverRaises (res_await r).
Proof.
  induction 1 as [a w|w k Hk IH]; simpl.
  - constructor. intros e w'. constructor.
  - constructor. intros e w'. apply IH.
Qed.

(** What a [try] block raises is caught, so only the handler of the
    exception matters. *)
Lemma neverRaises_catch (r : Res unit) (handler : Co unit) (e : Env) :
  neverRaisesCo handler → neverRaises (res_catch r handler e).
Proof.
  intros Hh. revert e. induction r as [a w|w|w k IH]; intros e; simpl.
  - constructor.
  - apply Hh.
  - constructor. intros e' w'. apply IH.
Qed.

Lemma neverRaisesCo_ret {A} (a : A) : neverRaisesCo (mret a).
Proof. intros e w. constructor. Qed.

Lemma neverRaisesCo_sync {A} (m : M A) : total m → neverRaisesCo (sync m).
Proof. intros Hm e w. unfold sync. destruct (Hm e w) as (a & w' & ->). constructor. Qed.

Lemma neverRaisesCo_bind {A B} (c : Co A) (f : A -> Co B) :
  neverRaisesCo c → (∀ a, neverRaisesCo (f a)) → neverRaisesCo (c ≫= f).
Proof. intros Hc Hf e w. apply neverRaises_bind; [apply Hc|done]. Qed.

Lemma neverRaisesCo_await {A} (c : Co A) : neverRaisesCo c → neverRaisesCo (await c).
Proof. intros Hc e w. apply neverRaises_await, Hc. Qed.

Lemma neverRaisesCo_catch (body handler : Co unit) :
  neverRaisesCo handler → neverRaisesCo (catch body handler).
Proof. intros Hh e w. by apply neverRaises_catch. Qed.

Lemma neverRaisesCo_apply {A} (c : Co A) (e : Env) (w : World) :
  neverRaisesCo c → neverRaises (c e w).
Proof. intros Hc. apply Hc. Qed.

Ltac neverRaises_step :=
  match goal with
  | |- neverRaisesCo (mret _) => apply neverRaisesCo_ret
  | |- neverRaisesCo (sync _) => apply neverRaisesCo_sync; intros ? ?; by eexists _, _
  | |- neverRaisesCo (createAuditLogA _) =>
      apply neverRaisesCo_sync; intros ? ?; by eexists _, _
  | |- neverRaisesCo (await _) => apply neverRaisesCo_await
  | |- neverRaisesCo (catch _ _) => apply neverRaisesCo_catch
  | |- neverRaisesCo (_ ≫= _) => apply neverRaisesCo_bind; [|intros ?]
  | |- neverRaisesCo (match ?x with _ => _ end) => destruct x
  | |- neverRaisesCo (if ?b then _ else _) => destruct b
  end.

Lemma neverRaisesCo_handleDisconnect sid ip ua : neverRaisesCo (handleDisconnect sid ip ua).
Proof. unfold handleDisconnect, send, setTimeout. cbv zeta. repeat neverRaises_step. Qed.

Lemma neverRaisesCo_attemptMatch video avoidPairing :
  neverRaisesCo (attemptMatch video avoidPairing).
Proof.
  intros e w. destruct video; simpl.
  - unfold tryMatchVideoUsersWithPreference.
    rewrite bind_sync. unfold read, getWaitingVideoUsers. cbn beta iota.
    destruct (selectPair (videoWaitingQueue (storage w)) avoidPairing)
      as [[user1 [user2|]]|] eqn:Hsel.
    + apply neverRaisesCo_apply.
      unfold send, setTimeout. repeat neverRaises_step.
    + by apply selectPair_defined in Hsel.
    + constructor.
  - unfold tryMatchTextUsersWithPreference.
    rewrite bind_sync. unfold read, getWaitingUsers. cbn beta iota.
    destruct (selectPair (waitingQueue (storage w)) avoidPairing)
      as [[user1 [user2|]]|] eqn:Hsel.
    + apply neverRaisesCo_apply.
      unfold send. repeat neverRaises_step.
    + by apply selectPair_defined in Hsel.
    + constructor.
Qed.

(** X25. No event handler lets an exception escape to the event loop,
    in any world: what a message handler raises is caught by the
    dispatcher, the close handler raises nothing, and a timer's match
    attempt always finds its second user (the one place where the
    matchmakers dereference a value that [find] could have failed to
    produce).  This holds of a handler that runs alone and of one
    that is resumed after each await in whatever world the other
    handlers have left. *)
Theorem no_uncaught_exception (ev : Event) (e : Env) (w : World) :
  fst (atomically (handle ev) e w) = Ok tt
  ∧ neverRaises (handle ev e w).
Proof.
  split.
  2:{ destruct ev as [c data|c|[avoidPairing|avoidPairing|r]]; simpl.
      - unfold onMessage. apply neverRaises_catch.
        unfold send. neverRaises_step.
      - unfold onClose. apply neverRaises_await, neverRaisesCo_handleDisconnect.
      - apply neverRaises_await, (neverRaisesCo_attemptMatch false).
      - apply neverRaises_await, (neverRaisesCo_attemptMatch true).
      - constructor. }
  rewrite handle_alone.
  destruct ev as [c data|c|[avoidPairing|avoidPairing|r]]; simpl.
  - unfold onMessageSeq, try_catch.
    match goal with
    | |- context [match ?body e w with _ => _ end] =>
        destruct (body e w) as [[[]|] w1]
    end; done.
  - apply handleDisconnect_returns.
  - apply (attemptMatch_returns false).
  - apply (attemptMatch_returns true).
  - done.
Qed.
